(** * UnrealDI: the registration storage of an object container

    A shallow embedding of [FRegistrationStorage]
    (Source/UnrealDI/Private/RegistrationStorage.cpp) and the properties of
    its resolution engine: binding lookup with shadowing, collect-all,
    lazy creation through lifetime handlers, the instance factory chain,
    dependency injection and auto-registration. *)

From stdpp Require Import gmap list.

(** ** Host object model *)

(** A [UClass*] is identified by a number; the null class pointer is not a
    [UClass] (the one entry point that checks for it, [ResolveAll], takes an
    [option UClass]). *)
Abbreviation UClass := nat (only parsing).

(** A [UObject*]: the identity of the object and its class
    ([UObject::GetClass]). *)
Record UObject := mkObject { ObjectId : nat; GetClass : UClass }.

#[global] Instance UObject_eq_dec : EqDecision UObject.
Proof. solve_decision. Defined.

(** Modelled from the spec: DI/Impl/Lifetimes.h is not part of the sources.
    A lifetime handler has [Get] and [Set]; the two stock policies are
    Transient (Get is always empty, Set does nothing) and Cached (Get returns
    the instance set before, if any; Set stores it). *)
Inductive FLifetimeHandler :=
| FLifetimeHandler_Transient
| FLifetimeHandler_Cached (Instance : option UObject).

Definition LifetimeHandler_Get (h : FLifetimeHandler) : option UObject :=
  match h with
  | FLifetimeHandler_Transient => None
  | FLifetimeHandler_Cached Instance => Instance
  end.

Definition LifetimeHandler_Set (Object : UObject) (h : FLifetimeHandler)
  : FLifetimeHandler :=
  match h with
  | FLifetimeHandler_Transient => FLifetimeHandler_Transient
  | FLifetimeHandler_Cached _ => FLifetimeHandler_Cached (Some Object)
  end.

(** [FResolver]: a binding.  [EffectiveClass] is a [TSoftClassPtr]; [None] is
    a soft pointer that [LoadSynchronous] resolves to null.
    [LifetimeHandler] is a [TSharedRef]: a reference into the store of
    handlers of the world, so that two bindings may share one handler. *)
Record FResolver := mkResolver {
  EffectiveClass : option UClass;
  LifetimeHandler : nat
}.

#[global] Instance FResolver_eq_dec : EqDecision FResolver.
Proof. solve_decision. Defined.

Definition LoadSynchronous (p : option UClass) : option UClass := p.

(** One [FRegistrationStorage], without its [ParentStorage] pointer, which
    is given by the position of the storage in the world (see [World]). *)
Record FRegistrationStorage := mkStorage {
  Registrations : gmap nat (list FResolver);
  InstanceFactories : list UObject;
  OuterForNewObject : UObject
}.

(** Parameters of a blueprint [InitDependencies] function. *)
Inductive FPropertyKind :=
| FObjectProperty (PropertyClass : UClass)
| FInterfaceProperty (InterfaceClass : UClass)
| FOtherProperty.

Record FProperty := mkProperty {
  HasParmFlag : bool;            (* HasAllPropertyFlags(CPF_Parm) *)
  PropertyKind : FPropertyKind
}.

Record UFunction := mkFunction {
  ParmsSize : nat;
  Properties : list FProperty
}.

(** A marshalled argument: a [TObjectPtr<UObject>] or an [FScriptInterface]. *)
Inductive Argument :=
| ArgObject (Object : UObject)
| ArgInterface (Object : UObject) (InterfaceClass : UClass).

Definition sizeof_TObjectPtr : nat := 8.
Definition sizeof_FScriptInterface : nat := 16.

Definition sizeof_Argument (a : Argument) : nat :=
  match a with
  | ArgObject _ => sizeof_TObjectPtr
  | ArgInterface _ _ => sizeof_FScriptInterface
  end.

Definition sizeof_Arguments (args : list Argument) : nat :=
  foldr (λ a n, sizeof_Argument a + n) 0 args.

(** Modelled from the spec: DI/Impl/DependenciesRegistry.h is not part of the
    sources.  A direct (native) initializer receives the instance and the
    scope as a resolver capability, so that it can itself call resolve; it is
    given by the types it resolves, in order. *)
Definition FInitFunctionPtr := list UClass.

(** The collaborators the storage consumes from its environment. *)
Record HostModel := mkHost {
  (* Type->IsChildOf<UInterface>() *)
  IsChildOf_UInterface : UClass → bool;
  (* FDependenciesRegistry::FindInitFunctions *)
  FindInitFunctions : UClass → option FInitFunctionPtr * option UFunction;
  (* IInstanceFactory::IsClassSupported *)
  IsClassSupported : UObject → UClass → bool;
  (* IInstanceFactory::Create: the class of the object returned, [None] for
     nullptr *)
  FactoryCreate : UObject → UObject → UClass → option UClass;
  (* UInstanceFactory::StaticClass() *)
  UInstanceFactory_StaticClass : UClass;
  (* GetMutableDefault<UDefaultInstanceFactory>() *)
  UDefaultInstanceFactory_Default : UObject
}.

(** ** The world *)

(** What the storage does to its collaborators, in order.  [EvResolve] records
    an entry into [Resolve] on a scope together with the binding it
    selected. *)
Inductive Event :=
| EvResolve (this : nat) (Type_ : UClass) (Resolver : FResolver)
| EvCreate (Factory Outer : UObject) (Class : UClass) (Result : UObject)
| EvNativeInit (Object : UObject) (Resolver : nat) (Deps : list UObject)
| EvProcessEvent (Object : UObject) (Arguments : list Argument)
| EvFinalizeCreation (Factory Object : UObject)
| EvSet (Handler : nat) (Object : UObject).

(** The scope chain, root first: the storage at position [0] has no
    [ParentStorage], the [ParentStorage] of the storage at position [S k] is
    the storage at position [k].  A scope is named by its position. *)
Record World := mkWorld {
  Scopes : list FRegistrationStorage;
  Handlers : list FLifetimeHandler;
  NextObjectId : nat;
  Trace : list Event
}.

(** ** Failures and the monad of the storage *)

Inductive Failure :=
| NullType                           (* checkf(Type, ...) in ResolveAll *)
| TypeNotRegistered (Type_ : UClass)  (* checkf(TotalResolvers > 0, ...) *)
| CannotAutoRegister (Type_ : UClass) (* checkf in GetResolver: Cannot auto register type *)
| EffectiveClassIsNull               (* check(EffectiveClass != nullptr) *)
| FactoryReturnedNull                (* checkf(Result != nullptr, ...) *)
| ParmsSizeMismatch                  (* check(CurrentArgument - Arguments == ParmsSize) *)
| NullParentStorage                  (* ParentStorage->FindInstanceFactory on a root *)
| EmptyResolversArray                (* Resolvers->Last() on an empty array *)
| BufferOverrun                      (* a write past the buffer of ResolveAll *)
| UninitializedRead                  (* a read of a cell of the buffer never written *)
| InvalidStorage                     (* a scope that is not in the world *)
| InvalidLifetimeHandler.            (* a handler that is not in the world *)

Inductive Outcome (A : Type) :=
| Ok (a : A)
| Failed (f : Failure)
| OutOfFuel.
Arguments Ok {A} a.
Arguments Failed {A} f.
Arguments OutOfFuel {A}.

Definition M (A : Type) : Type := World → Outcome A * World.

Definition ret {A} (a : A) : M A := λ w, (Ok a, w).

Definition bind {A B} (m : M A) (f : A → M B) : M B :=
  λ w, match m w with
       | (Ok a, w') => f a w'
       | (Failed e, w') => (Failed e, w')
       | (OutOfFuel, w') => (OutOfFuel, w')
       end.

Definition fail {A} (e : Failure) : M A := λ w, (Failed e, w).
Definition out_of_fuel {A} : M A := λ w, (OutOfFuel, w).

Declare Scope storage_scope.
Delimit Scope storage_scope with storage.
Notation "x <- m ;; k" := (bind m (λ x, k))
  (at level 100, m at next level, right associativity) : storage_scope.
Notation "m ;;; k" := (bind m (λ _, k))
  (at level 100, right associativity) : storage_scope.
Open Scope storage_scope.

Definition emit (e : Event) : M unit :=
  λ w, (Ok tt, mkWorld (Scopes w) (Handlers w) (NextObjectId w) (Trace w ++ [e])).

Definition get_storage (this : nat) : M FRegistrationStorage :=
  λ w, match Scopes w !! this with
       | Some s => (Ok s, w)
       | None => (Failed InvalidStorage, w)
       end.

Definition put_storage (this : nat) (s : FRegistrationStorage) : M unit :=
  λ w, (Ok tt, mkWorld (<[this := s]> (Scopes w)) (Handlers w) (NextObjectId w) (Trace w)).

Definition get_handler (h : nat) : M FLifetimeHandler :=
  λ w, match Handlers w !! h with
       | Some l => (Ok l, w)
       | None => (Failed InvalidLifetimeHandler, w)
       end.

(** [MakeShared<...>()]: a new handler, referenced by no binding yet. *)
Definition MakeShared (l : FLifetimeHandler) : M nat :=
  λ w, (Ok (length (Handlers w)),
        mkWorld (Scopes w) (Handlers w ++ [l]) (NextObjectId w) (Trace w)).

(** [Resolver.LifetimeHandler->Set(Result)]. *)
Definition set_handler (h : nat) (Object : UObject) : M unit :=
  λ w, (Ok tt,
        mkWorld (Scopes w) (alter (LifetimeHandler_Set Object) h (Handlers w))
                (NextObjectId w) (Trace w ++ [EvSet h Object])).

(** A new object of class [Class]. *)
Definition new_object (Class : UClass) : M UObject :=
  λ w, (Ok (mkObject (NextObjectId w) Class),
        mkWorld (Scopes w) (Handlers w) (S (NextObjectId w)) (Trace w)).

Section Storage.

Context (host : HostModel).

(** ** Binding table and scope chaining *)

(** [FRegistrationStorage::AddRegistration] *)
Definition AddRegistration (this : nat) (Interface : UClass)
    (EffectiveClass_ : option UClass) (Lifetime : nat) : M unit :=
  Storage <- get_storage this ;;
  let Resolvers := default [] (Registrations Storage !! Interface) in
  put_storage this
    (mkStorage (<[Interface := Resolvers ++ [mkResolver EffectiveClass_ Lifetime]]>
                  (Registrations Storage))
               (InstanceFactories Storage) (OuterForNewObject Storage)).

(** [FRegistrationStorage::IsRegistered] *)
Fixpoint IsRegistered (this : nat) (Type_ : UClass) (w : World) : bool :=
  match Scopes w !! this with
  | None => false
  | Some Storage =>
      if bool_decide (is_Some (Registrations Storage !! Type_)) then true
      else match this with
           | S ParentStorage => IsRegistered ParentStorage Type_ w
           | 0 => false
           end
  end.

(** [FRegistrationStorage::GetResolver] *)
Fixpoint GetResolver (this : nat) (Type_ : UClass) : M FResolver :=
  Storage <- get_storage this ;;
  match Registrations Storage !! Type_ with
  | Some Resolvers =>
      match last Resolvers with
      | Some Resolver => ret Resolver
      | None => fail EmptyResolversArray
      end
  | None =>
      match this with
      | S ParentStorage => GetResolver ParentStorage Type_
      | 0 =>
          (* auto-register Type if no registration found for it *)
          if IsChildOf_UInterface host Type_ then fail (CannotAutoRegister Type_)
          else
            Lifetime <- MakeShared FLifetimeHandler_Transient ;;
            let Resolver := mkResolver (Some Type_) Lifetime in
            put_storage 0
              (mkStorage (<[Type_ := [Resolver]]> (Registrations Storage))
                         (InstanceFactories Storage) (OuterForNewObject Storage)) ;;;
            ret Resolver
      end
  end.

(** ** Instance factory chain *)

(** [FRegistrationStorage::FindInstanceFactory] *)
Fixpoint FindInstanceFactory (this : nat) (Type_ : UClass) : M UObject :=
  Storage <- get_storage this ;;
  match List.find (λ InstanceFactory, IsClassSupported host InstanceFactory Type_)
                  (InstanceFactories Storage) with
  | Some InstanceFactory => ret InstanceFactory
  | None =>
      (* ParentStorage cannot be null here *)
      match this with
      | S ParentStorage => FindInstanceFactory ParentStorage Type_
      | 0 => fail NullParentStorage
      end
  end.

(** ** Injection engine *)

Section OpenRecursion.

(** [Resolve] as seen from [Inject], [ResolveImpl] and [ResolveAll]: the
    recursion through it is closed by [Resolve] below. *)
Context (resolve : nat → UClass → M UObject).

(** The native initializer resolves its dependencies on the resolver it is
    given. *)
Fixpoint ResolveDependencies (Resolver : nat) (Types : list UClass)
  : M (list UObject) :=
  match Types with
  | [] => ret []
  | Type_ :: Types' =>
      Result <- resolve Resolver Type_ ;;
      Rest <- ResolveDependencies Resolver Types' ;;
      ret (Result :: Rest)
  end.

(** The loop of [Inject] that prepares the arguments of the blueprint
    initializer. *)
Fixpoint PrepareArguments (this : nat) (It : list FProperty)
  : M (list Argument) :=
  match It with
  | [] => ret []
  | Property :: It' =>
      if HasParmFlag Property then
        match PropertyKind Property with
        | FObjectProperty PropertyClass =>
            Result <- resolve this PropertyClass ;;
            Rest <- PrepareArguments this It' ;;
            ret (ArgObject Result :: Rest)
        | FInterfaceProperty InterfaceClass =>
            Result <- resolve this InterfaceClass ;;
            Rest <- PrepareArguments this It' ;;
            ret (ArgInterface Result InterfaceClass :: Rest)
        | FOtherProperty => PrepareArguments this It'
        end
      else PrepareArguments this It'
  end.

(** [FRegistrationStorage::Inject] *)
Definition Inject_ (this : nat) (Object : UObject) : M bool :=
  let Class := GetClass Object in
  let NativeInitFunction := (FindInitFunctions host Class).1 in
  let BlueprintInitFunction := (FindInitFunctions host Class).2 in
  (* first - call native InitDependencies *)
  match NativeInitFunction with
  | Some Types =>
      (* the resolver passed is Cast<IResolver>(GetOwner()): the owner is the
         container that holds this storage; its class is not part of the
         sources, and as a resolver it resolves on the storage it holds (see
         FInitFunctionPtr), so the resolver is named by the scope *)
      Deps <- ResolveDependencies this Types ;;
      emit (EvNativeInit Object this Deps)
  | None => ret tt
  end ;;;
  (* then - call blueprint InitDependencies *)
  match BlueprintInitFunction with
  | Some Function =>
      Arguments <- PrepareArguments this (Properties Function) ;;
      if decide (sizeof_Arguments Arguments = ParmsSize Function)
      then emit (EvProcessEvent Object Arguments)
      else fail ParmsSizeMismatch
  | None => ret tt
  end ;;;
  ret (bool_decide (is_Some NativeInitFunction)
       || bool_decide (is_Some BlueprintInitFunction)).

(** ** Resolver: lazy creation *)

(** [FRegistrationStorage::ResolveImpl] *)
Definition ResolveImpl_ (this : nat) (Resolver : FResolver) : M UObject :=
  Handler <- get_handler (LifetimeHandler Resolver) ;;
  match LifetimeHandler_Get Handler with
  | Some Result => ret Result
  | None =>
      match LoadSynchronous (EffectiveClass Resolver) with
      | None => fail EffectiveClassIsNull
      | Some EffectiveClass_ =>
          (* create and initialize instance *)
          Factory <- FindInstanceFactory this EffectiveClass_ ;;
          Storage <- get_storage this ;;
          match FactoryCreate host Factory (OuterForNewObject Storage) EffectiveClass_ with
          | None => fail FactoryReturnedNull
          | Some Class =>
              Result <- new_object Class ;;
              emit (EvCreate Factory (OuterForNewObject Storage) EffectiveClass_ Result) ;;;
              Inject_ this Result ;;;
              emit (EvFinalizeCreation Factory Result) ;;;
              set_handler (LifetimeHandler Resolver) Result ;;;
              ret Result
          end
      end
  end.

(** ** Resolver: collect-all *)

(** The buffer allocated by [ResolveAll]: its cells ([None] is a cell never
    written) and the cursor [Iter]. *)
Record FBuffer := mkBuffer { Data : list (option UObject); Iter : nat }.

(** [*Data = ...; ++Data;] *)
Definition write (b : FBuffer) (Object : UObject) : M FBuffer :=
  if decide (Iter b < length (Data b))
  then ret (mkBuffer (<[Iter b := Some Object]> (Data b)) (S (Iter b)))
  else fail BufferOverrun.

(** The loop of [AppendObjectsCollection] over the resolvers of one scope. *)
Fixpoint AppendResolvers (this : nat) (Resolvers : list FResolver) (b : FBuffer)
  : M FBuffer :=
  match Resolvers with
  | [] => ret b
  | Resolver :: Resolvers' =>
      Object <- ResolveImpl_ this Resolver ;;
      b' <- write b Object ;;
      AppendResolvers this Resolvers' b'
  end.

(** [FRegistrationStorage::AppendObjectsCollection] *)
Fixpoint AppendObjectsCollection_ (this : nat) (Type_ : UClass) (b : FBuffer)
  : M FBuffer :=
  b1 <- match this with
        | S ParentStorage => AppendObjectsCollection_ ParentStorage Type_ b
        | 0 => ret b
        end ;;
  Storage <- get_storage this ;;
  match Registrations Storage !! Type_ with
  | Some Resolvers => AppendResolvers this Resolvers b1
  | None => ret b1
  end.

(** The first loop of [ResolveAll]: the total count over the chain. *)
Fixpoint TotalResolvers (Container : nat) (Type_ : UClass) : M nat :=
  Storage <- get_storage Container ;;
  let Num := from_option length 0 (Registrations Storage !! Type_) in
  match Container with
  | S ParentStorage =>
      Rest <- TotalResolvers ParentStorage Type_ ;;
      ret (Num + Rest)
  | 0 => ret Num
  end.

(** [FRegistrationStorage::ResolveAll]: the cells of the collection
    returned. *)
Definition ResolveAll_ (this : nat) (Type_ : option UClass)
  : M (list (option UObject)) :=
  match Type_ with
  | None => fail NullType
  | Some Type_ =>
      Total <- TotalResolvers this Type_ ;;
      (* if no types were registered, it's probably not what was expected *)
      if decide (0 < Total) then
        b <- AppendObjectsCollection_ this Type_ (mkBuffer (replicate Total None) 0) ;;
        ret (Data b)
      else fail (TypeNotRegistered Type_)
  end.

End OpenRecursion.

(** [FRegistrationStorage::Resolve].  The recursion through [Inject] need
    not end (two bindings may depend on each other), hence the fuel. *)
Fixpoint Resolve (fuel : nat) (this : nat) (Type_ : UClass) : M UObject :=
  match fuel with
  | 0 => out_of_fuel
  | S fuel' =>
      Resolver <- GetResolver this Type_ ;;
      emit (EvResolve this Type_ Resolver) ;;;
      ResolveImpl_ (Resolve fuel') this Resolver
  end.

Definition ResolveImpl (fuel : nat) := ResolveImpl_ (Resolve fuel).
Definition Inject (fuel : nat) := Inject_ (Resolve fuel).
Definition AppendObjectsCollection (fuel : nat) := AppendObjectsCollection_ (Resolve fuel).
Definition ResolveAll (fuel : nat) := ResolveAll_ (Resolve fuel).

(** [FRegistrationStorage::CanInject] *)
Definition CanInject (this : nat) (Class : UClass) : M bool :=
  let NativeInitFunction := (FindInitFunctions host Class).1 in
  let BlueprintInitFunction := (FindInitFunctions host Class).2 in
  ret (bool_decide (is_Some NativeInitFunction)
       || bool_decide (is_Some BlueprintInitFunction)).

(** ** Services *)

Definition set_factories (this : nat) (f : list UObject → list UObject) : M unit :=
  Storage <- get_storage this ;;
  put_storage this
    (mkStorage (Registrations Storage) (f (InstanceFactories Storage))
               (OuterForNewObject Storage)).

(** [Algo::Copy] of the collection into [InstanceFactories]. *)
Fixpoint CopyCollection (this : nat) (Cells : list (option UObject)) : M unit :=
  match Cells with
  | [] => ret tt
  | Some Object :: Cells' =>
      set_factories this (λ l, l ++ [Object]) ;;;
      CopyCollection this Cells'
  | None :: _ => fail UninitializedRead
  end.

(** [FRegistrationStorage::InitServices] *)
Definition InitServices (fuel : nat) (this : nat) : M unit :=
  match this with
  | 0 =>
      (* no point in creating Default Factory if we have parent storage *)
      set_factories this (λ l, l ++ [UDefaultInstanceFactory_Default host])
  | S _ => ret tt
  end ;;;
  (* add user provided factories *)
  Storage <- get_storage this ;;
  (if bool_decide (is_Some (Registrations Storage !! UInstanceFactory_StaticClass host))
   then
     Cells <- ResolveAll fuel this (Some (UInstanceFactory_StaticClass host)) ;;
     CopyCollection this Cells
   else ret tt) ;;;
  (* order by most recently added *)
  set_factories this reverse.

End Storage.

(** * Vocabulary of the properties *)

(** A computation that only reads the world. *)
Definition read_only {A} (m : M A) : Prop := ∀ w, (m w).2 = w.

(** A relation between the world before and the world after that every step
    of a computation maintains, whatever its outcome. *)
Definition preserves (R : relation World) {A} (m : M A) : Prop :=
  ∀ w, R w (m w).2.

(** Events of a resolution that runs on the scope [this]: every entry into
    [Resolve] is on [this], and [this] is the resolver handed to native
    initializers. *)
Definition event_on (this : nat) (e : Event) : Prop :=
  match e with
  | EvResolve k _ _ => k = this
  | EvNativeInit _ k _ => k = this
  | _ => True
  end.

(** The events other than the selection of a binding. *)
Definition effect_on (this : nat) (e : Event) : Prop :=
  match e with
  | EvResolve _ _ _ => False
  | EvNativeInit _ k _ => k = this
  | _ => True
  end.

(** The first half of [Resolve]: the binding is looked up and recorded. *)
Definition SelectResolver (host : HostModel) (this : nat) (Type_ : UClass)
  : M FResolver :=
  Resolver <- GetResolver host this Type_ ;;
  emit (EvResolve this Type_ Resolver) ;;;
  ret Resolver.

(** The frame of a resolution.  [extends w w']: from [w] to [w'] no scope
    other than the root was touched, the root kept its factories and every
    entry of its table and at most gained entries for types it had none for;
    handlers, objects and the trace only grew. *)
Record extends (w w' : World) : Prop := mkExtends {
  ext_length : length (Scopes w') = length (Scopes w);
  ext_scopes : ∀ k, k ≠ 0 → Scopes w' !! k = Scopes w !! k;
  ext_root : ∀ Root, Scopes w !! 0 = Some Root →
    ∃ Root', Scopes w' !! 0 = Some Root' ∧
      Registrations Root ⊆ Registrations Root' ∧
      InstanceFactories Root' = InstanceFactories Root ∧
      OuterForNewObject Root' = OuterForNewObject Root;
  ext_handlers : length (Handlers w) ≤ length (Handlers w');
  ext_transient : ∀ h, Handlers w !! h = Some FLifetimeHandler_Transient →
    Handlers w' !! h = Some FLifetimeHandler_Transient;
  ext_next : NextObjectId w ≤ NextObjectId w';
  ext_trace : Trace w `prefix_of` Trace w'
}.

(** The world after the root has auto-registered [Type_]. *)
Definition auto_registered (Type_ : UClass) (Root : FRegistrationStorage) (w : World)
  : World :=
  mkWorld
    (<[0 := mkStorage (<[Type_ := [mkResolver (Some Type_) (length (Handlers w))]]>
                         (Registrations Root))
                      (InstanceFactories Root) (OuterForNewObject Root)]> (Scopes w))
    (Handlers w ++ [FLifetimeHandler_Transient]) (NextObjectId w) (Trace w).

(** The bindings for a type over the chain of a scope, each with the scope
    that holds it: outermost ancestor first, the scope itself last, and in
    registration order within a scope. *)
Fixpoint ChainBindings (this : nat) (Type_ : UClass) (w : World)
  : list (nat * FResolver) :=
  match this with
  | S ParentStorage => ChainBindings ParentStorage Type_ w
  | 0 => []
  end ++
  match Scopes w !! this with
  | Some Storage => pair this <$> default [] (Registrations Storage !! Type_)
  | None => []
  end.

(** The buffer of [ResolveAll] after [Written] was written to it, with
    [Free] cells left. *)
Definition buffer_of (Written : list UObject) (Free : nat) : FBuffer :=
  mkBuffer ((Some <$> Written) ++ replicate Free None) (length Written).

(** The world in which the factories of the storage [Storage] of the scope
    [this] became [Factories]. *)
Definition with_factories (this : nat) (Storage : FRegistrationStorage)
    (Factories : list UObject) (w : World) : World :=
  mkWorld (<[this := mkStorage (Registrations Storage) Factories
                                (OuterForNewObject Storage)]> (Scopes w))
          (Handlers w) (NextObjectId w) (Trace w).

(** The bindings for a type over the chain of the parent of a scope. *)
Definition AncestorBindings (this : nat) (Type_ : UClass) (w : World)
  : list (nat * FResolver) :=
  match this with
  | S ParentStorage => ChainBindings ParentStorage Type_ w
  | 0 => []
  end.

(** The type that a property of a blueprint initializer asks [Inject] to
    resolve: the class of a parameter that is an object or an interface
    property. *)
Definition DependencyOf (Property : FProperty) : option UClass :=
  if HasParmFlag Property then
    match PropertyKind Property with
    | FObjectProperty PropertyClass => Some PropertyClass
    | FInterfaceProperty InterfaceClass => Some InterfaceClass
    | FOtherProperty => None
    end
  else None.

(** The types that the properties of a blueprint initializer ask for, in
    order. *)
Definition Dependencies (It : list FProperty) : list UClass :=
  omap DependencyOf It.

(** The argument made of the object resolved for a property. *)
Definition ArgumentOf (Property : FProperty) (Object : UObject) : Argument :=
  match PropertyKind Property with
  | FInterfaceProperty InterfaceClass => ArgInterface Object InterfaceClass
  | _ => ArgObject Object
  end.

(** The arguments made of the objects resolved for [Dependencies It], in
    order. *)
Fixpoint MarshalArguments (It : list FProperty) (Objects : list UObject)
  : list Argument :=
  match It with
  | [] => []
  | Property :: It' =>
      match DependencyOf Property, Objects with
      | Some _, Object :: Objects' =>
          ArgumentOf Property Object :: MarshalArguments It' Objects'
      | Some _, [] => []
      | None, _ => MarshalArguments It' Objects
      end
  end.

Section HostVocabulary.

Context (host : HostModel).

(** Whether a class declares a native or a blueprint initializer. *)
Definition DeclaresInitializer (Class : UClass) : bool :=
  bool_decide (is_Some (FindInitFunctions host Class).1)
  || bool_decide (is_Some (FindInitFunctions host Class).2).

(** The bindings of a list are resolved one after the other, each on the
    scope that holds it, and yield the objects of the second list. *)
Inductive ResolvedInOrder (fuel : nat)
  : list (nat * FResolver) → World → list UObject → World → Prop :=
| resolved_nil w : ResolvedInOrder fuel [] w [] w
| resolved_cons scope Resolver Bindings w Object w1 Objects w2 :
    ResolveImpl host fuel scope Resolver w = (Ok Object, w1) →
    ResolvedInOrder fuel Bindings w1 Objects w2 →
    ResolvedInOrder fuel ((scope, Resolver) :: Bindings) w (Object :: Objects) w2.

(** The types of a list are resolved one after the other by [Resolve] on the
    scope [this], and yield the objects of the second list. *)
Inductive ResolvedEach (fuel this : nat)
  : list UClass → World → list UObject → World → Prop :=
| each_nil w : ResolvedEach fuel this [] w [] w
| each_cons Type_ Types w Object w1 Objects w2 :
    Resolve host fuel this Type_ w = (Ok Object, w1) →
    ResolvedEach fuel this Types w1 Objects w2 →
    ResolvedEach fuel this (Type_ :: Types) w (Object :: Objects) w2.

(** The native initializer of the class of [Object], if it declares one, ran
    from [w] to [w'] with the scope [this] as its resolver: the types it asks
    for were resolved by [Resolve] on [this], in order, and it received the
    objects returned. *)
Definition NativeInjected (fuel this : nat) (Object : UObject) (w w' : World)
  : Prop :=
  match (FindInitFunctions host (GetClass Object)).1 with
  | Some Types =>
      ∃ Deps w1,
        ResolvedEach fuel this Types w Deps w1 ∧
        w' = (emit (EvNativeInit Object this Deps) w1).2
  | None => w' = w
  end.

(** The blueprint initializer of the class of [Object], if it declares one,
    ran from [w] to [w']: the class of every parameter that is an object or
    an interface property was resolved by [Resolve] on [this], in order, the
    arguments made of the objects returned have the size the function
    declares, and [ProcessEvent] received them. *)
Definition BlueprintInjected (fuel this : nat) (Object : UObject) (w w' : World)
  : Prop :=
  match (FindInitFunctions host (GetClass Object)).2 with
  | Some Function =>
      ∃ Objects w1,
        ResolvedEach fuel this (Dependencies (Properties Function)) w Objects w1 ∧
        sizeof_Arguments (MarshalArguments (Properties Function) Objects)
          = ParmsSize Function ∧
        w' = (emit (EvProcessEvent Object
                      (MarshalArguments (Properties Function) Objects)) w1).2
  | None => w' = w
  end.

(** The factory only a root adds to its list. *)
Definition DefaultFactories (this : nat) : list UObject :=
  match this with
  | 0 => [UDefaultInstanceFactory_Default host]
  | S _ => []
  end.

(** The first step of [InitServices]. *)
Definition AddDefaultFactory (this : nat) : M unit :=
  match this with
  | 0 => set_factories this (λ l, l ++ [UDefaultInstanceFactory_Default host])
  | S _ => ret tt
  end.



End HostVocabulary.

Section OverrideVocabulary.

Context (this : nat) (Dependency : UClass) (Latest : FResolver).

(** The scope [this] has local bindings for [Dependency], the last of which
    is [Latest]. *)
Definition overridden (w : World) : Prop :=
  ∃ Storage Earlier,
    Scopes w !! this = Some Storage ∧
    Registrations Storage !! Dependency = Some (Earlier ++ [Latest]).

(** An entry into [Resolve] for [Dependency] selected [Latest]. *)
Definition selects (e : Event) : Prop :=
  match e with
  | EvResolve _ Type_ Resolver => Type_ = Dependency → Resolver = Latest
  | _ => True
  end.

(** From [w] to [w'] a resolution ran on [this]: the frame holds, every new
    event is on [this], and if [this] overrides [Dependency] every new
    selection for it is the override. *)
Definition resolves_here (w w' : World) : Prop :=
  extends w w' ∧
  ∃ new, Trace w' = Trace w ++ new ∧
    Forall (event_on this) new ∧ (overridden w → Forall selects new).

End OverrideVocabulary.

(** * A concrete container tree

    A root scope and one child scope.  The root binds [IWeapon] to [USword],
    [UPlayer] to itself and [UInstanceFactory] to [UWeaponFactory]; the child
    binds [IWeapon] to [UAxe] (cached) and then to [UBow], and
    [UInstanceFactory] to [UAxeFactory].  A [UPlayer] has a blueprint
    initializer that takes an [IWeapon]; a [USquad] has a native initializer
    that resolves a [UPlayer] and a [UGhost]. *)

Definition IWeapon : nat := 1.
Definition USword : nat := 2.
Definition UAxe : nat := 3.
Definition UBow : nat := 4.
Definition UPlayer : nat := 5.
Definition USquad : nat := 6.
Definition UGhost : nat := 7.
Definition IUnbound : nat := 8.
Definition UInstanceFactory : nat := 10.
Definition UDefaultInstanceFactory : nat := 11.
Definition UWeaponFactory : nat := 12.
Definition UAxeFactory : nat := 13.

Definition demo_host : HostModel :=
  mkHost
    (λ Type_, bool_decide (Type_ = IWeapon ∨ Type_ = IUnbound))
    (λ Class,
       if decide (Class = UPlayer)
       then (None, Some (mkFunction 16 [mkProperty true (FInterfaceProperty IWeapon);
                                        mkProperty false FOtherProperty]))
       else if decide (Class = USquad) then (Some [UPlayer; UGhost], None)
       else (None, None))
    (λ Factory Type_,
       if decide (GetClass Factory = UDefaultInstanceFactory) then true
       else if decide (GetClass Factory = UWeaponFactory)
            then bool_decide (Type_ = USword ∨ Type_ = UAxe)
       else if decide (GetClass Factory = UAxeFactory) then bool_decide (Type_ = UAxe)
       else false)
    (λ Factory Outer Class, Some Class)
    UInstanceFactory
    (mkObject 0 UDefaultInstanceFactory).

Definition demo_outer : UObject := mkObject 1 100.
Definition sword_binding : FResolver := mkResolver (Some USword) 0.
Definition axe_binding : FResolver := mkResolver (Some UAxe) 1.
Definition bow_binding : FResolver := mkResolver (Some UBow) 2.
Definition player_binding : FResolver := mkResolver (Some UPlayer) 3.
Definition weapon_factory_binding : FResolver := mkResolver (Some UWeaponFactory) 4.
Definition axe_factory_binding : FResolver := mkResolver (Some UAxeFactory) 5.

Definition demo_root : FRegistrationStorage :=
  mkStorage (<[IWeapon := [sword_binding]]>
             (<[UPlayer := [player_binding]]>
              (<[UInstanceFactory := [weapon_factory_binding]]> ∅)))
            [] demo_outer.

Definition demo_child : FRegistrationStorage :=
  mkStorage (<[IWeapon := [axe_binding; bow_binding]]>
             (<[UInstanceFactory := [axe_factory_binding]]> ∅))
            [] demo_outer.

(** The tree before [InitServices]. *)
Definition demo_registered : World :=
  mkWorld [demo_root; demo_child]
          [FLifetimeHandler_Transient; FLifetimeHandler_Cached None;
           FLifetimeHandler_Transient; FLifetimeHandler_Transient;
           FLifetimeHandler_Transient; FLifetimeHandler_Transient]
          50 [].

(** The same child under a root that binds nothing. *)
Definition demo_orphan : World :=
  mkWorld [mkStorage ∅ [] demo_outer;
           mkStorage (Registrations demo_child)
                     [mkObject 52 UAxeFactory; mkObject 51 UWeaponFactory] demo_outer]
          [] 0 [].

(** The tree after [InitServices] on the root, and then on the child. *)
Definition demo_root_ready : World := (InitServices demo_host 3 0 demo_registered).2.
Definition demo_world : World := (InitServices demo_host 3 1 demo_root_ready).2.

(** The child of [demo_world]. *)
Definition demo_child_ready : FRegistrationStorage :=
  mkStorage (Registrations demo_child)
            [mkObject 52 UAxeFactory; mkObject 51 UWeaponFactory] demo_outer.

(** [demo_world] after all the weapons were collected on the child. *)
Definition demo_collected : World :=
  (ResolveAll demo_host 2 1 (Some IWeapon) demo_world).2.

(** [demo_world] with a third scope under the child, which binds nothing. *)
Definition demo_deep : World :=
  mkWorld (Scopes demo_world ++ [mkStorage ∅ [] demo_outer])
          (Handlers demo_world) (NextObjectId demo_world) (Trace demo_world).

(** * Vocabulary of the further properties *)

(** No entry of any binding table is an empty array: an entry is made with
    its first binding ([AddRegistration], auto-registration). *)
Definition NoEmptyArray (w : World) : Prop :=
  ∀ k Storage Type_,
    Scopes w !! k = Some Storage → Registrations Storage !! Type_ ≠ Some [].

(** From [w] to [w'] no table got an empty array. *)
Definition keeps_arrays (w w' : World) : Prop := NoEmptyArray w → NoEmptyArray w'.

(** [NoEmptyArray], as a check that can be run. *)
Definition no_empty_array (w : World) : bool :=
  forallb (λ Storage,
             forallb (λ entry, negb (bool_decide (entry.2 = [])))
                     (map_to_list (Registrations Storage)))
          (Scopes w).

(** What [InitServices] on the scope [this] may change, whatever its
    outcome: the factory list of [this], and what a resolution may change
    (entries the root had none for). *)
Definition services_frame (this : nat) (w w' : World) : Prop :=
  length (Scopes w') = length (Scopes w) ∧
  ∀ k Storage, Scopes w !! k = Some Storage →
    ∃ Storage', Scopes w' !! k = Some Storage' ∧
      OuterForNewObject Storage' = OuterForNewObject Storage ∧
      Registrations Storage ⊆ Registrations Storage' ∧
      (k ≠ 0 → Registrations Storage' = Registrations Storage) ∧
      (k ≠ this → InstanceFactories Storage' = InstanceFactories Storage).

(** An object was created with the outer [Outer]. *)
Definition created_with (Outer : UObject) (e : Event) : Prop :=
  match e with
  | EvCreate _ Outer' _ _ => Outer' = Outer
  | _ => True
  end.

(** From [w] to [w'] the frame of a resolution holds and, if [Outer] is the
    outer of the scope [this], every object was created with it. *)
Definition creates_in (this : nat) (Outer : UObject) (w w' : World) : Prop :=
  extends w w' ∧
  ((∃ Storage, Scopes w !! this = Some Storage ∧ OuterForNewObject Storage = Outer) →
   ∃ new, Trace w' = Trace w ++ new ∧ Forall (created_with Outer) new).

(** The properties of a blueprint initializer that [Inject] marshals: the
    parameters that are object or interface properties. *)
Definition IsMarshalled (Property : FProperty) : bool :=
  HasParmFlag Property &&
  match PropertyKind Property with
  | FOtherProperty => false
  | _ => true
  end.

(** The argument is of the kind that the property asks for. *)
Definition marshals (Property : FProperty) (a : Argument) : Prop :=
  match PropertyKind Property, a with
  | FObjectProperty _, ArgObject _ => True
  | FInterfaceProperty InterfaceClass, ArgInterface _ InterfaceClass' =>
      InterfaceClass' = InterfaceClass
  | _, _ => False
  end.

(** The bytes that [Inject] writes for the properties of a function. *)
Definition MarshalledSize (It : list FProperty) : nat :=
  foldr (λ Property n,
           match PropertyKind Property with
           | FObjectProperty _ => sizeof_TObjectPtr
           | FInterfaceProperty _ => sizeof_FScriptInterface
           | FOtherProperty => 0
           end + n)
        0 (List.filter IsMarshalled It).

(** A computation that can only fail with a failure in [P]. *)
Definition fails_only (P : Failure → Prop) {A} (m : M A) : Prop :=
  ∀ w e, (m w).1 = Failed e → P e.

(** The failures of single resolve: those of the lookup (auto-registration
    is refused for interfaces only), of the factory search, of creation and
    of injection; not those of collect-all. *)
Definition ResolveFailure (host : HostModel) (e : Failure) : Prop :=
  match e with
  | NullType | TypeNotRegistered _ | BufferOverrun | UninitializedRead => False
  | CannotAutoRegister Type_ => IsChildOf_UInterface host Type_ = true
  | _ => True
  end.

(** ** A tree with a binding that cannot be resolved *)

(** [demo_world] after the child registered a fourth binding for [IWeapon],
    whose effective class is null: collect-all on the child resolves the
    three bindings before it, and fails on this one. *)
Definition demo_broken : World :=
  (AddRegistration 1 IWeapon None 0 demo_world).2.

(** * Properties of the storage *)

(** ** The monad *)

Lemma bind_Ok {A B} (m : M A) (f : A → M B) w a w' :
  m w = (Ok a, w') → bind m f w = f a w'.
Proof. unfold bind. by intros ->. Qed.

Lemma bind_Failed {A B} (m : M A) (f : A → M B) w e w' :
  m w = (Failed e, w') → bind m f w = (Failed e, w').
Proof. unfold bind. by intros ->. Qed.

Lemma bind_Ok_inv {A B} (m : M A) (f : A → M B) w b w2 :
  bind m f w = (Ok b, w2) →
  ∃ a w1, m w = (Ok a, w1) ∧ f a w1 = (Ok b, w2).
Proof.
  unfold bind. destruct (m w) as [[a| |] w1]; intros Heq; try discriminate.
  by exists a, w1.
Qed.

Lemma read_only_ret {A} (a : A) : read_only (ret a).
Proof. done. Qed.

Lemma read_only_fail {A} e : read_only (@fail A e).
Proof. done. Qed.

Lemma read_only_bind {A B} (m : M A) (f : A → M B) :
  read_only m → (∀ a, read_only (f a)) → read_only (bind m f).
Proof.
  intros Hm Hf w. unfold bind. specialize (Hm w).
  destruct (m w) as [[a| |] w1]; simpl in *; subst; try done. apply Hf.
Qed.

Lemma read_only_get_storage k : read_only (get_storage k).
Proof. intros w. unfold get_storage. by destruct (Scopes w !! k). Qed.

Lemma read_only_get_handler h : read_only (get_handler h).
Proof. intros w. unfold get_handler. by destruct (Handlers w !! h). Qed.

Lemma get_storage_Some k w s :
  Scopes w !! k = Some s → get_storage k w = (Ok s, w).
Proof. unfold get_storage. by intros ->. Qed.

Lemma get_storage_None k w :
  Scopes w !! k = None → get_storage k w = (Failed InvalidStorage, w).
Proof. unfold get_storage. by intros ->. Qed.

Section Preserves.
Context (R : relation World) `{!PreOrder R}.

Lemma preserves_read_only {A} (m : M A) : read_only m → preserves R m.
Proof. intros Hm w. by rewrite Hm. Qed.

Lemma preserves_ret {A} (a : A) : preserves R (ret a).
Proof. by apply preserves_read_only. Qed.

Lemma preserves_fail {A} e : preserves R (@fail A e).
Proof. by apply preserves_read_only. Qed.

Lemma preserves_out_of_fuel {A} : preserves R (@out_of_fuel A).
Proof. by apply preserves_read_only. Qed.

Lemma preserves_bind {A B} (m : M A) (f : A → M B) :
    preserves R m → (∀ a, preserves R (f a)) → preserves R (bind m f).
Proof.
    intros Hm Hf w. unfold bind. specialize (Hm w).
    destruct (m w) as [[a| |] w1]; simpl in *; try done.
    etrans; [exact Hm|apply Hf].
Qed.
End Preserves.

Section StorageFacts.

Context (host : HostModel).

(** ** Unfolding equations *)

Lemma GetResolver_eq this Type_ :
  GetResolver host this Type_ =
  (Storage <- get_storage this ;;
   match Registrations Storage !! Type_ with
   | Some Resolvers =>
       match last Resolvers with
       | Some Resolver => ret Resolver
       | None => fail EmptyResolversArray
       end
   | None =>
       match this with
       | S ParentStorage => GetResolver host ParentStorage Type_
       | 0 =>
           if IsChildOf_UInterface host Type_ then fail (CannotAutoRegister Type_)
           else
             Lifetime <- MakeShared FLifetimeHandler_Transient ;;
             let Resolver := mkResolver (Some Type_) Lifetime in
             put_storage 0
               (mkStorage (<[Type_ := [Resolver]]> (Registrations Storage))
                          (InstanceFactories Storage) (OuterForNewObject Storage)) ;;;
             ret Resolver
       end
   end).
Proof. by destruct this. Qed.

Lemma FindInstanceFactory_eq this Type_ :
  FindInstanceFactory host this Type_ =
  (Storage <- get_storage this ;;
   match List.find (λ InstanceFactory, IsClassSupported host InstanceFactory Type_)
                   (InstanceFactories Storage) with
   | Some InstanceFactory => ret InstanceFactory
   | None =>
       match this with
       | S ParentStorage => FindInstanceFactory host ParentStorage Type_
       | 0 => fail NullParentStorage
       end
   end).
Proof. by destruct this. Qed.

Lemma IsRegistered_eq this Type_ w :
  IsRegistered this Type_ w =
  match Scopes w !! this with
  | None => false
  | Some Storage =>
      if bool_decide (is_Some (Registrations Storage !! Type_)) then true
      else match this with
           | S ParentStorage => IsRegistered ParentStorage Type_ w
           | 0 => false
           end
  end.
Proof. by destruct this. Qed.

(** ** Binding lookup *)

Lemma GetResolver_local this Type_ w Storage Resolvers Resolver :
  Scopes w !! this = Some Storage →
  Registrations Storage !! Type_ = Some Resolvers →
  last Resolvers = Some Resolver →
  GetResolver host this Type_ w = (Ok Resolver, w).
Proof.
  intros Hs Hr Hl. rewrite GetResolver_eq.
  rewrite (bind_Ok _ _ _ _ _ (get_storage_Some _ _ _ Hs)).
  by rewrite Hr, Hl.
Qed.

Lemma GetResolver_parent this Type_ w Storage :
  Scopes w !! S this = Some Storage →
  Registrations Storage !! Type_ = None →
  GetResolver host (S this) Type_ w = GetResolver host this Type_ w.
Proof.
  intros Hs Hr. rewrite (GetResolver_eq (S this)).
  rewrite (bind_Ok _ _ _ _ _ (get_storage_Some _ _ _ Hs)).
  by rewrite Hr.
Qed.

Lemma IsRegistered_false_inv this Type_ w :
  this < length (Scopes w) →
  IsRegistered this Type_ w = false →
  ∀ k, k ≤ this →
    ∃ Storage, Scopes w !! k = Some Storage ∧ Registrations Storage !! Type_ = None.
Proof.
  induction this as [|p IH]; intros Hlt Hreg k Hk; rewrite IsRegistered_eq in Hreg.
  - assert (k = 0) as -> by lia.
    destruct (Scopes w !! 0) as [s|] eqn:Hs; [|by apply lookup_ge_None in Hs; lia].
    exists s. split; [done|]. case_bool_decide as Hd; [done|].
    by apply eq_None_not_Some.
  - destruct (Scopes w !! S p) as [s|] eqn:Hs; [|by apply lookup_ge_None in Hs; lia].
    case_bool_decide as Hd; [done|].
    destruct (decide (k = S p)) as [->|Hne].
    + exists s. split; [done|]. by apply eq_None_not_Some.
    + apply IH; [lia|done|lia].
Qed.

Lemma GetResolver_unregistered this Type_ w :
  this < length (Scopes w) →
  IsRegistered this Type_ w = false →
  ∃ Root, Scopes w !! 0 = Some Root ∧ Registrations Root !! Type_ = None ∧
    GetResolver host this Type_ w =
    if IsChildOf_UInterface host Type_ then (Failed (CannotAutoRegister Type_), w)
    else (Ok (mkResolver (Some Type_) (length (Handlers w))),
          auto_registered Type_ Root w).
Proof.
  intros Hlt Hreg.
  pose proof (IsRegistered_false_inv _ _ _ Hlt Hreg) as Hall.
  destruct (Hall 0 ltac:(lia)) as (Root & HRoot & HNone).
  exists Root. split_and!; [done..|].
  clear Hreg. induction this as [|p IH].
  - rewrite GetResolver_eq.
    rewrite (bind_Ok _ _ _ _ _ (get_storage_Some _ _ _ HRoot)), HNone.
    by destruct (IsChildOf_UInterface host Type_).
  - destruct (Hall (S p) ltac:(lia)) as (s & Hs & Hn).
    rewrite (GetResolver_parent _ _ _ _ Hs Hn).
    apply IH; [lia|]. intros k Hk. apply Hall. lia.
Qed.

Lemma read_only_FindInstanceFactory this Type_ :
  read_only (FindInstanceFactory host this Type_).
Proof.
  induction this as [|p IH]; rewrite FindInstanceFactory_eq;
    (apply read_only_bind; [apply read_only_get_storage|]);
    intros s; destruct (List.find _ _); done.
Qed.

Lemma read_only_TotalResolvers this Type_ :
  read_only (TotalResolvers this Type_).
Proof.
  induction this as [|p IH]; simpl;
    (apply read_only_bind; [apply read_only_get_storage|]); intros s; [done|].
  apply read_only_bind; [apply IH|done].
Qed.

Lemma read_only_CanInject this Class : read_only (CanInject host this Class).
Proof. done. Qed.

End StorageFacts.

(** ** What resolution may change *)

Lemma Resolve_SelectResolver host fuel this Type_ w :
  Resolve host (S fuel) this Type_ w =
  bind (SelectResolver host this Type_)
       (ResolveImpl_ host (Resolve host fuel) this) w.
Proof.
  simpl. unfold SelectResolver, bind.
  by destruct (GetResolver host this Type_ w) as [[r| |] w1].
Qed.

Section ResolveInvariant.

Context (host : HostModel) (R : relation World) `{!PreOrder R} (this : nat).

Hypothesis R_select : ∀ Type_, preserves R (SelectResolver host this Type_).
Hypothesis R_emit : ∀ e, effect_on this e → preserves R (emit e).
Hypothesis R_set_handler : ∀ h Object, preserves R (set_handler h Object).
Hypothesis R_new_object : ∀ Class, preserves R (new_object Class).

Section Open.
Context (resolve : nat → UClass → M UObject).
Hypothesis R_resolve : ∀ Type_, preserves R (resolve this Type_).

Lemma ResolveDependencies_preserves Types :
    preserves R (ResolveDependencies resolve this Types).
Proof using R_resolve PreOrder0.
    induction Types as [|T Ts IH]; simpl; [by apply preserves_ret|].
    apply preserves_bind; [done..|]. intros o.
    apply preserves_bind; [done..|]. intros os. by apply preserves_ret.
Qed.

Lemma PrepareArguments_preserves It :
    preserves R (PrepareArguments resolve this It).
Proof using R_resolve PreOrder0.
    induction It as [|p It IH]; simpl; [by apply preserves_ret|].
    destruct (HasParmFlag p); [|done].
    destruct (PropertyKind p); [| |done];
      (apply preserves_bind; [done..|]; intros o;
       apply preserves_bind; [done..|]; intros os; by apply preserves_ret).
Qed.

Lemma Inject__preserves Object : preserves R (Inject_ host resolve this Object).
Proof using R_resolve R_emit PreOrder0.
    unfold Inject_. apply preserves_bind; [done| |].
    { destruct (FindInitFunctions host (GetClass Object)).1; [|by apply preserves_ret].
      apply preserves_bind; [done|apply ResolveDependencies_preserves|].
      intros deps. by apply R_emit. }
    intros _. apply preserves_bind; [done| |].
    { destruct (FindInitFunctions host (GetClass Object)).2; [|by apply preserves_ret].
      apply preserves_bind; [done|apply PrepareArguments_preserves|].
      intros args. case_decide; [by apply R_emit|by apply preserves_fail]. }
    intros _. by apply preserves_ret.
Qed.

Lemma ResolveImpl__preserves Resolver :
    preserves R (ResolveImpl_ host resolve this Resolver).
Proof using R_resolve R_emit R_set_handler R_new_object PreOrder0.
    unfold ResolveImpl_.
    apply preserves_bind; [done|apply preserves_read_only, read_only_get_handler; done|].
    intros h. destruct (LifetimeHandler_Get h); [by apply preserves_ret|].
    destruct (LoadSynchronous _); [|by apply preserves_fail].
    apply preserves_bind;
      [done|apply preserves_read_only, read_only_FindInstanceFactory; done|].
    intros f.
    apply preserves_bind; [done|apply preserves_read_only, read_only_get_storage; done|].
    intros s. destruct (FactoryCreate _ _ _ _); [|by apply preserves_fail].
    apply preserves_bind; [done..|]. intros o.
    apply preserves_bind; [done|by apply R_emit|]. intros _.
    apply preserves_bind; [done|apply Inject__preserves|]. intros _.
    apply preserves_bind; [done|by apply R_emit|]. intros _.
    apply preserves_bind; [done..|]. intros _. by apply preserves_ret.
Qed.
End Open.

Lemma Resolve_preserves fuel Type_ : preserves R (Resolve host fuel this Type_).
Proof using R_select R_emit R_set_handler R_new_object PreOrder0.
  revert Type_. induction fuel as [|fuel IH]; intros T.
  - by apply preserves_out_of_fuel.
  - intros w. rewrite Resolve_SelectResolver. revert w.
    apply preserves_bind; [done..|]. intros r.
    by apply ResolveImpl__preserves.
Qed.

Lemma ResolveImpl_preserves fuel Resolver :
  preserves R (ResolveImpl host fuel this Resolver).
Proof using R_select R_emit R_set_handler R_new_object PreOrder0.
  apply ResolveImpl__preserves. intros T. apply Resolve_preserves.
Qed.

Lemma Inject_preserves fuel Object : preserves R (Inject host fuel this Object).
Proof using R_select R_emit R_set_handler R_new_object PreOrder0.
  apply Inject__preserves. intros T. apply Resolve_preserves.
Qed.

End ResolveInvariant.

(** *** The frame of a resolution *)

#[global] Instance extends_preorder : PreOrder extends.
Proof.
  split.
  - intros w. split; try done. intros Root HRoot. by exists Root.
  - intros w1 w2 w3 [] []. split.
    + congruence.
    + intros k Hk. by rewrite ext_scopes1, ext_scopes0.
    + intros Root HRoot.
      destruct (ext_root0 _ HRoot) as (Root2 & H2 & Hsub2 & Hf2 & Ho2).
      destruct (ext_root1 _ H2) as (Root3 & H3 & Hsub3 & Hf3 & Ho3).
      exists Root3. split_and!; [done| |congruence..]. by etrans.
    + lia.
    + eauto.
    + lia.
    + by etrans.
Qed.

Lemma extends_emit e : preserves extends (emit e).
Proof.
  intros w. split; simpl; try done.
  - intros Root HRoot. by exists Root.
  - by apply prefix_app_r.
Qed.

Lemma extends_new_object Class : preserves extends (new_object Class).
Proof.
  intros w. split; simpl; try done; [|lia].
  intros Root HRoot. by exists Root.
Qed.

Lemma extends_set_handler h Object : preserves extends (set_handler h Object).
Proof.
  intros w. split; simpl; try done.
  - intros Root HRoot. by exists Root.
  - by rewrite length_alter.
  - intros h' Hh'. destruct (decide (h = h')) as [->|Hne].
    + rewrite list_lookup_alter_eq, Hh'. done.
    + by rewrite list_lookup_alter_ne.
  - by apply prefix_app_r.
Qed.

Lemma extends_auto_registered Type_ Root w :
  Scopes w !! 0 = Some Root → Registrations Root !! Type_ = None →
  extends w (auto_registered Type_ Root w).
Proof.
  intros HRoot HNone. split; simpl; try done.
  - by rewrite length_insert.
  - intros k Hk. by rewrite list_lookup_insert_ne.
  - intros Root0 HRoot0. assert (Root0 = Root) as -> by congruence.
    eexists. split; [apply list_lookup_insert_eq; by eapply lookup_lt_Some|].
    simpl. split_and!; [|done..]. by apply insert_subseteq.
  - rewrite length_app. lia.
  - intros h Hh. by apply lookup_app_l_Some.
Qed.

Lemma extends_GetResolver host this Type_ :
  preserves extends (GetResolver host this Type_).
Proof.
  induction this as [|p IH]; intros w; rewrite GetResolver_eq; unfold bind at 1;
    unfold get_storage; destruct (Scopes w !! _) as [s|] eqn:Hs; simpl; try done;
    (destruct (Registrations s !! Type_) as [rs|] eqn:Hr;
      [destruct (last rs); simpl; done|]).
  - destruct (IsChildOf_UInterface host Type_); simpl; [done|].
    by apply (extends_auto_registered Type_ s w).
  - apply IH.
Qed.

Lemma extends_SelectResolver host this Type_ :
  preserves extends (SelectResolver host this Type_).
Proof.
  apply preserves_bind; [apply _|apply extends_GetResolver|]. intros r.
  apply preserves_bind; [apply _|apply extends_emit|]. intros _.
  by apply preserves_ret; apply _.
Qed.

Lemma extends_Resolve host fuel this Type_ :
  preserves extends (Resolve host fuel this Type_).
Proof.
  apply Resolve_preserves; try apply _; intros.
  - apply extends_SelectResolver.
  - apply extends_emit.
  - apply extends_set_handler.
  - apply extends_new_object.
Qed.

Lemma extends_ResolveImpl host fuel this Resolver :
  preserves extends (ResolveImpl host fuel this Resolver).
Proof.
  apply ResolveImpl__preserves; try apply _; intros.
  - apply extends_emit.
  - apply extends_set_handler.
  - apply extends_new_object.
  - apply extends_Resolve.
Qed.

Lemma extends_Inject host fuel this Object :
  preserves extends (Inject host fuel this Object).
Proof.
  apply Inject__preserves; try apply _; intros.
  - apply extends_emit.
  - apply extends_Resolve.
Qed.

(** ** Single resolve: which binding is chosen *)

Section SingleResolve.

Context (host : HostModel).

(** [Resolve] is [GetResolver] followed by [ResolveImpl] on the same scope. *)
Lemma Resolve_selected fuel this Type_ w Resolver w1 :
  GetResolver host this Type_ w = (Ok Resolver, w1) →
  Resolve host (S fuel) this Type_ w =
  ResolveImpl host fuel this Resolver (emit (EvResolve this Type_ Resolver) w1).2.
Proof. intros Hget. simpl. by rewrite (bind_Ok _ _ _ _ _ Hget). Qed.

Lemma Resolve_not_selected fuel this Type_ w e w1 :
  GetResolver host this Type_ w = (Failed e, w1) →
  Resolve host (S fuel) this Type_ w = (Failed e, w1).
Proof. intros Hget. simpl. by rewrite (bind_Failed _ _ _ _ _ Hget). Qed.

(** Registration appends: the binding just added is the one looked up. *)
Lemma GetResolver_AddRegistration this Interface Class Lifetime w :
  this < length (Scopes w) →
  ∃ w1, AddRegistration this Interface Class Lifetime w = (Ok tt, w1) ∧
    GetResolver host this Interface w1 = (Ok (mkResolver Class Lifetime), w1).
Proof.
  intros Hlt. destruct (lookup_lt_is_Some_2 _ _ Hlt) as [s Hs].
  unfold AddRegistration. rewrite (bind_Ok _ _ _ _ _ (get_storage_Some _ _ _ Hs)).
  eexists. split; [done|].
  eapply GetResolver_local; simpl.
  - by apply list_lookup_insert_eq.
  - simpl. apply lookup_insert_eq.
  - apply last_snoc.
Qed.

(** C1: in a scope whose local table has bindings for a type, whatever their
    number, the binding single resolve uses is the last one of the ordered
    list, the most recently registered: [GetResolver] returns it without
    changing anything, and [Resolve] runs [ResolveImpl] on it. *)
Theorem C1_Resolve_uses_last_local_binding
    fuel this Type_ w Storage Earlier Latest :
  Scopes w !! this = Some Storage →
  Registrations Storage !! Type_ = Some (Earlier ++ [Latest]) →
  GetResolver host this Type_ w = (Ok Latest, w) ∧
  Resolve host (S fuel) this Type_ w =
    ResolveImpl host fuel this Latest (emit (EvResolve this Type_ Latest) w).2.
Proof.
  intros Hs Hr.
  assert (GetResolver host this Type_ w = (Ok Latest, w)) as Hget.
  { eapply GetResolver_local; [done..|]. apply last_snoc. }
  split; [done|]. by apply Resolve_selected.
Qed.

(** C2: a scope with a parent whose local table has a binding for a type
    never looks at its ancestors for it: in any two worlds that agree on the
    scope itself, whatever the ancestors have registered, single resolve
    selects the same binding, and it is one of the scope's own. *)
Theorem C2_local_binding_shadows_ancestors
    fuel ParentStorage Type_ w1 w2 Storage Resolvers :
  Scopes w1 !! S ParentStorage = Some Storage →
  Scopes w2 !! S ParentStorage = Some Storage →
  Registrations Storage !! Type_ = Some Resolvers →
  Resolvers ≠ [] →
  ∃ Resolver,
    Resolver ∈ Resolvers ∧
    GetResolver host (S ParentStorage) Type_ w1 = (Ok Resolver, w1) ∧
    GetResolver host (S ParentStorage) Type_ w2 = (Ok Resolver, w2) ∧
    Resolve host (S fuel) (S ParentStorage) Type_ w1 =
      ResolveImpl host fuel (S ParentStorage) Resolver
        (emit (EvResolve (S ParentStorage) Type_ Resolver) w1).2 ∧
    Resolve host (S fuel) (S ParentStorage) Type_ w2 =
      ResolveImpl host fuel (S ParentStorage) Resolver
        (emit (EvResolve (S ParentStorage) Type_ Resolver) w2).2.
Proof.
  intros Hs1 Hs2 Hr Hne.
  destruct (last Resolvers) as [r|] eqn:Hl; [|by apply last_None in Hl].
  exists r.
  pose proof (GetResolver_local host _ _ _ _ _ _ Hs1 Hr Hl) as H1.
  pose proof (GetResolver_local host _ _ _ _ _ _ Hs2 Hr Hl) as H2.
  split_and!; [|done|done|by apply Resolve_selected..].
  apply last_Some in Hl as [l' ->]. set_solver.
Qed.

End SingleResolve.

(** ** Lazy creation and injection *)

Lemma read_only_Ok {A} (m : M A) w a w' :
  read_only m → m w = (Ok a, w') → w' = w.
Proof. intros Hm Heq. specialize (Hm w). by rewrite Heq in Hm. Qed.

Ltac inv_bind H :=
  let a := fresh "a" in
  let w := fresh "w" in
  let Ha := fresh "Hstep" in
  apply bind_Ok_inv in H as (a & w & Ha & H).

Section Creation.

Context (host : HostModel).

Lemma get_handler_Some h w l :
  Handlers w !! h = Some l → get_handler h w = (Ok l, w).
Proof. unfold get_handler. by intros ->. Qed.

Lemma Inject_result fuel this Object w Injected w' :
  Inject host fuel this Object w = (Ok Injected, w') →
  Injected = DeclaresInitializer host (GetClass Object).
Proof.
  unfold Inject, Inject_. intros H.
  inv_bind H. inv_bind H. unfold ret in H. by inversion H.
Qed.

(** C4: single resolve is lazy and caches as the lifetime handler says.  If
    the handler of the binding has an instance, that instance is returned and
    nothing at all happens (no creation, no injection, no finalization: the
    world, trace included, is unchanged).  Otherwise every successful
    resolution finds a factory for the effective class of the binding through
    the factory chain of the scope, has it create the instance, then runs
    injection on it, then finalization, then stores it with Set and returns
    it; the trace shows creation, the events of injection, finalization and
    Set in this order.  Conversely, when these steps succeed the resolution
    returns the created instance. *)
Theorem C4_ResolveImpl_lazy_then_create_inject_finalize_set
    fuel this Resolver w Handler :
  Handlers w !! LifetimeHandler Resolver = Some Handler →
  (∀ Result, LifetimeHandler_Get Handler = Some Result →
     ResolveImpl host fuel this Resolver w = (Ok Result, w)) ∧
  (LifetimeHandler_Get Handler = None →
   ∀ Result w', ResolveImpl host fuel this Resolver w = (Ok Result, w') →
     ∃ EffectiveClass_ Factory Storage Class w1 Injected w2 Injection,
       EffectiveClass Resolver = Some EffectiveClass_ ∧
       FindInstanceFactory host this EffectiveClass_ w = (Ok Factory, w) ∧
       Scopes w !! this = Some Storage ∧
       FactoryCreate host Factory (OuterForNewObject Storage) EffectiveClass_
         = Some Class ∧
       Result = mkObject (NextObjectId w) Class ∧
       w1 = (emit (EvCreate Factory (OuterForNewObject Storage) EffectiveClass_ Result)
               (new_object Class w).2).2 ∧
       Inject host fuel this Result w1 = (Ok Injected, w2) ∧
       w' = (set_handler (LifetimeHandler Resolver) Result
               (emit (EvFinalizeCreation Factory Result) w2).2).2 ∧
       Trace w' =
         Trace w
         ++ [EvCreate Factory (OuterForNewObject Storage) EffectiveClass_ Result]
         ++ Injection
         ++ [EvFinalizeCreation Factory Result;
             EvSet (LifetimeHandler Resolver) Result] ∧
       Handlers w' =
         alter (LifetimeHandler_Set Result) (LifetimeHandler Resolver) (Handlers w2)) ∧
  (LifetimeHandler_Get Handler = None →
   ∀ EffectiveClass_ Factory Storage Class Injected w2,
     EffectiveClass Resolver = Some EffectiveClass_ →
     FindInstanceFactory host this EffectiveClass_ w = (Ok Factory, w) →
     Scopes w !! this = Some Storage →
     FactoryCreate host Factory (OuterForNewObject Storage) EffectiveClass_
       = Some Class →
     let Result := mkObject (NextObjectId w) Class in
     Inject host fuel this Result
       (emit (EvCreate Factory (OuterForNewObject Storage) EffectiveClass_ Result)
          (new_object Class w).2).2 = (Ok Injected, w2) →
     ResolveImpl host fuel this Resolver w =
       (Ok Result,
        (set_handler (LifetimeHandler Resolver) Result
           (emit (EvFinalizeCreation Factory Result) w2).2).2)).
Proof.
  intros Hh. split_and!.
  - intros Result HGet. unfold ResolveImpl, ResolveImpl_.
    rewrite (bind_Ok _ _ _ _ _ (get_handler_Some _ _ _ Hh)). by rewrite HGet.
  - intros HGet Result w' H. unfold ResolveImpl, ResolveImpl_ in H.
    rewrite (bind_Ok _ _ _ _ _ (get_handler_Some _ _ _ Hh)), HGet in H.
    unfold LoadSynchronous in H.
    destruct (EffectiveClass Resolver) as [C|] eqn:HC; [|done].
    inv_bind H. rename a into Factory.
    pose proof (read_only_Ok _ _ _ _ (read_only_FindInstanceFactory host _ _) Hstep)
      as ->.
    inv_bind H. rename a into Storage.
    pose proof (read_only_Ok _ _ _ _ (read_only_get_storage _) Hstep0) as ->.
    unfold get_storage in Hstep0.
    destruct (Scopes w !! this) as [s|] eqn:Hs; [|done].
    inversion Hstep0; subst s. clear Hstep0.
    destruct (FactoryCreate host Factory (OuterForNewObject Storage) C)
      as [Class|] eqn:HCreate; [|done].
    inv_bind H. unfold new_object in Hstep0. inversion Hstep0; subst a w0.
    clear Hstep0.
    inv_bind H. unfold emit in Hstep0. inversion Hstep0; subst a w0. clear Hstep0.
    inv_bind H. rename a into Injected. rename w0 into w2.
    inv_bind H. unfold emit in Hstep1. inversion Hstep1; subst a w0. clear Hstep1.
    inv_bind H. unfold set_handler in Hstep1. inversion Hstep1; subst a w0.
    clear Hstep1. unfold ret in H. inversion H; subst Result w'. clear H.
    fold (Inject host fuel this) in Hstep0.
    match type of Hstep0 with Inject _ _ _ ?o ?w1 = _ =>
      pose proof (extends_Inject host fuel this o w1) as Hext end.
    rewrite Hstep0 in Hext. simpl in Hext.
    destruct (ext_trace _ _ Hext) as [Injection HInj]. simpl in HInj.
    exists C, Factory, Storage, Class. eexists. exists Injected, w2, Injection.
    split_and!; try done. simpl. rewrite HInj. by rewrite <- !app_assoc.
  - intros HGet C Factory Storage Class Injected w2 HC HFactory Hs HCreate Result
      HInject.
    unfold ResolveImpl, ResolveImpl_.
    rewrite (bind_Ok _ _ _ _ _ (get_handler_Some _ _ _ Hh)), HGet.
    unfold LoadSynchronous. rewrite HC.
    rewrite (bind_Ok _ _ _ _ _ HFactory).
    rewrite (bind_Ok _ _ _ _ _ (get_storage_Some _ _ _ Hs)), HCreate.
    rewrite (bind_Ok _ _ _ _ _ (eq_refl : new_object Class w = (Ok Result, _))).
    rewrite (bind_Ok _ _ _ _ _ (eq_refl : emit _ _ = (Ok tt, _))).
    fold (Inject host fuel this). simpl in HInject.
    by rewrite (bind_Ok _ _ _ _ _ HInject).
Qed.

Lemma ResolveDependencies_spec fuel this Types w Deps w' :
  ResolveDependencies (Resolve host fuel) this Types w = (Ok Deps, w') ↔
  ResolvedEach host fuel this Types w Deps w'.
Proof.
  split.
  - revert w Deps. induction Types as [|T Ts IH]; intros w Deps H; simpl in H.
    + unfold ret in H. inversion H; subst. constructor.
    + inv_bind H. rename a into o. inv_bind H. rename a into os.
      unfold ret in H. inversion H; subst Deps w1. clear H.
      econstructor; [exact Hstep|by apply IH].
  - induction 1 as [|T Ts w o w1 os w2 Hr _ IH]; simpl; [done|].
    rewrite (bind_Ok _ _ _ _ _ Hr). by rewrite (bind_Ok _ _ _ _ _ IH).
Qed.

Lemma Dependencies_cons Property It :
  Dependencies (Property :: It) =
  match DependencyOf Property with
  | Some Type_ => Type_ :: Dependencies It
  | None => Dependencies It
  end.
Proof. unfold Dependencies. simpl. by destruct (DependencyOf Property). Qed.

Lemma PrepareArguments_spec fuel this It w Arguments w' :
  PrepareArguments (Resolve host fuel) this It w = (Ok Arguments, w') ↔
  ∃ Objects,
    ResolvedEach host fuel this (Dependencies It) w Objects w' ∧
    Arguments = MarshalArguments It Objects.
Proof.
  split.
  - revert w Arguments. induction It as [|p It IH]; intros w args H; simpl in H.
    + unfold ret in H. inversion H; subst. exists []. split; [constructor|done].
    + rewrite Dependencies_cons. cbn [MarshalArguments].
      unfold DependencyOf, ArgumentOf.
      destruct (HasParmFlag p); [|by apply IH].
      destruct (PropertyKind p) as [C|C|]; [| |by apply IH].
      * inv_bind H. rename a into o. inv_bind H. rename a into rest.
        unfold ret in H. inversion H; subst args w1. clear H.
        apply IH in Hstep0 as (os & Hres & ->).
        exists (o :: os). split; [by econstructor|done].
      * inv_bind H. rename a into o. inv_bind H. rename a into rest.
        unfold ret in H. inversion H; subst args w1. clear H.
        apply IH in Hstep0 as (os & Hres & ->).
        exists (o :: os). split; [by econstructor|done].
  - intros (os & Hres & ->). revert w os Hres.
    induction It as [|p It IH]; intros w os Hres.
    + inversion Hres; subst. done.
    + rewrite Dependencies_cons in Hres. cbn [MarshalArguments PrepareArguments].
      unfold DependencyOf, ArgumentOf in *.
      destruct (HasParmFlag p); [|by apply IH].
      destruct (PropertyKind p) as [C|C|]; [| |by apply IH].
      * inversion Hres as [|? ? ? o w1 os' ? Hr Hrest]; subst.
        rewrite (bind_Ok _ _ _ _ _ Hr). by rewrite (bind_Ok _ _ _ _ _ (IH _ _ Hrest)).
      * inversion Hres as [|? ? ? o w1 os' ? Hr Hrest]; subst.
        rewrite (bind_Ok _ _ _ _ _ Hr). by rewrite (bind_Ok _ _ _ _ _ (IH _ _ Hrest)).
Qed.

(** What [Inject] did when it returns, and when it returns. *)
Lemma Inject_spec fuel this Object w Injected w' :
  Inject host fuel this Object w = (Ok Injected, w') ↔
  Injected = DeclaresInitializer host (GetClass Object) ∧
  ∃ wn,
    NativeInjected host fuel this Object w wn ∧
    BlueprintInjected host fuel this Object wn w'.
Proof.
  unfold Inject, Inject_, NativeInjected, BlueprintInjected, DeclaresInitializer.
  split.
  - intros H. inv_bind H. rename w0 into wn. inv_bind H.
    unfold ret in H. inversion H; subst Injected w0. clear H.
    split; [done|]. exists wn. split.
    + destruct (FindInitFunctions host (GetClass Object)).1 as [Types|].
      * inv_bind Hstep. apply ResolveDependencies_spec in Hstep1.
        unfold emit in Hstep. inversion Hstep; subst. by eauto.
      * unfold ret in Hstep. by inversion Hstep.
    + destruct (FindInitFunctions host (GetClass Object)).2 as [Function|].
      * inv_bind Hstep0. apply PrepareArguments_spec in Hstep1 as (os & Hres & ->).
        case_decide as Hsize; [|done].
        unfold emit in Hstep0. inversion Hstep0; subst. by eauto.
      * unfold ret in Hstep0. by inversion Hstep0.
  - intros (-> & wn & Hnative & Hblueprint).
    assert (∀ B (k : unit → M B),
              bind (match (FindInitFunctions host (GetClass Object)).1 with
                    | Some Types =>
                        Deps <- ResolveDependencies (Resolve host fuel) this Types ;;
                        emit (EvNativeInit Object this Deps)
                    | None => ret tt
                    end) k w = k tt wn) as ->.
    { intros B k. destruct (FindInitFunctions host (GetClass Object)).1 as [Types|].
      - destruct Hnative as (Deps & w1 & Hres & ->).
        apply ResolveDependencies_spec in Hres.
        apply bind_Ok. by rewrite (bind_Ok _ _ _ _ _ Hres).
      - by subst wn. }
    assert (∀ B (k : unit → M B),
              bind (match (FindInitFunctions host (GetClass Object)).2 with
                    | Some Function =>
                        Arguments <- PrepareArguments (Resolve host fuel) this
                                       (Properties Function) ;;
                        if decide (sizeof_Arguments Arguments = ParmsSize Function)
                        then emit (EvProcessEvent Object Arguments)
                        else fail ParmsSizeMismatch
                    | None => ret tt
                    end) k wn = k tt w') as ->; [|done].
    intros B k. destruct (FindInitFunctions host (GetClass Object)).2 as [Function|].
    + destruct Hblueprint as (os & w1 & Hres & Hsize & ->).
      assert (PrepareArguments (Resolve host fuel) this (Properties Function) wn
              = (Ok (MarshalArguments (Properties Function) os), w1)) as Hprep
        by (apply PrepareArguments_spec; eauto).
      apply bind_Ok. rewrite (bind_Ok _ _ _ _ _ Hprep). by rewrite decide_True.
    + by subst w'.
Qed.

Lemma NativeInjected_none fuel this Object w :
  (FindInitFunctions host (GetClass Object)).1 = None →
  NativeInjected host fuel this Object w w.
Proof. unfold NativeInjected. by intros ->. Qed.

Lemma NativeInjected_intro fuel this Object Types w Deps w1 :
  (FindInitFunctions host (GetClass Object)).1 = Some Types →
  ResolvedEach host fuel this Types w Deps w1 →
  NativeInjected host fuel this Object w (emit (EvNativeInit Object this Deps) w1).2.
Proof. unfold NativeInjected. intros ->. by eauto. Qed.

Lemma BlueprintInjected_none fuel this Object w :
  (FindInitFunctions host (GetClass Object)).2 = None →
  BlueprintInjected host fuel this Object w w.
Proof. unfold BlueprintInjected. by intros ->. Qed.

Lemma BlueprintInjected_intro fuel this Object Function w Objects w1 :
  (FindInitFunctions host (GetClass Object)).2 = Some Function →
  ResolvedEach host fuel this (Dependencies (Properties Function)) w Objects w1 →
  sizeof_Arguments (MarshalArguments (Properties Function) Objects)
    = ParmsSize Function →
  BlueprintInjected host fuel this Object w
    (emit (EvProcessEvent Object (MarshalArguments (Properties Function) Objects))
       w1).2.
Proof. unfold BlueprintInjected. intros ->. by eauto. Qed.

(** What a successful [ResolveImpl] on a handler without an instance did. *)
Lemma ResolveImpl_created fuel this Resolver w Handler Result w' :
  Handlers w !! LifetimeHandler Resolver = Some Handler →
  LifetimeHandler_Get Handler = None →
  ResolveImpl host fuel this Resolver w = (Ok Result, w') →
  ∃ EffectiveClass_ Factory Storage Injected w2,
    EffectiveClass Resolver = Some EffectiveClass_ ∧
    FindInstanceFactory host this EffectiveClass_ w = (Ok Factory, w) ∧
    Scopes w !! this = Some Storage ∧
    FactoryCreate host Factory (OuterForNewObject Storage) EffectiveClass_
      = Some (GetClass Result) ∧
    ObjectId Result = NextObjectId w ∧
    Inject host fuel this Result
      (emit (EvCreate Factory (OuterForNewObject Storage) EffectiveClass_ Result)
         (new_object (GetClass Result) w).2).2 = (Ok Injected, w2) ∧
    w' = (set_handler (LifetimeHandler Resolver) Result
            (emit (EvFinalizeCreation Factory Result) w2).2).2.
Proof.
  intros Hh HGet H. unfold ResolveImpl, ResolveImpl_ in H.
  rewrite (bind_Ok _ _ _ _ _ (get_handler_Some _ _ _ Hh)), HGet in H.
  unfold LoadSynchronous in H.
  destruct (EffectiveClass Resolver) as [C|] eqn:HC; [|done].
  inv_bind H. rename a into Factory.
  pose proof (read_only_Ok _ _ _ _ (read_only_FindInstanceFactory host _ _) Hstep)
    as ->.
  inv_bind H. rename a into Storage.
  pose proof (read_only_Ok _ _ _ _ (read_only_get_storage _) Hstep0) as ->.
  unfold get_storage in Hstep0.
  destruct (Scopes w !! this) as [s|] eqn:Hs; [|done].
  inversion Hstep0; subst s. clear Hstep0.
  destruct (FactoryCreate host Factory (OuterForNewObject Storage) C)
    as [Class|] eqn:HCreate; [|done].
  inv_bind H. unfold new_object in Hstep0. inversion Hstep0; subst a w0.
  clear Hstep0.
  inv_bind H. unfold emit in Hstep0. inversion Hstep0; subst a w0. clear Hstep0.
  inv_bind H. rename a into Injected. rename w0 into w2.
  inv_bind H. unfold emit in Hstep1. inversion Hstep1; subst a w0. clear Hstep1.
  inv_bind H. unfold set_handler in Hstep1. inversion Hstep1; subst a w0.
  clear Hstep1. unfold ret in H. inversion H; subst Result w'. clear H.
  exists C, Factory, Storage, Injected, w2. by split_and!.
Qed.

(** C8: [Inject] returns true exactly for the instances whose class declares
    a native or a blueprint initializer, and [CanInject] returns this very
    predicate of any class and changes nothing (it creates no instance and
    runs no initializer), so the two agree.  Whenever [Inject] returns, it
    returns the predicate, which is what [CanInject] answers for the class of
    the instance.  On an instance whose class declares neither initializer
    [Inject] always returns false and changes nothing.  On an instance whose
    class declares one, [Inject] does return, and returns true, as soon as
    the dependencies that the initializers ask for resolve and the arguments
    have the size that the blueprint function declares; it returns in no
    other case. *)
Theorem C8_Inject_agrees_with_CanInject fuel this Object w :
  (DeclaresInitializer host (GetClass Object) = true ↔
     is_Some (FindInitFunctions host (GetClass Object)).1
     ∨ is_Some (FindInitFunctions host (GetClass Object)).2) ∧
  (∀ scope Class w0,
     CanInject host scope Class w0 = (Ok (DeclaresInitializer host Class), w0)) ∧
  (∀ Injected w',
     Inject host fuel this Object w = (Ok Injected, w') →
     Injected = DeclaresInitializer host (GetClass Object) ∧
     CanInject host this (GetClass Object) w = (Ok Injected, w)) ∧
  (DeclaresInitializer host (GetClass Object) = false →
   Inject host fuel this Object w = (Ok false, w)) ∧
  (DeclaresInitializer host (GetClass Object) = true →
   ∀ w',
     Inject host fuel this Object w = (Ok true, w') ↔
     ∃ wn,
       NativeInjected host fuel this Object w wn ∧
       BlueprintInjected host fuel this Object wn w').
Proof.
  split_and!.
  - unfold DeclaresInitializer. by rewrite orb_true_iff, !bool_decide_eq_true.
  - done.
  - intros Injected w' H. apply Inject_result in H as ->. done.
  - intros Hno. unfold DeclaresInitializer in Hno.
    apply orb_false_iff in Hno as [Hn Hb].
    apply bool_decide_eq_false, eq_None_not_Some in Hn, Hb.
    unfold Inject, Inject_. by rewrite Hn, Hb.
  - intros Hyes w'. rewrite Inject_spec, Hyes. split.
    + by intros [_ Hstages].
    + by intros Hstages.
Qed.

End Creation.

(** ** Auto-registration *)

Lemma TotalResolvers_ChainBindings this Type_ w :
  this < length (Scopes w) →
  TotalResolvers this Type_ w = (Ok (length (ChainBindings this Type_ w)), w).
Proof.
  induction this as [|p IH]; intros Hlt;
    destruct (lookup_lt_is_Some_2 _ _ Hlt) as [s Hs]; simpl;
    rewrite (bind_Ok _ _ _ _ _ (get_storage_Some _ _ _ Hs)), Hs.
  - unfold ret. do 2 f_equal. rewrite length_fmap.
    by destruct (Registrations s !! Type_).
  - rewrite (bind_Ok _ _ _ _ _ (IH ltac:(lia))). unfold ret. do 2 f_equal.
    rewrite length_app, length_fmap.
    destruct (Registrations s !! Type_); simpl; lia.
Qed.

Lemma ChainBindings_unregistered this Type_ w :
  this < length (Scopes w) → IsRegistered this Type_ w = false →
  ChainBindings this Type_ w = [].
Proof.
  intros Hlt Hreg. pose proof (IsRegistered_false_inv _ _ _ Hlt Hreg) as Hall.
  clear Hreg Hlt. induction this as [|p IH]; simpl.
  - destruct (Hall 0 ltac:(lia)) as (s & -> & ->). done.
  - destruct (Hall (S p) ltac:(lia)) as (s & -> & ->).
    rewrite IH; [done|]. intros k Hk. apply Hall. lia.
Qed.

Section AutoRegistration.

Context (host : HostModel).

Lemma IsRegistered_at_root this Type_ w Root :
  this < length (Scopes w) →
  Scopes w !! 0 = Some Root → is_Some (Registrations Root !! Type_) →
  IsRegistered this Type_ w = true.
Proof.
  intros Hlt HRoot HT. induction this as [|p IH]; rewrite IsRegistered_eq.
  - rewrite HRoot. by rewrite bool_decide_eq_true_2.
  - destruct (lookup_lt_is_Some_2 _ _ Hlt) as [s ->].
    case_bool_decide; [done|]. apply IH. lia.
Qed.

Lemma GetResolver_at_root this Type_ w Root Resolvers Resolver :
  Scopes w !! 0 = Some Root →
  Registrations Root !! Type_ = Some Resolvers →
  last Resolvers = Some Resolver →
  (∀ k, 0 < k ≤ this →
     ∃ s, Scopes w !! k = Some s ∧ Registrations s !! Type_ = None) →
  GetResolver host this Type_ w = (Ok Resolver, w).
Proof.
  intros HRoot HT Hl Hall. induction this as [|p IH].
  - by eapply GetResolver_local.
  - destruct (Hall (S p) ltac:(lia)) as (s & Hs & Hn).
    rewrite (GetResolver_parent _ _ _ _ _ Hs Hn). apply IH.
    intros k Hk. apply Hall. lia.
Qed.

(** What holds of every world reached from the one in which the root
    auto-registered [Type_] for a resolution on [this]. *)
Lemma auto_registered_stable this Type_ w Root w2 :
  this < length (Scopes w) →
  IsRegistered this Type_ w = false →
  Scopes w !! 0 = Some Root →
  extends (auto_registered Type_ Root w) w2 →
  let Resolver := mkResolver (Some Type_) (length (Handlers w)) in
  (∃ Root2, Scopes w2 !! 0 = Some Root2 ∧
     Registrations Root ⊆ Registrations Root2 ∧
     Registrations Root2 !! Type_ = Some [Resolver]) ∧
  Handlers w2 !! LifetimeHandler Resolver = Some FLifetimeHandler_Transient ∧
  (∀ k, k ≠ 0 → Scopes w2 !! k = Scopes w !! k) ∧
  GetResolver host this Type_ w2 = (Ok Resolver, w2).
Proof.
  intros Hlt Hreg HRoot Hext Resolver.
  pose proof (IsRegistered_false_inv _ _ _ Hlt Hreg) as Hall.
  destruct (Hall 0 ltac:(lia)) as (Root0 & HRoot0 & HNone).
  assert (Root0 = Root) as -> by congruence.
  assert (∀ k, k ≠ 0 → Scopes w2 !! k = Scopes w !! k) as Hsame.
  { intros k Hk. rewrite (ext_scopes _ _ Hext k Hk). simpl.
    by rewrite list_lookup_insert_ne. }
  destruct (ext_root _ _ Hext
    (mkStorage (<[Type_ := [Resolver]]> (Registrations Root))
       (InstanceFactories Root) (OuterForNewObject Root)))
    as (Root2 & HRoot2 & Hsub & _).
  { simpl. apply list_lookup_insert_eq. lia. }
  simpl in Hsub.
  assert (Registrations Root2 !! Type_ = Some [Resolver]) as HT.
  { eapply lookup_weaken; [|exact Hsub]. apply lookup_insert_eq. }
  split_and!.
  - exists Root2. split_and!; [done| |done].
    etrans; [|exact Hsub]. by apply insert_subseteq.
  - apply (ext_transient _ _ Hext). simpl. apply list_lookup_middle. done.
  - done.
  - eapply GetResolver_at_root; [done..|].
    intros k Hk. rewrite Hsame by lia. apply Hall. lia.
Qed.

(** C5: a type with no binding anywhere in the chain of the scope.  If it is
    not an interface, single resolve auto-registers it at the root as one
    Transient binding whose effective class is the type itself, and resolves
    that binding; in every world reached afterwards the root still has
    exactly this one binding for the type, its handler is still Transient,
    and looking the type up again finds the binding and changes nothing (no
    second auto-registration).  If it is an interface, single resolve fails
    with the configuration error that names the type, and the world is
    unchanged: nothing was registered. *)
Theorem C5_unbound_type_auto_registered_once_or_fatal fuel this Type_ w :
  this < length (Scopes w) →
  IsRegistered this Type_ w = false →
  if IsChildOf_UInterface host Type_ then
    GetResolver host this Type_ w = (Failed (CannotAutoRegister Type_), w) ∧
    Resolve host (S fuel) this Type_ w = (Failed (CannotAutoRegister Type_), w)
  else
    ∃ Root, Scopes w !! 0 = Some Root ∧
      let Resolver := mkResolver (Some Type_) (length (Handlers w)) in
      let w1 := auto_registered Type_ Root w in
      GetResolver host this Type_ w = (Ok Resolver, w1) ∧
      Resolve host (S fuel) this Type_ w =
        ResolveImpl host fuel this Resolver (emit (EvResolve this Type_ Resolver) w1).2 ∧
      extends w1 (Resolve host (S fuel) this Type_ w).2 ∧
      ∀ w2, extends w1 w2 →
        (∃ Root2, Scopes w2 !! 0 = Some Root2 ∧
           Registrations Root2 !! Type_ = Some [Resolver]) ∧
        Handlers w2 !! LifetimeHandler Resolver = Some FLifetimeHandler_Transient ∧
        GetResolver host this Type_ w2 = (Ok Resolver, w2) ∧
        ∀ fuel' scope Type', extends w1 (Resolve host fuel' scope Type' w2).2.
Proof.
  intros Hlt Hreg.
  destruct (GetResolver_unregistered host _ _ _ Hlt Hreg) as (Root & HRoot & HNone & Hget).
  destruct (IsChildOf_UInterface host Type_).
  - split; [done|]. by apply Resolve_not_selected.
  - exists Root. split; [done|]. cbv zeta. split; [done|].
    pose proof (Resolve_selected host fuel _ _ _ _ _ Hget) as HRes.
    split; [done|]. split.
    + rewrite HRes. etrans; [|apply extends_ResolveImpl]. apply extends_emit.
    + intros w2 Hext.
      destruct (auto_registered_stable _ _ _ _ _ Hlt Hreg HRoot Hext)
        as ((Root2 & HRoot2 & _ & HT) & Hh & _ & Hget2).
      split_and!; [by exists Root2|done..|].
      intros fuel' scope Type'. etrans; [exact Hext|]. apply extends_Resolve.
Qed.

(** C10: a scope with a parent resolves a type that is not an interface and
    has no binding anywhere in its chain.  After the lookup, and after the
    whole resolution whatever its outcome, the auto-registered Transient
    binding is in the table of the root, which had none for the type and
    lost nothing; every other scope, the requesting one included, is
    unchanged; and [IsRegistered] answers true for the type on every
    scope. *)
Theorem C10_auto_registration_lands_in_root fuel ParentStorage Type_ w w' :
  S ParentStorage < length (Scopes w) →
  IsRegistered (S ParentStorage) Type_ w = false →
  IsChildOf_UInterface host Type_ = false →
  w' = (GetResolver host (S ParentStorage) Type_ w).2
  ∨ w' = (Resolve host (S fuel) (S ParentStorage) Type_ w).2 →
  (∃ Root Root', Scopes w !! 0 = Some Root ∧ Scopes w' !! 0 = Some Root' ∧
     Registrations Root !! Type_ = None ∧
     Registrations Root ⊆ Registrations Root' ∧
     Registrations Root' !! Type_ =
       Some [mkResolver (Some Type_) (length (Handlers w))] ∧
     Handlers w' !! length (Handlers w) = Some FLifetimeHandler_Transient) ∧
  (∀ k, k ≠ 0 → Scopes w' !! k = Scopes w !! k) ∧
  (∀ k, k < length (Scopes w) → IsRegistered k Type_ w' = true).
Proof.
  intros Hlt Hreg Hni Hw'.
  destruct (GetResolver_unregistered host _ _ _ Hlt Hreg) as (Root & HRoot & HNone & Hget).
  rewrite Hni in Hget.
  assert (extends (auto_registered Type_ Root w) w') as Hext.
  { destruct Hw' as [->| ->].
    - by rewrite Hget.
    - rewrite (Resolve_selected host fuel _ _ _ _ _ Hget).
      etrans; [|apply extends_ResolveImpl]. apply extends_emit. }
  destruct (auto_registered_stable _ _ _ _ _ Hlt Hreg HRoot Hext)
    as ((Root2 & HRoot2 & Hsub & HT) & Hh & Hsame & _).
  split_and!; [by exists Root, Root2|done|].
  intros k Hk. eapply IsRegistered_at_root; [|done|by rewrite HT].
  rewrite (ext_length _ _ Hext). simpl. by rewrite length_insert.
Qed.

End AutoRegistration.

(** ** Collect-all *)

Section CollectAll.

Context (host : HostModel).

Lemma ResolvedInOrder_length fuel Bindings w Objects w' :
  ResolvedInOrder host fuel Bindings w Objects w' → length Objects = length Bindings.
Proof. induction 1; simpl; congruence. Qed.

Lemma ResolvedInOrder_extends fuel Bindings w Objects w' :
  ResolvedInOrder host fuel Bindings w Objects w' → extends w w'.
Proof.
  induction 1 as [|scope r bs w o w1 os w2 Hr _ IH]; [done|].
  etrans; [|exact IH].
  pose proof (extends_ResolveImpl host fuel scope r w) as Hext.
  by rewrite Hr in Hext.
Qed.

Lemma ResolvedInOrder_app fuel Bindings1 Bindings2 w Objects1 w1 Objects2 w2 :
  ResolvedInOrder host fuel Bindings1 w Objects1 w1 →
  ResolvedInOrder host fuel Bindings2 w1 Objects2 w2 →
  ResolvedInOrder host fuel (Bindings1 ++ Bindings2) w (Objects1 ++ Objects2) w2.
Proof.
  induction 1; intros H2; simpl; [done|]. econstructor; [done|]. auto.
Qed.

Lemma ResolvedInOrder_app_inv fuel Bindings1 Bindings2 w Objects w' :
  ResolvedInOrder host fuel (Bindings1 ++ Bindings2) w Objects w' →
  ∃ Objects1 Objects2 w1,
    Objects = Objects1 ++ Objects2 ∧
    ResolvedInOrder host fuel Bindings1 w Objects1 w1 ∧
    ResolvedInOrder host fuel Bindings2 w1 Objects2 w'.
Proof.
  revert w Objects. induction Bindings1 as [|[k r] bs IH]; intros w os H; simpl in H.
  - exists [], os, w. split_and!; [done|constructor|done].
  - inversion H as [|? ? ? ? o w1 os' ? Hr Hrest]; subst.
    apply IH in Hrest as (os1 & os2 & w2 & -> & H1 & H2).
    exists (o :: os1), os2, w2. split_and!; [done| |done]. by econstructor.
Qed.

Lemma write_buffer_of Written Free Object w :
  write (buffer_of Written (S Free)) Object w =
  (Ok (buffer_of (Written ++ [Object]) Free), w).
Proof.
  unfold write, buffer_of. simpl. rewrite decide_True.
  2:{ rewrite length_app, length_fmap. simpl. lia. }
  unfold ret. do 2 f_equal. f_equal.
  - rewrite insert_app_r_alt by (rewrite length_fmap; lia).
    rewrite length_fmap, Nat.sub_diag. simpl.
    rewrite fmap_app. simpl. by rewrite <- app_assoc.
  - rewrite length_app. simpl. lia.
Qed.

Lemma write_buffer_full Written Object w :
  write (buffer_of Written 0) Object w = (Failed BufferOverrun, w).
Proof.
  unfold write, buffer_of. simpl. rewrite decide_False; [done|].
  rewrite length_app, length_fmap. simpl. lia.
Qed.

Lemma AppendResolvers_spec fuel scope Resolvers Written Free w b' w' :
  AppendResolvers host (Resolve host fuel) scope Resolvers
    (buffer_of Written Free) w = (Ok b', w') →
  ∃ Objects,
    ResolvedInOrder host fuel (pair scope <$> Resolvers) w Objects w' ∧
    length Resolvers ≤ Free ∧
    b' = buffer_of (Written ++ Objects) (Free - length Resolvers).
Proof.
  revert Written Free w.
  induction Resolvers as [|r rs IH]; intros ws n w H; simpl in H.
  - unfold ret in H. inversion H; subst. exists []. simpl.
    rewrite app_nil_r, Nat.sub_0_r. split_and!; [constructor|lia|done].
  - inv_bind H. rename a into o. inv_bind H.
    destruct n as [|n]; [by rewrite write_buffer_full in Hstep0|].
    rewrite write_buffer_of in Hstep0. inversion Hstep0; subst a w1.
    apply IH in H as (os & Hres & Hlen & ->).
    exists (o :: os). split_and!.
    + simpl. econstructor; [exact Hstep|done].
    + simpl. lia.
    + by rewrite <- app_assoc.
Qed.

Lemma AppendObjectsCollection_spec fuel this Type_ Written Free w b' w' :
  AppendObjectsCollection host fuel this Type_ (buffer_of Written Free) w
    = (Ok b', w') →
  ∃ Objects,
    ResolvedInOrder host fuel (ChainBindings this Type_ w) w Objects w' ∧
    length Objects ≤ Free ∧
    b' = buffer_of (Written ++ Objects) (Free - length Objects).
Proof.
  revert Written Free w b' w'.
  induction this as [|p IH]; intros ws n w b' w' H;
    unfold AppendObjectsCollection in H; simpl in H.
  - rewrite (bind_Ok _ _ _ _ _ (eq_refl : ret _ w = (Ok _, w))) in H.
    inv_bind H. rename a into s.
    pose proof (read_only_Ok _ _ _ _ (read_only_get_storage _) Hstep) as ->.
    unfold get_storage in Hstep. destruct (Scopes w !! 0) as [s0|] eqn:Hs; [|done].
    inversion Hstep; subst s0. clear Hstep. simpl. rewrite Hs.
    destruct (Registrations s !! Type_) as [rs|] eqn:Hr; simpl.
    + apply AppendResolvers_spec in H as (os & Hres & Hlen & ->).
      pose proof (ResolvedInOrder_length _ _ _ _ _ Hres) as Hl.
      rewrite length_fmap in Hl.
      exists os. rewrite Hl. split_and!; [done|lia|done].
    + unfold ret in H. inversion H; subst. exists []. simpl.
      rewrite app_nil_r, Nat.sub_0_r. split_and!; [constructor|lia|done].
  - inv_bind H. fold (AppendObjectsCollection host fuel p) in Hstep.
    apply IH in Hstep as (os1 & Hres1 & Hlen1 & ->).
    pose proof (ResolvedInOrder_extends _ _ _ _ _ Hres1) as Hext.
    inv_bind H. rename a into s.
    pose proof (read_only_Ok _ _ _ _ (read_only_get_storage _) Hstep) as ->.
    unfold get_storage in Hstep.
    destruct (Scopes w0 !! S p) as [s0|] eqn:Hs; [|done].
    inversion Hstep; subst s0. clear Hstep.
    rewrite (ext_scopes _ _ Hext (S p)) in Hs by done. simpl. rewrite Hs.
    destruct (Registrations s !! Type_) as [rs|] eqn:Hr; simpl.
    + apply AppendResolvers_spec in H as (os2 & Hres2 & Hlen2 & ->).
      pose proof (ResolvedInOrder_length _ _ _ _ _ Hres2) as Hl.
      rewrite length_fmap in Hl.
      exists (os1 ++ os2). split_and!.
      * by eapply ResolvedInOrder_app.
      * rewrite length_app. lia.
      * rewrite <- app_assoc, length_app. f_equal. lia.
    + unfold ret in H. inversion H; subst. exists os1.
      rewrite app_nil_r. split_and!; [done..].
Qed.

Lemma AppendResolvers_complete fuel scope Resolvers Written Free w Objects w' :
  ResolvedInOrder host fuel (pair scope <$> Resolvers) w Objects w' →
  length Resolvers ≤ Free →
  AppendResolvers host (Resolve host fuel) scope Resolvers (buffer_of Written Free) w
  = (Ok (buffer_of (Written ++ Objects) (Free - length Resolvers)), w').
Proof.
  revert Written Free w Objects.
  induction Resolvers as [|r rs IH]; intros ws n w os H Hn; simpl in *.
  - inversion H; subst. by rewrite app_nil_r, Nat.sub_0_r.
  - inversion H as [|? ? ? ? o w1 os' ? Hr Hrest]; subst.
    fold (ResolveImpl host fuel). rewrite (bind_Ok _ _ _ _ _ Hr).
    destruct n as [|n]; [lia|].
    rewrite (bind_Ok _ _ _ _ _ (write_buffer_of _ _ _ _)).
    rewrite (IH _ _ _ _ Hrest) by lia. by rewrite <- app_assoc.
Qed.

Lemma AppendObjectsCollection_complete fuel this Type_ Written Free w Objects w' :
  this < length (Scopes w) →
  ResolvedInOrder host fuel (ChainBindings this Type_ w) w Objects w' →
  length Objects ≤ Free →
  AppendObjectsCollection host fuel this Type_ (buffer_of Written Free) w
  = (Ok (buffer_of (Written ++ Objects) (Free - length Objects)), w').
Proof.
  revert Written Free w Objects w'.
  induction this as [|p IH]; intros ws n w os w' Hlt H Hn;
    destruct (lookup_lt_is_Some_2 _ _ Hlt) as [s Hs];
    unfold AppendObjectsCollection; simpl in *; rewrite Hs in H.
  - rewrite (bind_Ok _ _ _ _ _ (eq_refl : ret _ w = (Ok _, w))).
    rewrite (bind_Ok _ _ _ _ _ (get_storage_Some _ _ _ Hs)).
    pose proof (ResolvedInOrder_length _ _ _ _ _ H) as Hl.
    rewrite length_fmap in Hl.
    destruct (Registrations s !! Type_) as [rs|]; simpl in *.
    + rewrite Hl. apply AppendResolvers_complete; [done|lia].
    + inversion H; subst. by rewrite app_nil_r, Nat.sub_0_r.
  - apply ResolvedInOrder_app_inv in H as (os1 & os2 & w1 & -> & H1 & H2).
    rewrite length_app in Hn.
    fold (AppendObjectsCollection host fuel p).
    assert (p < length (Scopes w)) as Hp by lia.
    assert (length os1 ≤ n) as Hn1 by lia.
    rewrite (bind_Ok _ _ _ _ _ (IH ws n w os1 w1 Hp H1 Hn1)).
    pose proof (ResolvedInOrder_extends _ _ _ _ _ H1) as Hext.
    rewrite <- (ext_scopes _ _ Hext (S p)) in Hs by done.
    rewrite (bind_Ok _ _ _ _ _ (get_storage_Some _ _ _ Hs)).
    pose proof (ResolvedInOrder_length _ _ _ _ _ H2) as Hl.
    rewrite length_fmap in Hl.
    destruct (Registrations s !! Type_) as [rs|]; simpl in *.
    + rewrite (AppendResolvers_complete _ _ _ _ _ _ _ _ H2) by lia.
      rewrite <- app_assoc, length_app. do 3 f_equal. lia.
    + inversion H2; subst. by rewrite !app_nil_r.
Qed.

Lemma ResolveAll_spec fuel this Type_ w Cells w' :
  ResolveAll host fuel this (Some Type_) w = (Ok Cells, w') ↔
  this < length (Scopes w) ∧
  ChainBindings this Type_ w ≠ [] ∧
  ∃ Objects,
    Cells = Some <$> Objects ∧
    ResolvedInOrder host fuel (ChainBindings this Type_ w) w Objects w'.
Proof.
  split.
  - intros H. unfold ResolveAll, ResolveAll_ in H. inv_bind H. rename a into Total.
    pose proof (read_only_Ok _ _ _ _ (read_only_TotalResolvers _ _) Hstep) as ->.
    case_decide as Hpos; [|done].
    inv_bind H. unfold ret in H. inversion H; subst Cells w0. clear H.
    fold (AppendObjectsCollection host fuel) in Hstep0.
    change (mkBuffer (replicate Total None) 0) with (buffer_of [] Total) in Hstep0.
    apply AppendObjectsCollection_spec in Hstep0 as (os & Hres & Hlen & ->).
    pose proof (ResolvedInOrder_length _ _ _ _ _ Hres) as Hl.
    assert (this < length (Scopes w)) as Hlt.
    { destruct this; simpl in Hstep; unfold bind at 1, get_storage in Hstep;
        (destruct (Scopes w !! _) eqn:Hs; [by eapply lookup_lt_Some|done]). }
    rewrite TotalResolvers_ChainBindings in Hstep by done.
    inversion Hstep as [HTotal].
    split; [done|]. split.
    { intros Hnil. rewrite Hnil in HTotal. simpl in HTotal. lia. }
    exists os. simpl. rewrite Hl, HTotal, Nat.sub_diag. simpl.
    by rewrite app_nil_r.
  - intros (Hlt & Hne & os & -> & Hres).
    pose proof (ResolvedInOrder_length _ _ _ _ _ Hres) as Hl.
    unfold ResolveAll, ResolveAll_.
    rewrite (bind_Ok _ _ _ _ _ (TotalResolvers_ChainBindings _ _ _ Hlt)).
    rewrite decide_True by (destruct (ChainBindings this Type_ w); [done|simpl; lia]).
    fold (AppendObjectsCollection host fuel).
    change (mkBuffer (replicate (length (ChainBindings this Type_ w)) None) 0)
      with (buffer_of [] (length (ChainBindings this Type_ w))).
    assert (length os ≤ length (ChainBindings this Type_ w)) as Hle by lia.
    rewrite (bind_Ok _ _ _ _ _
               (AppendObjectsCollection_complete _ _ _ [] _ _ _ _ Hlt Hres Hle)).
    unfold ret. simpl. by rewrite Hl, Nat.sub_diag, app_nil_r.
Qed.

(** C3: [ResolveAll] returns exactly when the scope is in the world, the
    type has a binding somewhere in its chain and each binding of the chain
    can be resolved, one after the other; every cell of the collection it
    returns was written, and the objects are the results of resolving each
    binding for the type over the whole chain: the bindings of the outermost
    ancestor first, those of the scope itself last, in registration order
    within a scope, each resolved once on the scope that holds it.  The
    length is the total counted beforehand. *)
Theorem C3_ResolveAll_collects_chain_in_order fuel this Type_ w Cells w' :
  (ResolveAll host fuel this (Some Type_) w = (Ok Cells, w') ↔
   this < length (Scopes w) ∧
   ChainBindings this Type_ w ≠ [] ∧
   ∃ Objects,
     Cells = Some <$> Objects ∧
     ResolvedInOrder host fuel (ChainBindings this Type_ w) w Objects w') ∧
  (ResolveAll host fuel this (Some Type_) w = (Ok Cells, w') →
   TotalResolvers this Type_ w = (Ok (length Cells), w) ∧
   length Cells = length (ChainBindings this Type_ w) ∧
   0 < length Cells).
Proof.
  split; [apply ResolveAll_spec|].
  intros H. apply ResolveAll_spec in H as (Hlt & Hne & Objects & -> & Hres).
  pose proof (ResolvedInOrder_length _ _ _ _ _ Hres) as Hlen.
  rewrite length_fmap, Hlen. split_and!; [|done|].
  - by apply TotalResolvers_ChainBindings.
  - destruct (ChainBindings this Type_ w); [done|simpl; lia].
Qed.

(** C6: for a type with no binding at all over the chain of the scope,
    [ResolveAll] fails with the usage error that names the type and leaves
    the world as it was: nothing is auto-registered, also when the type is
    not an interface, in which case single resolve on the same world does
    register it. *)
Theorem C6_ResolveAll_fails_on_unregistered_type fuel this Type_ w :
  this < length (Scopes w) →
  ChainBindings this Type_ w = [] →
  ResolveAll host fuel this (Some Type_) w = (Failed (TypeNotRegistered Type_), w) ∧
  (IsRegistered this Type_ w = false →
     IsRegistered this Type_ (ResolveAll host fuel this (Some Type_) w).2 = false ∧
     (IsChildOf_UInterface host Type_ = false →
        IsRegistered this Type_ (Resolve host (S fuel) this Type_ w).2 = true)).
Proof.
  intros Hlt Hnil.
  assert (ResolveAll host fuel this (Some Type_) w
          = (Failed (TypeNotRegistered Type_), w)) as Hfail.
  { unfold ResolveAll, ResolveAll_.
    rewrite (bind_Ok _ _ _ _ _ (TotalResolvers_ChainBindings _ _ _ Hlt)).
    by rewrite Hnil. }
  split; [done|]. intros Hreg. rewrite Hfail. split; [done|]. intros Hni.
  destruct (GetResolver_unregistered host _ _ _ Hlt Hreg)
    as (Root & HRoot & HNone & Hget).
  rewrite Hni in Hget.
  assert (extends (auto_registered Type_ Root w)
            (Resolve host (S fuel) this Type_ w).2) as Hext.
  { rewrite (Resolve_selected host fuel _ _ _ _ _ Hget).
    etrans; [|apply extends_ResolveImpl]. apply extends_emit. }
  destruct (auto_registered_stable host _ _ _ _ _ Hlt Hreg HRoot Hext)
    as ((Root2 & HRoot2 & _ & HT) & _).
  eapply IsRegistered_at_root; [|done|by rewrite HT].
  rewrite (ext_length _ _ Hext). simpl. by rewrite length_insert.
Qed.

End CollectAll.

(** ** The scope of dependencies *)

Lemma GetResolver_trace host this Type_ w :
  Trace (GetResolver host this Type_ w).2 = Trace w.
Proof.
  induction this as [|p IH]; rewrite GetResolver_eq; unfold bind at 1;
    unfold get_storage; destruct (Scopes w !! _) as [s|] eqn:Hs; simpl; try done;
    (destruct (Registrations s !! Type_) as [rs|] eqn:Hr;
      [destruct (last rs); simpl; done|]); [|done].
  by destruct (IsChildOf_UInterface host Type_).
Qed.

Lemma effect_on_event_on this e : effect_on this e → event_on this e.
Proof. by destruct e. Qed.

Section DependenciesScope.

Context (host : HostModel) (this : nat) (Dependency : UClass) (Latest : FResolver).

Lemma overridden_extends w w' :
  extends w w' →
  overridden this Dependency Latest w → overridden this Dependency Latest w'.
Proof.
  intros Hext (s & rs & Hs & Hr). destruct (decide (this = 0)) as [Heq|Hne].
  - rewrite Heq in Hs. destruct (ext_root _ _ Hext _ Hs) as (s' & Hs' & Hsub & _).
    exists s', rs. rewrite Heq. split; [done|]. by eapply lookup_weaken.
  - exists s, rs. split; [|done]. by rewrite (ext_scopes _ _ Hext).
Qed.

#[local] Instance resolves_here_preorder :
  PreOrder (resolves_here this Dependency Latest).
Proof.
  split.
  - intros w. split; [done|]. exists []. by rewrite app_nil_r.
  - intros w1 w2 w3 [Hext1 (n1 & Ht1 & Hn1 & Hs1)] [Hext2 (n2 & Ht2 & Hn2 & Hs2)].
    split; [by etrans|]. exists (n1 ++ n2). split_and!.
    + by rewrite Ht2, Ht1, <- app_assoc.
    + by apply Forall_app.
    + intros Hov. apply Forall_app. split; [auto|].
      apply Hs2. by eapply overridden_extends.
Qed.

Lemma resolves_here_quiet {A} (m : M A) :
  preserves extends m → (∀ w, Trace (m w).2 = Trace w) →
  preserves (resolves_here this Dependency Latest) m.
Proof.
  intros Hext Htr w. split; [done|]. exists []. by rewrite app_nil_r.
Qed.

Lemma resolves_here_emit e :
  effect_on this e → preserves (resolves_here this Dependency Latest) (emit e).
Proof.
  intros He w. split; [apply extends_emit|]. exists [e]. split_and!; [done| |].
  - constructor; [by apply effect_on_event_on|done].
  - intros _. constructor; [by destruct e|done].
Qed.

Lemma resolves_here_set_handler h Object :
  preserves (resolves_here this Dependency Latest) (set_handler h Object).
Proof.
  intros w. split; [apply extends_set_handler|]. exists [EvSet h Object].
  split_and!; [done|by repeat constructor..].
Qed.

Lemma resolves_here_SelectResolver Type_ :
  preserves (resolves_here this Dependency Latest) (SelectResolver host this Type_).
Proof.
  intros w. split; [apply extends_SelectResolver|].
  unfold SelectResolver, bind.
  pose proof (GetResolver_trace host this Type_ w) as Htr.
  destruct (GetResolver host this Type_ w) as [[r| |] w1] eqn:Hget; simpl in *;
    [|exists []; by rewrite app_nil_r, Htr..].
  exists [EvResolve this Type_ r]. rewrite Htr. split_and!; [done| |].
  - by repeat constructor.
  - intros (s & rs & Hs & Hr). constructor; [|done]. intros ->.
    rewrite (GetResolver_local host _ _ _ _ _ _ Hs Hr (last_snoc _ _)) in Hget.
    congruence.
Qed.

Lemma resolves_here_Resolve fuel Type_ :
  preserves (resolves_here this Dependency Latest) (Resolve host fuel this Type_).
Proof.
  apply Resolve_preserves; try apply _; intros.
  - apply resolves_here_SelectResolver.
  - by apply resolves_here_emit.
  - apply resolves_here_set_handler.
  - apply resolves_here_quiet; [apply extends_new_object|done].
Qed.

End DependenciesScope.

(** C9: the dependencies of an instance are resolved on the scope that
    resolves the instance.  When a type is resolved through a scope, the
    binding is looked up along the chain, but wherever it was found the
    instance is resolved on the scope itself; if the handler of the binding
    holds no instance, the instance is created and injected there: each type
    that its initializers ask for is resolved by [Resolve] on that very
    scope, in order, and the initializers receive the objects that these
    calls returned.  [Inject] on a scope returns exactly when these calls
    return (and the arguments have the declared size).  At any depth of the
    dependencies every entry into [Resolve] is on that scope, so for a
    dependency the scope has local bindings for, every resolution of it
    selects the last local binding of the scope, its override.  The call of
    [Resolve] for the parameters of a blueprint initializer is in the
    sources; the resolver that a native initializer is given is the owner of
    the storage, which resolves on the scope (see [FInitFunctionPtr]). *)
Theorem C9_dependencies_resolved_on_resolving_scope host fuel this Type_ w :
  (∀ Resolver w1,
     GetResolver host this Type_ w = (Ok Resolver, w1) →
     Resolve host (S fuel) this Type_ w =
       ResolveImpl host fuel this Resolver (emit (EvResolve this Type_ Resolver) w1).2) ∧
  (∀ Resolver w1 Handler Result w',
     GetResolver host this Type_ w = (Ok Resolver, w1) →
     Handlers w1 !! LifetimeHandler Resolver = Some Handler →
     LifetimeHandler_Get Handler = None →
     Resolve host (S fuel) this Type_ w = (Ok Result, w') →
     ∃ Factory Outer Class wc wn wi,
       Trace wc = Trace w ++ [EvResolve this Type_ Resolver;
                              EvCreate Factory Outer Class Result] ∧
       NativeInjected host fuel this Result wc wn ∧
       BlueprintInjected host fuel this Result wn wi ∧
       Trace w' = Trace wi ++ [EvFinalizeCreation Factory Result;
                               EvSet (LifetimeHandler Resolver) Result]) ∧
  (∀ Object w0 Injected w',
     Inject host fuel this Object w0 = (Ok Injected, w') ↔
     Injected = DeclaresInitializer host (GetClass Object) ∧
     ∃ wn,
       NativeInjected host fuel this Object w0 wn ∧
       BlueprintInjected host fuel this Object wn w') ∧
  ∃ new,
    Trace (Resolve host fuel this Type_ w).2 = Trace w ++ new ∧
    Forall (event_on this) new ∧
    ∀ Storage Dependency Earlier Latest,
      Scopes w !! this = Some Storage →
      Registrations Storage !! Dependency = Some (Earlier ++ [Latest]) →
      Forall (selects Dependency Latest) new.
Proof.
  split_and!.
  - intros r w1 Hget. by apply Resolve_selected.
  - intros r w1 Handler Result w' Hget Hh HGet H.
    rewrite (Resolve_selected _ _ _ _ _ _ _ Hget) in H.
    destruct (ResolveImpl_created host fuel this r
                (emit (EvResolve this Type_ r) w1).2 Handler Result w' Hh HGet H)
      as (C & Factory & Storage & Injected & wi & _ & _ & _ & _ & _ & HInject & ->).
    apply Inject_spec in HInject as (_ & wn & Hnative & Hblueprint).
    exists Factory, (OuterForNewObject Storage), C. eexists. exists wn, wi.
    split_and!; [|exact Hnative|exact Hblueprint|simpl; by rewrite <- app_assoc].
    simpl. pose proof (GetResolver_trace host this Type_ w) as Htr.
    rewrite Hget in Htr. simpl in Htr. by rewrite Htr, <- app_assoc.
  - intros Object w0 Injected w'. apply Inject_spec.
  - destruct (resolves_here_Resolve host this 0 (mkResolver None 0) fuel Type_ w)
      as [_ (new & Htr & Hon & _)].
    exists new. split_and!; [done..|].
    intros s D rs r Hs Hr.
    destruct (resolves_here_Resolve host this D r fuel Type_ w)
      as [_ (new' & Htr' & _ & Hsel)].
    rewrite Htr in Htr'. apply app_inv_head in Htr' as <-.
    apply Hsel. by exists s, rs.
Qed.

(** ** The instance factory chain *)

Section FactoryChain.

Context (host : HostModel).

Lemma FindInstanceFactory_spec this Type_ w Storage :
  Scopes w !! this = Some Storage →
  FindInstanceFactory host this Type_ w =
  match List.find (λ Factory, IsClassSupported host Factory Type_)
                  (InstanceFactories Storage) with
  | Some Factory => (Ok Factory, w)
  | None =>
      match this with
      | S ParentStorage => FindInstanceFactory host ParentStorage Type_ w
      | 0 => (Failed NullParentStorage, w)
      end
  end.
Proof.
  intros Hs. rewrite (FindInstanceFactory_eq host this Type_).
  rewrite (bind_Ok _ _ _ _ _ (get_storage_Some _ _ _ Hs)).
  destruct (List.find _ _); [done|]. by destruct this.
Qed.

Lemma set_factories_spec this f w Storage :
  Scopes w !! this = Some Storage →
  set_factories this f w =
  (Ok tt, with_factories this Storage (f (InstanceFactories Storage)) w).
Proof.
  intros Hs. unfold set_factories.
  by rewrite (bind_Ok _ _ _ _ _ (get_storage_Some _ _ _ Hs)).
Qed.

Lemma with_factories_lookup this Storage Factories w :
  this < length (Scopes w) →
  Scopes (with_factories this Storage Factories w) !! this =
  Some (mkStorage (Registrations Storage) Factories (OuterForNewObject Storage)).
Proof. intros Hlt. simpl. by apply list_lookup_insert_eq. Qed.

Lemma with_factories_twice this Storage Storage' Factories Factories' w :
  Registrations Storage' = Registrations Storage →
  OuterForNewObject Storage' = OuterForNewObject Storage →
  with_factories this Storage' Factories' (with_factories this Storage Factories w)
  = with_factories this Storage Factories' w.
Proof.
  intros Hr Ho. unfold with_factories. simpl.
  by rewrite list_insert_insert_eq, Hr, Ho.
Qed.

Lemma CopyCollection_spec this Objects w Storage :
  Scopes w !! this = Some Storage →
  CopyCollection this (Some <$> Objects) w =
  (Ok tt, if decide (Objects = []) then w
          else with_factories this Storage (InstanceFactories Storage ++ Objects) w).
Proof.
  revert w Storage. induction Objects as [|o os IH]; intros w s Hs; [done|].
  simpl. rewrite (bind_Ok _ _ _ _ _ (set_factories_spec _ _ _ _ Hs)).
  pose proof (lookup_lt_Some _ _ _ Hs) as Hlt.
  rewrite (IH _ _ (with_factories_lookup _ _ _ _ Hlt)). simpl. f_equal.
  destruct (decide (os = [])) as [->|Hos]; [done|].
  rewrite with_factories_twice by done. by rewrite <- app_assoc.
Qed.

Lemma ChainBindings_ext this Type_ w w' :
  (∀ k, Registrations <$> Scopes w' !! k = Registrations <$> Scopes w !! k) →
  ChainBindings this Type_ w' = ChainBindings this Type_ w.
Proof.
  intros Heq. induction this as [|p IH]; simpl.
  - specialize (Heq 0).
    destruct (Scopes w' !! 0), (Scopes w !! 0); simpl in *; congruence.
  - rewrite IH. f_equal. specialize (Heq (S p)).
    destruct (Scopes w' !! S p), (Scopes w !! S p); simpl in *; congruence.
Qed.

Lemma ChainBindings_with_factories this scope Type_ w Storage Factories :
  Scopes w !! scope = Some Storage →
  ChainBindings this Type_ (with_factories scope Storage Factories w)
  = ChainBindings this Type_ w.
Proof.
  intros Hs. apply ChainBindings_ext. intros k. simpl.
  destruct (decide (k = scope)) as [->|Hne].
  - rewrite list_lookup_insert_eq by (by eapply lookup_lt_Some). by rewrite Hs.
  - by rewrite list_lookup_insert_ne.
Qed.

Lemma extends_lookup w w' k Storage :
  extends w w' → Scopes w !! k = Some Storage →
  ∃ Storage', Scopes w' !! k = Some Storage' ∧
    InstanceFactories Storage' = InstanceFactories Storage ∧
    OuterForNewObject Storage' = OuterForNewObject Storage.
Proof.
  intros Hext Hs. destruct (decide (k = 0)) as [->|Hne].
  - destruct (ext_root _ _ Hext _ Hs) as (s' & Hs' & _ & Hf & Ho). by exists s'.
  - exists Storage. by rewrite (ext_scopes _ _ Hext).
Qed.

Lemma InitServices_spec fuel this w Storage w' :
  Scopes w !! this = Some Storage →
  InstanceFactories Storage = [] →
  InitServices host fuel this w = (Ok tt, w') →
  ∃ Storage' Ancestors Local,
    Scopes w' !! this = Some Storage' ∧
    InstanceFactories Storage' =
      reverse Local ++ reverse Ancestors ++ DefaultFactories host this ∧
    match Registrations Storage !! UInstanceFactory_StaticClass host with
    | None => Ancestors = [] ∧ Local = []
    | Some Resolvers =>
        ∃ w1 w2,
          ResolvedInOrder host fuel
            (AncestorBindings this (UInstanceFactory_StaticClass host) w)
            (AddDefaultFactory host this w).2 Ancestors w1 ∧
          ResolvedInOrder host fuel (pair this <$> Resolvers) w1 Local w2
    end.
Proof.
  intros Hs Hnil H. destruct Storage as [Reg Fac Out]. simpl in Hnil. subst Fac.
  simpl. unfold InitServices in H. fold (AddDefaultFactory host this) in H.
  inv_bind H. destruct a.
  pose proof (lookup_lt_Some _ _ _ Hs) as Hlt.
  set (UIF := UInstanceFactory_StaticClass host) in *.
  assert (Scopes w0 !! this = Some (mkStorage Reg (DefaultFactories host this) Out) ∧
          ChainBindings this UIF w0 = ChainBindings this UIF w ∧
          length (Scopes w0) = length (Scopes w)) as (Hs0 & Hcb0 & Hlen0).
  { destruct this as [|p]; simpl in Hstep.
    - rewrite (set_factories_spec _ _ _ _ Hs) in Hstep. inversion Hstep; subst w0.
      split_and!.
      + by rewrite with_factories_lookup.
      + by apply ChainBindings_with_factories.
      + simpl. by rewrite length_insert.
    - unfold ret in Hstep. by inversion Hstep; subst w0. }
  assert (DefaultFactories host this = reverse (DefaultFactories host this)) as HrevD.
  { by destruct this. }
  rewrite Hstep. simpl.
  rewrite (bind_Ok _ _ _ _ _ (get_storage_Some _ _ _ Hs0)) in H. simpl in H.
  inv_bind H. destruct a. rename w1 into w3.
  assert (∃ Ancestors Local Storage3,
    Scopes w3 !! this = Some Storage3 ∧
    InstanceFactories Storage3 = DefaultFactories host this ++ Ancestors ++ Local ∧
    match Reg !! UIF with
    | None => Ancestors = [] ∧ Local = []
    | Some Resolvers =>
        ∃ w1 w2,
          ResolvedInOrder host fuel (AncestorBindings this UIF w) w0 Ancestors w1 ∧
          ResolvedInOrder host fuel (pair this <$> Resolvers) w1 Local w2
    end) as (Ancestors & Local & s3 & Hs3 & Hf3 & Hres).
  { destruct (Reg !! UIF) as [rs|] eqn:HUIF.
    - rewrite bool_decide_eq_true_2 in Hstep0 by done.
      inv_bind Hstep0. rename a into Cells. rename w1 into w1.
      apply ResolveAll_spec in Hstep1 as (_ & _ & Objects & -> & Hres).
      rewrite Hcb0 in Hres.
      assert (ChainBindings this UIF w
              = AncestorBindings this UIF w ++ (pair this <$> rs)) as Hsplit.
      { destruct this; simpl; by rewrite Hs; simpl; rewrite HUIF. }
      rewrite Hsplit in Hres.
      pose proof (ResolvedInOrder_extends _ _ _ _ _ _ Hres) as Hext.
      destruct (extends_lookup _ _ _ _ Hext Hs0) as (s1 & Hs1 & Hf1 & Ho1).
      simpl in Hf1, Ho1.
      apply ResolvedInOrder_app_inv in Hres as (Anc & Loc & w2 & -> & HA & HL).
      rewrite (CopyCollection_spec _ _ _ _ Hs1) in Hstep0.
      exists Anc, Loc.
      destruct (decide (Anc ++ Loc = [])) as [Hnil|Hne].
      + inversion Hstep0; subst w3. exists s1. split_and!; [done| |by eauto].
        by rewrite Hf1, Hnil, app_nil_r.
      + inversion Hstep0; subst w3. eexists. split_and!; [| |by eauto].
        * apply with_factories_lookup. by eapply lookup_lt_Some.
        * simpl. by rewrite Hf1.
    - rewrite bool_decide_eq_false_2 in Hstep0 by (by apply is_Some_None).
      unfold ret in Hstep0. inversion Hstep0; subst w3.
      exists [], []. eexists. split_and!; [exact Hs0| |done..].
      simpl. by rewrite app_nil_r. }
  rewrite (set_factories_spec _ _ _ _ Hs3) in H. inversion H; subst w'.
  eexists. exists Ancestors, Local. split_and!.
  - apply with_factories_lookup. by eapply lookup_lt_Some.
  - simpl. rewrite Hf3, !reverse_app, <- HrevD. by rewrite <- app_assoc.
  - done.
Qed.

End FactoryChain.

(** * The properties on a concrete container tree *)

(** ** The testable properties of the specification on the tree *)

Example demo_factories :
  InstanceFactories <$> Scopes demo_world =
  [[mkObject 50 UWeaponFactory; mkObject 0 UDefaultInstanceFactory];
   [mkObject 52 UAxeFactory; mkObject 51 UWeaponFactory]].
Proof. vm_compute. reflexivity. Qed.

Example demo_shadowing_and_most_recent_wins :
  (Resolve demo_host 2 1 IWeapon demo_world).1 = Ok (mkObject 53 UBow) ∧
  (Resolve demo_host 2 0 IWeapon demo_world).1 = Ok (mkObject 53 USword).
Proof. split; vm_compute; reflexivity. Qed.

Example demo_collect_all_ordering :
  (ResolveAll demo_host 2 1 (Some IWeapon) demo_world).1 =
  Ok [Some (mkObject 53 USword); Some (mkObject 54 UAxe); Some (mkObject 55 UBow)].
Proof. vm_compute. reflexivity. Qed.

Example demo_transient_vs_cached :
  (ResolveImpl demo_host 2 1 axe_binding demo_collected).1 = Ok (mkObject 54 UAxe) ∧
  (ResolveImpl demo_host 2 1 bow_binding demo_collected).1 = Ok (mkObject 56 UBow).
Proof. split; vm_compute; reflexivity. Qed.

Example demo_fatal_on_unregistered_contract :
  Resolve demo_host 2 1 IUnbound demo_world
  = (Failed (CannotAutoRegister IUnbound), demo_world).
Proof. vm_compute. reflexivity. Qed.

Example demo_injection :
  Trace (Resolve demo_host 3 1 UPlayer demo_world).2 =
  Trace demo_world ++
  [EvResolve 1 UPlayer player_binding;
   EvCreate (mkObject 0 UDefaultInstanceFactory) demo_outer UPlayer (mkObject 53 UPlayer);
   EvResolve 1 IWeapon bow_binding;
   EvCreate (mkObject 0 UDefaultInstanceFactory) demo_outer UBow (mkObject 54 UBow);
   EvFinalizeCreation (mkObject 0 UDefaultInstanceFactory) (mkObject 54 UBow);
   EvSet 2 (mkObject 54 UBow);
   EvProcessEvent (mkObject 53 UPlayer) [ArgInterface (mkObject 54 UBow) IWeapon];
   EvFinalizeCreation (mkObject 0 UDefaultInstanceFactory) (mkObject 53 UPlayer);
   EvSet 3 (mkObject 53 UPlayer)].
Proof. vm_compute. reflexivity. Qed.

Example demo_cyclic_dependency_exhausts_any_fuel :
  let host :=
    mkHost (λ _, false) (λ _, (Some [UPlayer], None)) (λ _ _, true)
           (λ _ _ Class, Some Class) UInstanceFactory
           (mkObject 0 UDefaultInstanceFactory) in
  (Resolve host 20 0 UPlayer demo_world).1 = OutOfFuel.
Proof. vm_compute. reflexivity. Qed.

(** ** The theorems at work on the tree *)

Lemma C1_witness :
  GetResolver demo_host 1 IWeapon demo_world = (Ok bow_binding, demo_world) ∧
  Resolve demo_host 3 1 IWeapon demo_world =
    ResolveImpl demo_host 2 1 bow_binding
      (emit (EvResolve 1 IWeapon bow_binding) demo_world).2.
Proof.
  apply (C1_Resolve_uses_last_local_binding demo_host 2 1 IWeapon demo_world
           demo_child_ready [axe_binding] bow_binding);
    vm_compute; reflexivity.
Defined.

Lemma C2_witness :
  ∃ Resolver,
    Resolver ∈ [axe_binding; bow_binding] ∧
    GetResolver demo_host 1 IWeapon demo_world = (Ok Resolver, demo_world) ∧
    GetResolver demo_host 1 IWeapon demo_orphan = (Ok Resolver, demo_orphan) ∧
    Resolve demo_host 3 1 IWeapon demo_world =
      ResolveImpl demo_host 2 1 Resolver
        (emit (EvResolve 1 IWeapon Resolver) demo_world).2 ∧
    Resolve demo_host 3 1 IWeapon demo_orphan =
      ResolveImpl demo_host 2 1 Resolver
        (emit (EvResolve 1 IWeapon Resolver) demo_orphan).2.
Proof.
  apply (C2_local_binding_shadows_ancestors demo_host 2 0 IWeapon demo_world
           demo_orphan demo_child_ready [axe_binding; bow_binding]);
    [vm_compute; reflexivity..|discriminate].
Defined.

Lemma C3_witness :
  (∃ Objects,
     [Some (mkObject 53 USword); Some (mkObject 54 UAxe); Some (mkObject 55 UBow)]
       = Some <$> Objects ∧
     ResolvedInOrder demo_host 2 (ChainBindings 1 IWeapon demo_world)
       demo_world Objects demo_collected) ∧
  TotalResolvers 1 IWeapon demo_world = (Ok 3, demo_world) ∧
  3 = length (ChainBindings 1 IWeapon demo_world).
Proof.
  destruct (C3_ResolveAll_collects_chain_in_order demo_host 2 1 IWeapon demo_world
              [Some (mkObject 53 USword); Some (mkObject 54 UAxe);
               Some (mkObject 55 UBow)] demo_collected) as [Hiff Hcount].
  assert (ResolveAll demo_host 2 1 (Some IWeapon) demo_world
          = (Ok [Some (mkObject 53 USword); Some (mkObject 54 UAxe);
                 Some (mkObject 55 UBow)], demo_collected)) as Hrun
    by (vm_compute; reflexivity).
  split; [exact (proj2 (proj2 (proj1 Hiff Hrun)))|].
  destruct (Hcount Hrun) as (Htotal & Hlen & _). split; [exact Htotal|exact Hlen].
Defined.

Lemma C4_witness :
  ResolveImpl demo_host 2 1 axe_binding demo_collected
    = (Ok (mkObject 54 UAxe), demo_collected) ∧
  ∃ Injection,
    Trace (ResolveImpl demo_host 2 1 bow_binding demo_world).2 =
      Trace demo_world
      ++ [EvCreate (mkObject 0 UDefaultInstanceFactory) demo_outer UBow (mkObject 53 UBow)]
      ++ Injection
      ++ [EvFinalizeCreation (mkObject 0 UDefaultInstanceFactory) (mkObject 53 UBow);
          EvSet 2 (mkObject 53 UBow)].
Proof.
  split.
  - apply (C4_ResolveImpl_lazy_then_create_inject_finalize_set demo_host 2 1
             axe_binding demo_collected
             (FLifetimeHandler_Cached (Some (mkObject 54 UAxe))));
      vm_compute; reflexivity.
  - destruct (C4_ResolveImpl_lazy_then_create_inject_finalize_set demo_host 2 1
                bow_binding demo_world FLifetimeHandler_Transient)
      as (_ & Hcreate & _); [vm_compute; reflexivity|].
    destruct (Hcreate eq_refl (mkObject 53 UBow)
                (ResolveImpl demo_host 2 1 bow_binding demo_world).2)
      as (C & Factory & Storage & Class & w1 & Injected & w2 & Injection
          & HC & HFactory & HStorage & HCreate & HResult & Hw1 & HInject & Hw'
          & HTrace & HHandlers);
      [vm_compute; reflexivity|].
    exists Injection. rewrite HTrace.
    assert (C = UBow) as -> by (vm_compute in HC; vm_compute; congruence).
    assert (Factory = mkObject 0 UDefaultInstanceFactory) as ->.
    { apply (f_equal fst) in HFactory. vm_compute in HFactory. vm_compute.
      congruence. }
    assert (OuterForNewObject Storage = demo_outer) as ->.
    { apply (f_equal (fmap OuterForNewObject)) in HStorage.
      vm_compute in HStorage. vm_compute. congruence. }
    reflexivity.
Defined.

Lemma C5_witness :
  (GetResolver demo_host 1 IUnbound demo_world
     = (Failed (CannotAutoRegister IUnbound), demo_world) ∧
   Resolve demo_host 3 1 IUnbound demo_world
     = (Failed (CannotAutoRegister IUnbound), demo_world)) ∧
  ∃ Root, Scopes demo_world !! 0 = Some Root ∧
    let Resolver := mkResolver (Some UGhost) (length (Handlers demo_world)) in
    let w1 := auto_registered UGhost Root demo_world in
    GetResolver demo_host 1 UGhost demo_world = (Ok Resolver, w1) ∧
    Resolve demo_host 3 1 UGhost demo_world =
      ResolveImpl demo_host 2 1 Resolver (emit (EvResolve 1 UGhost Resolver) w1).2 ∧
    extends w1 (Resolve demo_host 3 1 UGhost demo_world).2 ∧
    ∀ w2, extends w1 w2 →
      (∃ Root2, Scopes w2 !! 0 = Some Root2 ∧
         Registrations Root2 !! UGhost = Some [Resolver]) ∧
      Handlers w2 !! LifetimeHandler Resolver = Some FLifetimeHandler_Transient ∧
      GetResolver demo_host 1 UGhost w2 = (Ok Resolver, w2) ∧
      ∀ fuel' scope Type', extends w1 (Resolve demo_host fuel' scope Type' w2).2.
Proof.
  split.
  - apply (C5_unbound_type_auto_registered_once_or_fatal demo_host 2 1 IUnbound
             demo_world); vm_compute; [lia|reflexivity].
  - apply (C5_unbound_type_auto_registered_once_or_fatal demo_host 2 1 UGhost
             demo_world); vm_compute; [lia|reflexivity].
Defined.

Lemma C6_witness :
  ResolveAll demo_host 2 1 (Some UGhost) demo_world
    = (Failed (TypeNotRegistered UGhost), demo_world) ∧
  IsRegistered 1 UGhost (ResolveAll demo_host 2 1 (Some UGhost) demo_world).2 = false ∧
  IsRegistered 1 UGhost (Resolve demo_host 3 1 UGhost demo_world).2 = true.
Proof.
  destruct (C6_ResolveAll_fails_on_unregistered_type demo_host 2 1 UGhost demo_world)
    as [Hfail Hcontrast]; [vm_compute; lia|vm_compute; reflexivity|].
  destruct Hcontrast as [Hnot Hauto]; [vm_compute; reflexivity|].
  split_and!; [exact Hfail|exact Hnot|apply Hauto; vm_compute; reflexivity].
Defined.

Lemma C8_witness :
  CanInject demo_host 1 UPlayer demo_world = (Ok true, demo_world) ∧
  Inject demo_host 2 1 (mkObject 40 UPlayer) demo_world
    = (Ok true,
       (emit (EvProcessEvent (mkObject 40 UPlayer)
                [ArgInterface (mkObject 53 UBow) IWeapon])
          (Resolve demo_host 2 1 IWeapon demo_world).2).2) ∧
  Inject demo_host 2 1 (mkObject 41 UGhost) demo_world = (Ok false, demo_world).
Proof.
  split_and!.
  - destruct (C8_Inject_agrees_with_CanInject demo_host 2 1 (mkObject 40 UPlayer)
                demo_world) as (_ & Hcan & _).
    apply (Hcan 1 UPlayer demo_world).
  - destruct (C8_Inject_agrees_with_CanInject demo_host 2 1 (mkObject 40 UPlayer)
                demo_world) as (_ & _ & _ & _ & Hreturns).
    apply Hreturns; [vm_compute; reflexivity|].
    exists demo_world. split.
    + apply NativeInjected_none. vm_compute. reflexivity.
    + apply (BlueprintInjected_intro demo_host 2 1 (mkObject 40 UPlayer)
               (mkFunction 16 [mkProperty true (FInterfaceProperty IWeapon);
                               mkProperty false FOtherProperty])
               demo_world [mkObject 53 UBow]);
        [vm_compute; reflexivity| |vm_compute; reflexivity].
      eapply each_cons; [|apply each_nil]. vm_compute. reflexivity.
  - destruct (C8_Inject_agrees_with_CanInject demo_host 2 1 (mkObject 41 UGhost)
                demo_world) as (_ & _ & _ & Hnone & _).
    apply Hnone. vm_compute. reflexivity.
Defined.

Lemma C9_witness :
  (∃ Factory Outer Class wc wn wi,
     Trace wc = Trace demo_world ++ [EvResolve 1 UPlayer player_binding;
                                     EvCreate Factory Outer Class (mkObject 53 UPlayer)] ∧
     NativeInjected demo_host 2 1 (mkObject 53 UPlayer) wc wn ∧
     BlueprintInjected demo_host 2 1 (mkObject 53 UPlayer) wn wi ∧
     Trace (Resolve demo_host 3 1 UPlayer demo_world).2
       = Trace wi ++ [EvFinalizeCreation Factory (mkObject 53 UPlayer);
                      EvSet 3 (mkObject 53 UPlayer)]) ∧
  ∃ new,
    Trace (Resolve demo_host 3 1 UPlayer demo_world).2 = Trace demo_world ++ new ∧
    Forall (event_on 1) new ∧
    Forall (selects IWeapon bow_binding) new.
Proof.
  split.
  - destruct (C9_dependencies_resolved_on_resolving_scope demo_host 2 1 UPlayer
                demo_world) as (_ & Hcreated & _).
    apply (Hcreated player_binding demo_world FLifetimeHandler_Transient
             (mkObject 53 UPlayer) (Resolve demo_host 3 1 UPlayer demo_world).2);
      vm_compute; reflexivity.
  - destruct (C9_dependencies_resolved_on_resolving_scope demo_host 3 1 UPlayer
                demo_world) as (_ & _ & _ & new & Htrace & Hon & Hoverride).
    exists new. split_and!; [exact Htrace|exact Hon|].
    apply (Hoverride demo_child_ready IWeapon [axe_binding] bow_binding);
      vm_compute; reflexivity.
Defined.

Lemma C10_witness :
  (∃ Root Root',
     Scopes demo_world !! 0 = Some Root ∧
     Scopes (GetResolver demo_host 1 UGhost demo_world).2 !! 0 = Some Root' ∧
     Registrations Root !! UGhost = None ∧
     Registrations Root ⊆ Registrations Root' ∧
     Registrations Root' !! UGhost =
       Some [mkResolver (Some UGhost) (length (Handlers demo_world))] ∧
     Handlers (GetResolver demo_host 1 UGhost demo_world).2
       !! length (Handlers demo_world) = Some FLifetimeHandler_Transient) ∧
  (∀ k, k ≠ 0 →
     Scopes (GetResolver demo_host 1 UGhost demo_world).2 !! k
       = Scopes demo_world !! k) ∧
  (∀ k, k < length (Scopes demo_world) →
     IsRegistered k UGhost (GetResolver demo_host 1 UGhost demo_world).2 = true).
Proof.
  apply (C10_auto_registration_lands_in_root demo_host 2 0 UGhost demo_world
           (GetResolver demo_host 1 UGhost demo_world).2);
    [vm_compute; lia|vm_compute; reflexivity|vm_compute; reflexivity|by left].
Defined.


(** * Further properties of the storage *)

(** ** Registration and lookup *)

Section Registration.

Context (host : HostModel).

Lemma IsRegistered_at_scope this k Type_ w Storage :
  k ≤ this → this < length (Scopes w) →
  Scopes w !! k = Some Storage → is_Some (Registrations Storage !! Type_) →
  IsRegistered this Type_ w = true.
Proof.
  intros Hk Hlt Hs HT. induction this as [|p IH]; rewrite IsRegistered_eq.
  - assert (k = 0) as -> by lia. rewrite Hs. by rewrite bool_decide_eq_true_2.
  - destruct (decide (k = S p)) as [->|Hne].
    + rewrite Hs. by rewrite bool_decide_eq_true_2.
    + destruct (lookup_lt_is_Some_2 _ _ Hlt) as [s ->].
      case_bool_decide; [done|]. apply IH; lia.
Qed.

Lemma AddRegistration_spec this Interface Class Lifetime w Storage :
  Scopes w !! this = Some Storage →
  AddRegistration this Interface Class Lifetime w =
  (Ok tt,
   mkWorld
     (<[this := mkStorage
                  (<[Interface := default [] (Registrations Storage !! Interface)
                                  ++ [mkResolver Class Lifetime]]>
                     (Registrations Storage))
                  (InstanceFactories Storage) (OuterForNewObject Storage)]>
        (Scopes w))
     (Handlers w) (NextObjectId w) (Trace w)).
Proof.
  intros Hs. unfold AddRegistration.
  by rewrite (bind_Ok _ _ _ _ _ (get_storage_Some _ _ _ Hs)).
Qed.

(** X1: registering and looking up.  After [AddRegistration] on a scope, the
    lookup of single resolve for the interface on that scope returns the
    binding just added and changes nothing, and [IsRegistered] answers true
    for the interface on the scope and on every scope below it. *)
Theorem X1_AddRegistration_then_lookup this Interface Class Lifetime w :
  this < length (Scopes w) →
  ∃ w1,
    AddRegistration this Interface Class Lifetime w = (Ok tt, w1) ∧
    GetResolver host this Interface w1 = (Ok (mkResolver Class Lifetime), w1) ∧
    ∀ k, this ≤ k < length (Scopes w) → IsRegistered k Interface w1 = true.
Proof.
  intros Hlt. destruct (lookup_lt_is_Some_2 _ _ Hlt) as [s Hs].
  eexists. split; [by apply AddRegistration_spec|].
  assert (∀ l : list FRegistrationStorage, length l = length (Scopes w) →
          ∀ x, <[this := x]> l !! this = Some x) as Hlook.
  { intros l Hl x. apply list_lookup_insert_eq. lia. }
  split.
  - eapply GetResolver_local; simpl.
    + by apply Hlook.
    + simpl. apply lookup_insert_eq.
    + apply last_snoc.
  - intros k Hk. eapply (IsRegistered_at_scope k this); simpl.
    + lia.
    + rewrite length_insert. lia.
    + by apply Hlook.
    + simpl. rewrite lookup_insert_eq. by eexists.
Qed.

Lemma ChainBindings_agree this Type_ w w' :
  (∀ k, k ≤ this →
     (λ Storage, Registrations Storage !! Type_) <$> Scopes w' !! k
     = (λ Storage, Registrations Storage !! Type_) <$> Scopes w !! k) →
  ChainBindings this Type_ w' = ChainBindings this Type_ w.
Proof.
  induction this as [|p IH]; intros Heq; simpl.
  - specialize (Heq 0 ltac:(lia)).
    destruct (Scopes w' !! 0), (Scopes w !! 0); simpl in *; congruence.
  - rewrite IH by (intros k Hk; apply Heq; lia). f_equal.
    specialize (Heq (S p) ltac:(lia)).
    destruct (Scopes w' !! S p), (Scopes w !! S p); simpl in *; congruence.
Qed.

(** X2: [AddRegistration] appends.  The new binding comes after the bindings
    the scope already had for the interface, in their order; the bindings of
    every other type, the factories and the outer of the scope, every other
    scope, the handlers, the objects and the trace are unchanged.  So what
    collect-all counts for the interface grows by exactly one on the scope
    and below it, and stays the same above it and for every other type. *)
Theorem X2_AddRegistration_appends this Interface Class Lifetime w Storage :
  Scopes w !! this = Some Storage →
  let w1 := (AddRegistration this Interface Class Lifetime w).2 in
  (∃ Storage1,
     Scopes w1 !! this = Some Storage1 ∧
     Registrations Storage1 !! Interface =
       Some (default [] (Registrations Storage !! Interface)
             ++ [mkResolver Class Lifetime]) ∧
     (∀ Type_, Type_ ≠ Interface →
        Registrations Storage1 !! Type_ = Registrations Storage !! Type_) ∧
     InstanceFactories Storage1 = InstanceFactories Storage ∧
     OuterForNewObject Storage1 = OuterForNewObject Storage) ∧
  (∀ k, k ≠ this → Scopes w1 !! k = Scopes w !! k) ∧
  Handlers w1 = Handlers w ∧ NextObjectId w1 = NextObjectId w ∧
  Trace w1 = Trace w ∧
  (∀ k Type_, Type_ ≠ Interface →
     ChainBindings k Type_ w1 = ChainBindings k Type_ w) ∧
  (∀ k, k < this → ChainBindings k Interface w1 = ChainBindings k Interface w) ∧
  (∀ k, this ≤ k →
     length (ChainBindings k Interface w1)
     = S (length (ChainBindings k Interface w))).
Proof.
  intros Hs w1. subst w1. rewrite (AddRegistration_spec _ _ _ _ _ _ Hs). simpl.
  pose proof (lookup_lt_Some _ _ _ Hs) as Hlt.
  set (New := mkStorage _ _ _).
  assert (<[this := New]> (Scopes w) !! this = Some New) as Hnew
    by (by apply list_lookup_insert_eq).
  assert (∀ k, k ≠ this → <[this := New]> (Scopes w) !! k = Scopes w !! k) as Hother
    by (intros k Hk; by apply list_lookup_insert_ne).
  split_and!; try done.
  - exists New. split_and!; try done.
    + simpl. apply lookup_insert_eq.
    + intros T HT. simpl. by apply lookup_insert_ne.
  - intros k T HT. apply ChainBindings_agree. intros j _. simpl.
    destruct (decide (j = this)) as [->|Hne]; [|by rewrite Hother].
    rewrite Hnew, Hs. simpl. by rewrite lookup_insert_ne.
  - intros k Hk. apply ChainBindings_agree. intros j Hj. simpl.
    rewrite Hother by lia. done.
  - intros k Hk. induction k as [|p IH].
    + assert (this = 0) as Heq by lia. subst this. simpl in *.
      rewrite Hnew, Hs. simpl. rewrite lookup_insert_eq. simpl.
      rewrite !length_fmap, length_app. simpl. lia.
    + destruct (decide (this = S p)) as [Heq|Hne].
      * subst this. simpl.
        rewrite (ChainBindings_agree p Interface w
                   (mkWorld (<[S p := New]> (Scopes w)) (Handlers w)
                      (NextObjectId w) (Trace w))).
        2:{ intros j Hj. simpl. by rewrite Hother by lia. }
        simpl in Hnew. rewrite Hnew, Hs. simpl. rewrite lookup_insert_eq. simpl.
        rewrite !length_app, !length_fmap, length_app. simpl. lia.
      * simpl. rewrite !length_app, IH by lia.
        simpl in Hother. rewrite Hother by lia. lia.
Qed.

(** X3: [IsRegistered] on a scope answers true exactly when the scope or one
    of its ancestors has an entry for the type. *)
Theorem X3_IsRegistered_iff_entry_in_chain this Type_ w :
  this < length (Scopes w) →
  IsRegistered this Type_ w = true ↔
  ∃ k Storage,
    k ≤ this ∧ Scopes w !! k = Some Storage ∧
    is_Some (Registrations Storage !! Type_).
Proof.
  intros Hlt. split.
  - clear Hlt. induction this as [|p IH]; intros Hreg;
      rewrite IsRegistered_eq in Hreg;
      (destruct (Scopes w !! _) as [s|] eqn:Hs; [|done]).
    + case_bool_decide as HT; [|done]. by exists 0, s.
    + case_bool_decide as HT; [by exists (S p), s|].
      destruct (IH Hreg) as (k & s' & Hk & Hs' & HT'). exists k, s'.
      split_and!; [lia|done..].
  - intros (k & s & Hk & Hs & HT). by eapply IsRegistered_at_scope.
Qed.

(** X4: the lookup of single resolve of a registered type never changes the
    world (auto-registration is its only write), can only fail on an entry
    that is an empty array, and returns the last binding of the nearest scope
    of the chain that has an entry for the type: the scope itself, else its
    parent, and so on up. *)
Theorem X4_lookup_takes_nearest_entry this Type_ w :
  IsRegistered this Type_ w = true →
  (GetResolver host this Type_ w).2 = w ∧
  (∀ e, (GetResolver host this Type_ w).1 = Failed e → e = EmptyResolversArray) ∧
  (GetResolver host this Type_ w).1 ≠ OutOfFuel ∧
  ∀ Resolver,
    (GetResolver host this Type_ w).1 = Ok Resolver →
    ∃ k Storage Resolvers,
      k ≤ this ∧ Scopes w !! k = Some Storage ∧
      Registrations Storage !! Type_ = Some Resolvers ∧
      last Resolvers = Some Resolver ∧
      ∀ j Storage', k < j ≤ this → Scopes w !! j = Some Storage' →
        Registrations Storage' !! Type_ = None.
Proof.
  induction this as [|p IH]; intros Hreg; rewrite IsRegistered_eq in Hreg;
    (destruct (Scopes w !! _) as [s|] eqn:Hs; [|done]);
    rewrite GetResolver_eq, (bind_Ok _ _ _ _ _ (get_storage_Some _ _ _ Hs)).
  - case_bool_decide as HT; [|done]. destruct HT as [rs Hrs]. rewrite Hrs.
    destruct (last rs) as [r|] eqn:Hl; simpl; split_and!; try done.
    + intros r' [= <-]. exists 0, s, rs. split_and!; try done. intros; lia.
    + by intros e [= <-].
  - destruct (Registrations s !! Type_) as [rs|] eqn:Hrs.
    + destruct (last rs) as [r|] eqn:Hl; simpl; split_and!; try done.
      * intros r' [= <-]. exists (S p), s, rs. split_and!; try done. intros; lia.
      * by intros e [= <-].
    + rewrite bool_decide_eq_false_2 in Hreg by (by apply is_Some_None).
      destruct (IH Hreg) as (Hw & Hfail & Hfuel & Hok). split_and!; try done.
      intros r Hr. destruct (Hok r Hr) as (k & s' & rs & Hk & Hs' & Hrs' & Hl & Hnone).
      exists k, s', rs. split_and!; try done; [lia|].
      intros j s'' Hj Hs''. destruct (decide (j = S p)) as [->|Hne].
      * congruence.
      * eapply Hnone; [|done]. lia.
Qed.

End Registration.

(** ** What resolution keeps, whatever its outcome *)

Section CollectInvariant.

Context (host : HostModel) (R : relation World) `{!PreOrder R} (fuel : nat).

Hypothesis R_ResolveImpl :
  ∀ scope Resolver, preserves R (ResolveImpl host fuel scope Resolver).

Lemma read_only_write b Object : read_only (write b Object).
Proof. intros w. unfold write. by case_decide. Qed.

Lemma AppendResolvers_preserves scope Resolvers b :
  preserves R (AppendResolvers host (Resolve host fuel) scope Resolvers b).
Proof using R_ResolveImpl PreOrder0.
  revert b. induction Resolvers as [|r rs IH]; intros b; simpl.
  - by apply preserves_ret.
  - apply preserves_bind; [done|apply R_ResolveImpl|]. intros o.
    apply preserves_bind; [done|apply preserves_read_only, read_only_write; done|].
    intros b'. apply IH.
Qed.

Lemma AppendObjectsCollection_preserves this Type_ b :
  preserves R (AppendObjectsCollection host fuel this Type_ b).
Proof using R_ResolveImpl PreOrder0.
  revert b. unfold AppendObjectsCollection.
  induction this as [|p IH]; intros b; simpl.
  - apply preserves_bind; [done|by apply preserves_ret|]. intros b1.
    apply preserves_bind; [done|apply preserves_read_only, read_only_get_storage; done|].
    intros s. destruct (Registrations s !! Type_);
      [apply AppendResolvers_preserves|by apply preserves_ret].
  - apply preserves_bind; [done|apply IH|]. intros b1.
    apply preserves_bind; [done|apply preserves_read_only, read_only_get_storage; done|].
    intros s. destruct (Registrations s !! Type_);
      [apply AppendResolvers_preserves|by apply preserves_ret].
Qed.

Lemma ResolveAll_preserves this Type_ :
  preserves R (ResolveAll host fuel this Type_).
Proof using R_ResolveImpl PreOrder0.
  unfold ResolveAll, ResolveAll_. destruct Type_ as [T|]; [|by apply preserves_fail].
  apply preserves_bind;
    [done|apply preserves_read_only, read_only_TotalResolvers; done|].
  intros Total. case_decide; [|by apply preserves_fail].
  apply preserves_bind; [done|apply AppendObjectsCollection_preserves|].
  intros b. by apply preserves_ret.
Qed.

Context (this : nat).

Hypothesis R_set_factories : ∀ f, preserves R (set_factories this f).

Lemma CopyCollection_preserves Cells : preserves R (CopyCollection this Cells).
Proof using R_set_factories PreOrder0.
  induction Cells as [|[o|] Cells IH]; simpl.
  - by apply preserves_ret.
  - apply preserves_bind; [done|apply R_set_factories|]. intros _. apply IH.
  - by apply preserves_fail.
Qed.

Lemma InitServices_preserves : preserves R (InitServices host fuel this).
Proof using R_set_factories R_ResolveImpl PreOrder0.
  unfold InitServices. apply preserves_bind; [done| |].
  { destruct this; [apply R_set_factories|by apply preserves_ret]. }
  intros _.
  apply preserves_bind; [done|apply preserves_read_only, read_only_get_storage; done|].
  intros s. apply preserves_bind; [done| |intros _; apply R_set_factories].
  case_bool_decide; [|by apply preserves_ret].
  apply preserves_bind; [done|apply ResolveAll_preserves|].
  intros Cells. apply CopyCollection_preserves.
Qed.

End CollectInvariant.

Lemma extends_ResolveAll host fuel this Type_ :
  preserves extends (ResolveAll host fuel this Type_).
Proof. apply ResolveAll_preserves; [apply _|]. intros. apply extends_ResolveImpl. Qed.

(** ** Tables without empty arrays *)

#[local] Instance keeps_arrays_preorder : PreOrder keeps_arrays.
Proof. split; unfold keeps_arrays; [by intros w|intros w1 w2 w3; auto]. Qed.

Lemma keeps_arrays_scopes {A} (m : M A) :
  (∀ w, Scopes (m w).2 = Scopes w) → preserves keeps_arrays m.
Proof. intros Hm w Hw k s T. rewrite Hm. apply Hw. Qed.

Lemma NoEmptyArray_insert w w' k Storage Storage' Type_ Resolvers :
  NoEmptyArray w → Scopes w !! k = Some Storage → Resolvers ≠ [] →
  Registrations Storage' = <[Type_ := Resolvers]> (Registrations Storage) →
  Scopes w' = <[k := Storage']> (Scopes w) →
  NoEmptyArray w'.
Proof.
  intros Hw Hs Hne Hreg Hw' j s T Hj. rewrite Hw' in Hj.
  destruct (decide (j = k)) as [->|Hjk].
  - rewrite list_lookup_insert_eq in Hj by (by eapply lookup_lt_Some).
    injection Hj as <-. rewrite Hreg.
    destruct (decide (T = Type_)) as [->|HT].
    + rewrite lookup_insert_eq. congruence.
    + rewrite lookup_insert_ne by done. by eapply Hw.
  - rewrite list_lookup_insert_ne in Hj by done. by eapply Hw.
Qed.

Lemma keeps_arrays_AddRegistration this Interface Class Lifetime :
  preserves keeps_arrays (AddRegistration this Interface Class Lifetime).
Proof.
  intros w Hw. unfold AddRegistration, bind, get_storage.
  destruct (Scopes w !! this) as [s|] eqn:Hs; [|done]. simpl.
  eapply (NoEmptyArray_insert w _ this s); [exact Hw|exact Hs| | |simpl; reflexivity].
  2: simpl; reflexivity.
  by destruct (default _ _).
Qed.

Lemma keeps_arrays_GetResolver host this Type_ :
  preserves keeps_arrays (GetResolver host this Type_).
Proof.
  induction this as [|p IH]; intros w; rewrite GetResolver_eq; unfold bind at 1;
    unfold get_storage; destruct (Scopes w !! _) as [s|] eqn:Hs; simpl;
    try reflexivity;
    (destruct (Registrations s !! Type_) as [rs|] eqn:Hr;
      [destruct (last rs); simpl; reflexivity|]).
  - destruct (IsChildOf_UInterface host Type_); simpl; [reflexivity|].
    intros Hw.
    eapply (NoEmptyArray_insert w _ 0 s); [exact Hw|exact Hs| | |simpl; reflexivity].
    2: simpl; reflexivity.
    done.
  - apply IH.
Qed.

Lemma keeps_arrays_ResolveImpl host fuel this Resolver :
  preserves keeps_arrays (ResolveImpl host fuel this Resolver).
Proof.
  apply ResolveImpl_preserves; try apply _; intros.
  - apply preserves_bind; [apply _|apply keeps_arrays_GetResolver|]. intros r.
    by apply keeps_arrays_scopes.
  - by apply keeps_arrays_scopes.
  - by apply keeps_arrays_scopes.
  - by apply keeps_arrays_scopes.
Qed.

Lemma keeps_arrays_set_factories this f : preserves keeps_arrays (set_factories this f).
Proof.
  intros w Hw. unfold set_factories, bind, get_storage.
  destruct (Scopes w !! this) as [s|] eqn:Hs; [|done]. simpl.
  intros j s' T Hj. simpl in Hj. destruct (decide (j = this)) as [->|Hne].
  - rewrite list_lookup_insert_eq in Hj by (by eapply lookup_lt_Some).
    injection Hj as <-. simpl. by eapply Hw.
  - rewrite list_lookup_insert_ne in Hj by done. by eapply Hw.
Qed.

Lemma no_empty_array_sound w : no_empty_array w = true → NoEmptyArray w.
Proof.
  unfold no_empty_array. rewrite forallb_forall. intros Hall k s T Hs HT.
  assert (In s (Scopes w)) as Hin.
  { apply list_elem_of_In, list_elem_of_lookup. eauto. }
  specialize (Hall s Hin). rewrite forallb_forall in Hall.
  specialize (Hall (T, [])). simpl in Hall.
  assert (false = true → False) as Hf by done. apply Hf, Hall.
  apply list_elem_of_In. by apply elem_of_map_to_list.
Qed.

Section EmptyArrays.

Context (host : HostModel).

Lemma GetResolver_not_empty_array this Type_ w :
  NoEmptyArray w → (GetResolver host this Type_ w).1 ≠ Failed EmptyResolversArray.
Proof.
  intros Hw. induction this as [|p IH]; rewrite GetResolver_eq; unfold bind at 1;
    unfold get_storage; destruct (Scopes w !! _) as [s|] eqn:Hs; simpl; try done;
    (destruct (Registrations s !! Type_) as [rs|] eqn:Hr;
      [destruct (last rs) eqn:Hl; simpl; [done|];
       apply last_None in Hl; subst rs; by destruct (Hw _ _ _ Hs Hr)|]);
    [|done].
  by destruct (IsChildOf_UInterface host Type_).
Qed.

(** X5: single resolve and collect-all agree.  In a world without empty
    arrays, the binding that the lookup of single resolve returns on a scope
    is the one that the chain of collect-all lists last, and it returns it
    without changing the world; and the chain of collect-all is empty, which
    is when [ResolveAll] fails with the usage error, exactly when
    [IsRegistered] answers false. *)
Theorem X5_single_resolve_selects_last_collected this Type_ w :
  this < length (Scopes w) →
  NoEmptyArray w →
  (∀ k Resolver,
     last (ChainBindings this Type_ w) = Some (k, Resolver) →
     GetResolver host this Type_ w = (Ok Resolver, w) ∧ k ≤ this) ∧
  (ChainBindings this Type_ w = [] ↔ IsRegistered this Type_ w = false).
Proof.
  intros Hlt Hw. split.
  - induction this as [|p IH]; intros k r Hlast; simpl in Hlast;
      destruct (lookup_lt_is_Some_2 _ _ Hlt) as [s Hs]; rewrite Hs in Hlast.
    + simpl in Hlast. destruct (Registrations s !! Type_) as [rs|] eqn:Hr;
        simpl in Hlast; [|done].
      rewrite fmap_last in Hlast. destruct (last rs) as [r'|] eqn:Hl; [|done].
      injection Hlast as <- <-. split; [|done]. by eapply GetResolver_local.
    + rewrite last_app in Hlast.
      destruct (Registrations s !! Type_) as [rs|] eqn:Hr; simpl in Hlast.
      * rewrite fmap_last in Hlast. destruct (last rs) as [r'|] eqn:Hl.
        -- injection Hlast as <- <-. split; [|done]. by eapply GetResolver_local.
        -- apply last_None in Hl. subst rs. by destruct (Hw _ _ _ Hs Hr).
      * rewrite (GetResolver_parent _ _ _ _ _ Hs Hr).
        destruct (IH ltac:(lia) k r Hlast) as [Hget Hk]. split; [done|lia].
  - split; [|by apply ChainBindings_unregistered].
    clear Hlt. induction this as [|p IH]; intros Hnil; rewrite IsRegistered_eq;
      (destruct (Scopes w !! _) as [s|] eqn:Hs; [|done]);
      cbn [ChainBindings] in Hnil; rewrite Hs in Hnil;
      apply app_eq_nil in Hnil as [Hanc Hloc];
      (destruct (Registrations s !! Type_) as [rs|] eqn:Hr; simpl in *;
        [apply fmap_nil_inv in Hloc; subst rs; by destruct (Hw _ _ _ Hs Hr)|]);
      [done|].
    by apply IH.
Qed.

(** X6: no table ever holds an empty array.  [AddRegistration], [Resolve],
    [ResolveAll] and [InitServices] keep it so whatever their outcome, and
    then the lookup of single resolve never takes the last element of an
    empty array. *)
Theorem X6_tables_never_hold_an_empty_array fuel w :
  NoEmptyArray w →
  (∀ this Interface Class Lifetime,
     NoEmptyArray (AddRegistration this Interface Class Lifetime w).2) ∧
  (∀ this Type_, NoEmptyArray (Resolve host fuel this Type_ w).2) ∧
  (∀ this Type_, NoEmptyArray (ResolveAll host fuel this Type_ w).2) ∧
  (∀ this, NoEmptyArray (InitServices host fuel this w).2) ∧
  (∀ this Type_, (GetResolver host this Type_ w).1 ≠ Failed EmptyResolversArray).
Proof.
  intros Hw. split_and!.
  - intros. by apply keeps_arrays_AddRegistration.
  - intros this T. revert w Hw. change (preserves keeps_arrays (Resolve host fuel this T)).
    apply Resolve_preserves; try apply _; intros.
    + apply preserves_bind; [apply _|apply keeps_arrays_GetResolver|]. intros r.
      by apply keeps_arrays_scopes.
    + by apply keeps_arrays_scopes.
    + by apply keeps_arrays_scopes.
    + by apply keeps_arrays_scopes.
  - intros this T. revert w Hw.
    change (preserves keeps_arrays (ResolveAll host fuel this T)).
    apply ResolveAll_preserves; [apply _|]. intros. apply keeps_arrays_ResolveImpl.
  - intros this. revert w Hw.
    change (preserves keeps_arrays (InitServices host fuel this)).
    apply InitServices_preserves; [apply _| |]; intros.
    + apply keeps_arrays_ResolveImpl.
    + apply keeps_arrays_set_factories.
  - intros. by apply GetResolver_not_empty_array.
Qed.

End EmptyArrays.

(** ** The factory chain *)

Section FactorySearch.

Context (host : HostModel).

Lemma find_none_elem {A} (P : A → bool) l x :
  List.find P l = None → x ∈ l → P x = false.
Proof. intros Hfind Hin. apply (find_none P l Hfind). by apply list_elem_of_In. Qed.

Lemma find_some_elem {A} (P : A → bool) l x :
  List.find P l = Some x → x ∈ l ∧ P x = true.
Proof.
  intros Hfind. destruct (find_some P l Hfind) as [Hin HP].
  split; [by apply list_elem_of_In|done].
Qed.

Lemma FindInstanceFactory_invalid this Type_ w :
  Scopes w !! this = None →
  FindInstanceFactory host this Type_ w = (Failed InvalidStorage, w).
Proof.
  intros Hs. rewrite (FindInstanceFactory_eq host this Type_).
  by rewrite (bind_Failed _ _ _ _ _ (get_storage_None _ _ Hs)).
Qed.

Lemma FindInstanceFactory_agree this Type_ w w' :
  (∀ j, j ≤ this →
     InstanceFactories <$> Scopes w' !! j = InstanceFactories <$> Scopes w !! j) →
  (FindInstanceFactory host this Type_ w').1 = (FindInstanceFactory host this Type_ w).1.
Proof.
  induction this as [|p IH]; intros Heq;
    pose proof (Heq _ (Nat.le_refl _)) as Hj;
    destruct (Scopes w' !! _) as [s'|] eqn:Hs', (Scopes w !! _) as [s|] eqn:Hs;
    simpl in Hj; try done;
    try (by rewrite !FindInstanceFactory_invalid);
    injection Hj as Hf;
    rewrite (FindInstanceFactory_spec host _ _ _ _ Hs),
            (FindInstanceFactory_spec host _ _ _ _ Hs'), Hf;
    destruct (List.find _ _); try done.
  apply IH. intros j Hle. apply Heq. lia.
Qed.

(** X7: what [FindInstanceFactory] returns.  It never changes the world; a
    factory it returns supports the type, and is the first factory that does
    in the list of the nearest scope of the chain whose list has one: the
    lists of the scopes between, the scope itself included, have none. *)
Theorem X7_FindInstanceFactory_first_supporting_of_nearest this Type_ w
    Factory w' :
  FindInstanceFactory host this Type_ w = (Ok Factory, w') →
  w' = w ∧
  IsClassSupported host Factory Type_ = true ∧
  ∃ k Storage,
    k ≤ this ∧ Scopes w !! k = Some Storage ∧
    List.find (λ f, IsClassSupported host f Type_) (InstanceFactories Storage)
      = Some Factory ∧
    ∀ j Storage', k < j ≤ this → Scopes w !! j = Some Storage' →
      ∀ f, f ∈ InstanceFactories Storage' → IsClassSupported host f Type_ = false.
Proof.
  intros H.
  pose proof (read_only_Ok _ _ _ _ (read_only_FindInstanceFactory host _ _) H) as ->.
  split; [done|]. induction this as [|p IH];
    rewrite (FindInstanceFactory_eq host _ Type_) in H; unfold bind, get_storage in H;
    (destruct (Scopes w !! _) as [s|] eqn:Hs; [|done]);
    destruct (List.find _ (InstanceFactories s)) as [f|] eqn:Hfind; try done.
  - injection H as <-. split; [by apply find_some_elem in Hfind as [_ ?]|].
    exists 0, s. split_and!; try done. intros; lia.
  - injection H as <-. split; [by apply find_some_elem in Hfind as [_ ?]|].
    exists (S p), s. split_and!; try done. intros; lia.
  - destruct (IH H) as (Hsup & k & s' & Hk & Hs' & Hf & Hnone).
    split; [done|]. exists k, s'. split_and!; try done; [lia|].
    intros j s'' Hj Hs'' f Hf'. destruct (decide (j = S p)) as [->|Hne].
    + assert (s'' = s) as -> by congruence.
      by apply (find_none_elem _ _ _ Hfind).
    + eapply Hnone; [|done..]. lia.
Qed.

Lemma FindInstanceFactory_cases this Type_ w :
  this < length (Scopes w) →
  (∃ Factory, FindInstanceFactory host this Type_ w = (Ok Factory, w)) ∨
  FindInstanceFactory host this Type_ w = (Failed NullParentStorage, w).
Proof.
  intros Hlt. induction this as [|p IH];
    destruct (lookup_lt_is_Some_2 _ _ Hlt) as [s Hs];
    rewrite (FindInstanceFactory_spec host _ _ _ _ Hs);
    destruct (List.find _ _); eauto. apply IH. lia.
Qed.

Lemma FindInstanceFactory_Ok_supports this Type_ w Factory :
  this < length (Scopes w) →
  FindInstanceFactory host this Type_ w = (Ok Factory, w) →
  ∃ k Storage f,
    k ≤ this ∧ Scopes w !! k = Some Storage ∧
    f ∈ InstanceFactories Storage ∧ IsClassSupported host f Type_ = true.
Proof.
  intros Hlt. induction this as [|p IH]; intros H;
    destruct (lookup_lt_is_Some_2 _ _ Hlt) as [s Hs];
    rewrite (FindInstanceFactory_spec host _ _ _ _ Hs) in H;
    destruct (List.find _ _) as [f'|] eqn:Hfind; try done.
  - injection H as <-. apply find_some_elem in Hfind as [Hin Hsup].
    by exists 0, s, f'.
  - injection H as <-. apply find_some_elem in Hfind as [Hin Hsup].
    by exists (S p), s, f'.
  - destruct (IH ltac:(lia) H) as (k & s' & f' & Hk & Hrest).
    exists k, s', f'. split; [lia|done].
Qed.

Lemma FindInstanceFactory_null_parent this Type_ w :
  this < length (Scopes w) →
  FindInstanceFactory host this Type_ w = (Failed NullParentStorage, w) →
  ∀ k Storage f,
    k ≤ this → Scopes w !! k = Some Storage →
    f ∈ InstanceFactories Storage → IsClassSupported host f Type_ = false.
Proof.
  intros Hlt. induction this as [|p IH]; intros H k s' f Hk Hs' Hf;
    destruct (lookup_lt_is_Some_2 _ _ Hlt) as [s Hs];
    rewrite (FindInstanceFactory_spec host _ _ _ _ Hs) in H;
    destruct (List.find _ _) as [f'|] eqn:Hfind; try done.
  - assert (k = 0) as -> by lia. assert (s' = s) as -> by congruence.
    by apply (find_none_elem _ _ _ Hfind).
  - destruct (decide (k = S p)) as [->|Hne].
    + assert (s' = s) as -> by congruence. by apply (find_none_elem _ _ _ Hfind).
    + eapply (IH ltac:(lia) H k); [lia|done..].
Qed.

Lemma FindInstanceFactory_succeeds this Type_ w k Storage f :
  this < length (Scopes w) →
  k ≤ this → Scopes w !! k = Some Storage →
  f ∈ InstanceFactories Storage → IsClassSupported host f Type_ = true →
  ∃ Factory, FindInstanceFactory host this Type_ w = (Ok Factory, w) ∧
    IsClassSupported host Factory Type_ = true.
Proof.
  intros Hlt Hk Hs Hin Hsup.
  destruct (FindInstanceFactory_cases this Type_ w Hlt) as [[f' Hok]|Hno].
  - exists f'. split; [done|].
    clear Hk. induction this as [|p IH];
      destruct (lookup_lt_is_Some_2 _ _ Hlt) as [s' Hs'];
      rewrite (FindInstanceFactory_spec host _ _ _ _ Hs') in Hok;
      destruct (List.find _ _) as [f''|] eqn:Hfind; try done;
      try (injection Hok as <-; by apply find_some_elem in Hfind as [_ ?]).
    apply IH; [lia|done].
  - rewrite (FindInstanceFactory_null_parent _ _ _ Hlt Hno k Storage f Hk Hs Hin)
      in Hsup. done.
Qed.

(** X8: when [FindInstanceFactory] fails.  On a scope of the world the search
    either returns a factory or dereferences the null parent of the root; it
    returns a factory exactly when some factory in the list of the scope or
    of one of its ancestors supports the type. *)
Theorem X8_FindInstanceFactory_fails_iff_no_factory_supports this Type_ w :
  this < length (Scopes w) →
  ((∃ Factory, FindInstanceFactory host this Type_ w = (Ok Factory, w)) ↔
   ∃ k Storage f,
     k ≤ this ∧ Scopes w !! k = Some Storage ∧
     f ∈ InstanceFactories Storage ∧ IsClassSupported host f Type_ = true) ∧
  (FindInstanceFactory host this Type_ w = (Failed NullParentStorage, w) ↔
   ∀ k Storage f,
     k ≤ this → Scopes w !! k = Some Storage →
     f ∈ InstanceFactories Storage → IsClassSupported host f Type_ = false).
Proof.
  intros Hlt. split; split.
  - intros [f Hf]. by eapply FindInstanceFactory_Ok_supports.
  - intros (k & s & f & Hk & Hs & Hin & Hsup).
    destruct (FindInstanceFactory_succeeds _ _ _ _ _ _ Hlt Hk Hs Hin Hsup)
      as (f' & Hok & _). by exists f'.
  - by apply FindInstanceFactory_null_parent.
  - intros Hall. destruct (FindInstanceFactory_cases this Type_ w Hlt)
      as [[f Hok]|Hno]; [|done].
    destruct (FindInstanceFactory_Ok_supports _ _ _ _ Hlt Hok)
      as (k & s & f' & Hk & Hs & Hin & Hsup).
    rewrite (Hall k s f' Hk Hs Hin) in Hsup. done.
Qed.

End FactorySearch.

(** ** Services *)

#[local] Instance services_frame_preorder this : PreOrder (services_frame this).
Proof.
  split.
  - intros w. split; [done|]. intros k s Hs. by exists s.
  - intros w1 w2 w3 [Hl1 H1] [Hl2 H2]. split; [congruence|].
    intros k s Hs. destruct (H1 k s Hs) as (s2 & Hs2 & Ho2 & Hsub2 & Hr2 & Hf2).
    destruct (H2 k s2 Hs2) as (s3 & Hs3 & Ho3 & Hsub3 & Hr3 & Hf3).
    exists s3. split_and!; [done|congruence|by etrans| |].
    + intros Hk. by rewrite Hr3, Hr2.
    + intros Hk. by rewrite Hf3, Hf2.
Qed.

Lemma extends_services_frame this w w' : extends w w' → services_frame this w w'.
Proof.
  intros Hext. split; [apply (ext_length _ _ Hext)|]. intros k s Hs.
  destruct (decide (k = 0)) as [->|Hne].
  - destruct (ext_root _ _ Hext _ Hs) as (s' & Hs' & Hsub & Hf & Ho).
    exists s'. split_and!; done.
  - exists s. rewrite (ext_scopes _ _ Hext) by done. done.
Qed.

Lemma services_frame_set_factories this f :
  preserves (services_frame this) (set_factories this f).
Proof.
  intros w. unfold set_factories, bind, get_storage.
  destruct (Scopes w !! this) as [s|] eqn:Hs; [|reflexivity]. simpl.
  split; simpl; [by rewrite length_insert|]. intros k s' Hs'.
  destruct (decide (k = this)) as [->|Hne].
  - assert (s' = s) as -> by congruence. eexists. split.
    + apply list_lookup_insert_eq. by eapply lookup_lt_Some.
    + by simpl.
  - exists s'. by rewrite list_lookup_insert_ne.
Qed.

Section ServicesFacts.

Context (host : HostModel).

Lemma services_frame_InitServices fuel this :
  preserves (services_frame this) (InitServices host fuel this).
Proof.
  apply InitServices_preserves; [apply _| |].
  - intros scope r w. apply extends_services_frame, extends_ResolveImpl.
  - apply services_frame_set_factories.
Qed.

Lemma InitServices_factories fuel this w Storage w' :
  Scopes w !! this = Some Storage →
  InitServices host fuel this w = (Ok tt, w') →
  ∃ Storage' Objects,
    Scopes w' !! this = Some Storage' ∧
    InstanceFactories Storage' =
      reverse (InstanceFactories Storage ++ DefaultFactories host this ++ Objects).
Proof.
  intros Hs H. unfold InitServices in H. fold (AddDefaultFactory host this) in H.
  inv_bind H. destruct a.
  pose proof (lookup_lt_Some _ _ _ Hs) as Hlt.
  assert (∃ s0, Scopes w0 !! this = Some s0 ∧
            InstanceFactories s0 = InstanceFactories Storage ++ DefaultFactories host this)
    as (s0 & Hs0 & Hf0).
  { destruct this as [|p]; simpl in Hstep.
    - rewrite (set_factories_spec _ _ _ _ Hs) in Hstep. inversion Hstep; subst w0.
      eexists. split; [by apply with_factories_lookup|done].
    - unfold ret in Hstep. inversion Hstep; subst w0. exists Storage.
      simpl. by rewrite app_nil_r. }
  rewrite (bind_Ok _ _ _ _ _ (get_storage_Some _ _ _ Hs0)) in H.
  inv_bind H. destruct a. rename w1 into w3.
  assert (∃ Objects s3, Scopes w3 !! this = Some s3 ∧
            InstanceFactories s3 = InstanceFactories s0 ++ Objects)
    as (Objects & s3 & Hs3 & Hf3).
  { case_bool_decide as HUIF.
    - inv_bind Hstep0. rename a into Cells.
      apply ResolveAll_spec in Hstep1 as (_ & _ & Objects & -> & Hres).
      pose proof (ResolvedInOrder_extends _ _ _ _ _ _ Hres) as Hext.
      destruct (extends_lookup _ _ _ _ Hext Hs0) as (s1 & Hs1 & Hf1 & Ho1).
      rewrite (CopyCollection_spec _ _ _ _ Hs1) in Hstep0.
      exists Objects. case_decide as Hnil.
      + inversion Hstep0; subst w3. exists s1. split; [done|].
        by rewrite Hf1, Hnil, app_nil_r.
      + inversion Hstep0; subst w3. eexists. split.
        * apply with_factories_lookup. by eapply lookup_lt_Some.
        * simpl. by rewrite Hf1.
    - unfold ret in Hstep0. inversion Hstep0; subst w3.
      exists [], s0. split; [done|]. by rewrite app_nil_r. }
  rewrite (set_factories_spec _ _ _ _ Hs3) in H. inversion H; subst w'.
  eexists. exists Objects. split.
  - apply with_factories_lookup. by eapply lookup_lt_Some.
  - simpl. by rewrite Hf3, Hf0, <- app_assoc.
Qed.

(** X9: the root always finds a factory for what its default factory
    supports.  After a successful [InitServices] on the root the default
    factory is in the list of the root, whatever the list held before, and
    the factory search of every scope of the world returns a factory for
    every type that the default factory supports. *)
Theorem X9_default_factory_makes_search_succeed fuel w w' Type_ :
  InitServices host fuel 0 w = (Ok tt, w') →
  (∃ Root', Scopes w' !! 0 = Some Root' ∧
     UDefaultInstanceFactory_Default host ∈ InstanceFactories Root') ∧
  (IsClassSupported host (UDefaultInstanceFactory_Default host) Type_ = true →
   ∀ k, k < length (Scopes w') →
     ∃ Factory, FindInstanceFactory host k Type_ w' = (Ok Factory, w') ∧
       IsClassSupported host Factory Type_ = true).
Proof.
  intros H.
  assert (∃ Root, Scopes w !! 0 = Some Root) as [Root HRoot].
  { destruct (Scopes w !! 0) as [s|] eqn:Hs; [by exists s|].
    unfold InitServices in H. simpl in H. unfold set_factories in H.
    by rewrite (bind_Failed _ _ _ _ _
                  (bind_Failed _ _ _ _ _ (get_storage_None _ _ Hs))) in H. }
  destruct (InitServices_factories _ _ _ _ _ HRoot H) as (Root' & Objects & HRoot' & Hf).
  assert (UDefaultInstanceFactory_Default host ∈ InstanceFactories Root') as Hin.
  { rewrite Hf. apply elem_of_reverse. simpl. set_solver. }
  split; [by exists Root'|].
  intros Hsup k Hk. eapply (FindInstanceFactory_succeeds host k Type_ w' 0); try done. lia.
Qed.

(** X10: [InitServices] on a scope that has no entry of its own for
    [UInstanceFactory].  It always succeeds, whatever the fuel and whatever
    its ancestors have registered; it resolves nothing and creates nothing:
    only the list of the scope changes, to the reverse of what it held, with
    the default factory added for the root.  A new scope with a parent thus
    has an empty list, and its factory search is that of its parent. *)
Theorem X10_InitServices_without_local_factory_binding fuel this w Storage :
  Scopes w !! this = Some Storage →
  Registrations Storage !! UInstanceFactory_StaticClass host = None →
  let w' := with_factories this Storage
              (reverse (InstanceFactories Storage ++ DefaultFactories host this)) w in
  InitServices host fuel this w = (Ok tt, w') ∧
  (InstanceFactories Storage = [] →
   ∀ ParentStorage Type_, this = S ParentStorage →
     (FindInstanceFactory host this Type_ w').1
     = (FindInstanceFactory host ParentStorage Type_ w).1).
Proof.
  intros Hs HUIF w'. pose proof (lookup_lt_Some _ _ _ Hs) as Hlt. split.
  - unfold InitServices. fold (AddDefaultFactory host this).
    assert (∃ w0 s0, AddDefaultFactory host this w = (Ok tt, w0) ∧
              Scopes w0 !! this = Some s0 ∧
              Registrations s0 = Registrations Storage ∧
              with_factories this s0
                (reverse (InstanceFactories s0)) w0 = w')
      as (w0 & s0 & Hstep & Hs0 & Hr0 & Hw0).
    { destruct this as [|p]; simpl.
      - rewrite (set_factories_spec _ _ _ _ Hs). eexists. eexists.
        split; [done|]. split; [by apply with_factories_lookup|].
        split; [done|]. simpl. by rewrite with_factories_twice.
      - exists w, Storage. split; [done|]. split; [done|]. split; [done|].
        subst w'. simpl. by rewrite app_nil_r. }
    rewrite (bind_Ok _ _ _ _ _ Hstep).
    rewrite (bind_Ok _ _ _ _ _ (get_storage_Some _ _ _ Hs0)).
    rewrite Hr0, HUIF. rewrite bool_decide_eq_false_2 by (by apply is_Some_None).
    rewrite (bind_Ok _ _ _ _ _ (eq_refl : ret tt w0 = (Ok tt, w0))).
    by rewrite (set_factories_spec _ _ _ _ Hs0), Hw0.
  - intros Hnil p T ->. subst w'. rewrite Hnil.
    change (reverse ([] ++ DefaultFactories host (S p))) with (@nil UObject).
    erewrite (FindInstanceFactory_spec host (S p));
      [|by apply with_factories_lookup].
    cbn [InstanceFactories List.find].
    apply FindInstanceFactory_agree. intros j Hj. simpl.
    by rewrite list_lookup_insert_ne by lia.
Qed.

(** X11: the frame of [InitServices].  Whatever its outcome, [InitServices]
    on a scope changes the factory list of that scope only: the outer of
    every scope, the table of every scope but the root and the factory list
    of every other scope are unchanged, and the root loses no entry.  So the
    factory search of every ancestor of the scope is unchanged. *)
Theorem X11_InitServices_changes_own_factory_list_only fuel this w :
  services_frame this w (InitServices host fuel this w).2 ∧
  ∀ k Type_, k < this →
    (FindInstanceFactory host k Type_ (InitServices host fuel this w).2).1
    = (FindInstanceFactory host k Type_ w).1.
Proof.
  pose proof (services_frame_InitServices fuel this w) as [Hlen Hframe].
  split; [done|]. intros k T Hk. apply FindInstanceFactory_agree. intros j Hj.
  destruct (Scopes w !! j) as [s|] eqn:Hs.
  - destruct (Hframe j s Hs) as (s' & -> & _ & _ & _ & Hf). simpl.
    rewrite Hf by lia. done.
  - apply lookup_ge_None in Hs. rewrite <- Hlen in Hs.
    apply lookup_ge_None in Hs. by rewrite Hs.
Qed.

End ServicesFacts.

(** ** What a resolution leaves alone *)

Section ResolutionFrame.

Context (host : HostModel).

Lemma IsRegistered_extends this Type_ w w' :
  extends w w' → IsRegistered this Type_ w = true → IsRegistered this Type_ w' = true.
Proof.
  intros Hext. induction this as [|p IH];
    rewrite (IsRegistered_eq _ Type_ w), (IsRegistered_eq _ Type_ w');
    (destruct (Scopes w !! _) as [s|] eqn:Hs; [|done]).
  - destruct (ext_root _ _ Hext _ Hs) as (s' & -> & Hsub & _).
    case_bool_decide as HT; [|done]. intros _.
    rewrite bool_decide_eq_true_2; [done|]. by eapply lookup_weaken_is_Some.
  - rewrite (ext_scopes _ _ Hext) by done. rewrite Hs.
    case_bool_decide; [done|]. apply IH.
Qed.

Lemma GetResolver_extends this Type_ w Resolver w' :
  GetResolver host this Type_ w = (Ok Resolver, w) →
  extends w w' →
  GetResolver host this Type_ w' = (Ok Resolver, w').
Proof.
  intros H Hext. induction this as [|p IH];
    rewrite GetResolver_eq in H; unfold bind at 1, get_storage in H;
    (destruct (Scopes w !! _) as [s|] eqn:Hs; [|done]);
    destruct (Registrations s !! Type_) as [rs|] eqn:Hrs.
  - destruct (last rs) as [r|] eqn:Hl; [|done]. injection H as <-.
    destruct (ext_root _ _ Hext _ Hs) as (s' & Hs' & Hsub & _).
    eapply GetResolver_local; [done| |done]. by eapply lookup_weaken.
  - destruct (IsChildOf_UInterface host Type_); [done|].
    simpl in H. injection H as _ Hw. apply (f_equal Handlers) in Hw. simpl in Hw.
    apply (f_equal length) in Hw. rewrite length_app in Hw. simpl in Hw. lia.
  - destruct (last rs) as [r|] eqn:Hl; [|done]. injection H as <-.
    eapply GetResolver_local; [|done..]. by rewrite (ext_scopes _ _ Hext).
  - rewrite (GetResolver_parent host p Type_ w' s);
      [by apply IH|by rewrite (ext_scopes _ _ Hext)|done].
Qed.

(** X12: what [Resolve] and [ResolveAll] leave alone, whatever their outcome.
    No scope but the root is touched; the root keeps its factories, its outer
    and every entry of its table, and can only gain entries for types it had
    none for.  So the factory search of every scope is unchanged, and a type
    that was registered on a scope stays registered. *)
Theorem X12_resolution_touches_only_new_root_entries fuel this Type_ w w' :
  w' = (Resolve host fuel this Type_ w).2
  ∨ w' = (ResolveAll host fuel this (Some Type_) w).2 →
  extends w w' ∧
  (∀ k, k ≠ 0 → Scopes w' !! k = Scopes w !! k) ∧
  (∀ k Type', (FindInstanceFactory host k Type' w').1
              = (FindInstanceFactory host k Type' w).1) ∧
  (∀ k Type', IsRegistered k Type' w = true → IsRegistered k Type' w' = true).
Proof.
  intros Hw'. assert (extends w w') as Hext.
  { destruct Hw' as [->| ->]; [apply extends_Resolve|apply extends_ResolveAll]. }
  split_and!; [done|apply (ext_scopes _ _ Hext)| |].
  - intros k T. apply FindInstanceFactory_agree. intros j _.
    destruct (Scopes w !! j) as [s|] eqn:Hs.
    + destruct (extends_lookup _ _ _ _ Hext Hs) as (s' & -> & Hf & _).
      simpl. by rewrite Hf.
    + apply lookup_ge_None in Hs. rewrite <- (ext_length _ _ Hext) in Hs.
      apply lookup_ge_None in Hs. by rewrite Hs.
  - intros k T. by apply IsRegistered_extends.
Qed.

(** X13: a registered type keeps its binding.  If the lookup of single
    resolve returns a binding on a scope without auto-registering, it returns
    the same binding, again without changing anything, in every world
    reached by resolving: after any [Resolve] and any [ResolveAll], on any
    scope, for any type, with any outcome. *)
Theorem X13_registered_type_keeps_its_binding this Type_ w Resolver :
  GetResolver host this Type_ w = (Ok Resolver, w) →
  (∀ w', extends w w' → GetResolver host this Type_ w' = (Ok Resolver, w')) ∧
  (∀ fuel scope Type',
     GetResolver host this Type_ (Resolve host fuel scope Type' w).2
     = (Ok Resolver, (Resolve host fuel scope Type' w).2)) ∧
  (∀ fuel scope Type',
     GetResolver host this Type_ (ResolveAll host fuel scope Type' w).2
     = (Ok Resolver, (ResolveAll host fuel scope Type' w).2)).
Proof.
  intros H. split_and!.
  - intros w' Hext. by eapply GetResolver_extends.
  - intros. eapply GetResolver_extends; [done|apply extends_Resolve].
  - intros. eapply GetResolver_extends; [done|apply extends_ResolveAll].
Qed.

End ResolutionFrame.

(** ** The outer of created objects *)

Section OuterOfCreated.

Context (host : HostModel) (this : nat) (Outer : UObject).

#[local] Instance creates_in_preorder : PreOrder (creates_in this Outer).
Proof.
  split.
  - intros w. split; [done|]. intros _. exists []. by rewrite app_nil_r.
  - intros w1 w2 w3 [Hext1 H1] [Hext2 H2]. split; [by etrans|].
    intros (s & Hs & Ho). destruct (H1 (ex_intro _ s (conj Hs Ho))) as (n1 & Ht1 & Hn1).
    destruct (extends_lookup _ _ _ _ Hext1 Hs) as (s2 & Hs2 & _ & Ho2).
    destruct H2 as (n2 & Ht2 & Hn2); [exists s2; split; [done|congruence]|].
    exists (n1 ++ n2). split; [by rewrite Ht2, Ht1, <- app_assoc|by apply Forall_app].
Qed.

Lemma creates_in_quiet {A} (m : M A) :
  preserves extends m → (∀ w, Trace (m w).2 = Trace w) →
  preserves (creates_in this Outer) m.
Proof.
  intros Hext Htr w. split; [done|]. intros _. exists []. by rewrite app_nil_r.
Qed.

Lemma creates_in_emit e :
  created_with Outer e → preserves (creates_in this Outer) (emit e).
Proof.
  intros He w. split; [apply extends_emit|]. intros _. exists [e].
  split; [done|by constructor].
Qed.

Lemma creates_in_set_handler h Object :
  preserves (creates_in this Outer) (set_handler h Object).
Proof.
  intros w. split; [apply extends_set_handler|]. intros _. exists [EvSet h Object].
  split; [done|by repeat constructor].
Qed.

Lemma creates_in_SelectResolver Type_ :
  preserves (creates_in this Outer) (SelectResolver host this Type_).
Proof.
  intros w. split; [apply extends_SelectResolver|]. intros _.
  unfold SelectResolver, bind.
  pose proof (GetResolver_trace host this Type_ w) as Htr.
  destruct (GetResolver host this Type_ w) as [[r| |] w1]; simpl in *;
    [|exists []; by rewrite app_nil_r, Htr..].
  exists [EvResolve this Type_ r]. rewrite Htr. split; [done|by repeat constructor].
Qed.

Section Open.

Context (resolve : nat → UClass → M UObject).
Hypothesis R_resolve : ∀ Type_, preserves (creates_in this Outer) (resolve this Type_).

Lemma creates_in_Inject_ Object :
  preserves (creates_in this Outer) (Inject_ host resolve this Object).
Proof using R_resolve.
  unfold Inject_. apply preserves_bind; [apply _| |].
  { destruct (FindInitFunctions host (GetClass Object)).1; [|by apply preserves_ret; apply _].
    apply preserves_bind; [apply _|by apply ResolveDependencies_preserves; try apply _|].
    intros deps. by apply creates_in_emit. }
  intros _. apply preserves_bind; [apply _| |].
  { destruct (FindInitFunctions host (GetClass Object)).2; [|by apply preserves_ret; apply _].
    apply preserves_bind; [apply _|by apply PrepareArguments_preserves; try apply _|].
    intros args. case_decide; [by apply creates_in_emit|by apply preserves_fail; apply _]. }
  intros _. by apply preserves_ret; apply _.
Qed.

Lemma creates_in_ResolveImpl_ Resolver :
  preserves (creates_in this Outer) (ResolveImpl_ host resolve this Resolver).
Proof using R_resolve.
  intros w. unfold ResolveImpl_, bind at 1, get_handler.
  destruct (Handlers w !! _) as [h|]; simpl; [|reflexivity].
  destruct (LifetimeHandler_Get h); simpl; [reflexivity|].
  destruct (LoadSynchronous _) as [C|]; simpl; [|reflexivity].
  unfold bind at 1.
  pose proof (read_only_FindInstanceFactory host this C w) as HF.
  destruct (FindInstanceFactory host this C w) as [[f| |] w1]; simpl in HF; subst w1;
    [|reflexivity..].
  unfold bind at 1, get_storage.
  destruct (Scopes w !! this) as [s|] eqn:Hs; simpl; [|reflexivity].
  destruct (FactoryCreate host f (OuterForNewObject s) C) as [Class|]; simpl;
    [|reflexivity].
  unfold bind at 1, new_object. unfold bind at 1, emit. cbn [fst snd].
  match goal with |- creates_in _ _ _ (?K ?w2).2 =>
    transitivity w2;
      [|assert (preserves (creates_in this Outer) K) as HK; [|apply HK]] end.
  - split.
    + etrans; [apply (extends_new_object Class w)|]. apply extends_emit.
    + intros (s' & Hs' & Ho). eexists. split; [done|].
      constructor; [|done]. simpl. congruence.
  - apply preserves_bind; [apply _|apply creates_in_Inject_|]. intros _.
    apply preserves_bind; [apply _|by apply creates_in_emit|]. intros _.
    apply preserves_bind; [apply _|apply creates_in_set_handler|]. intros _.
    by apply preserves_ret; apply _.
Qed.

End Open.

Lemma creates_in_Resolve fuel Type_ :
  preserves (creates_in this Outer) (Resolve host fuel this Type_).
Proof.
  revert Type_. induction fuel as [|fuel IH]; intros T.
  - by apply preserves_out_of_fuel; apply _.
  - intros w. rewrite Resolve_SelectResolver. revert w.
    apply preserves_bind; [apply _|apply creates_in_SelectResolver|]. intros r.
    by apply creates_in_ResolveImpl_.
Qed.

Lemma creates_in_ResolveImpl fuel Resolver :
  preserves (creates_in this Outer) (ResolveImpl host fuel this Resolver).
Proof. apply creates_in_ResolveImpl_. intros T. apply creates_in_Resolve. Qed.

End OuterOfCreated.

(** X15: objects are created in the context of the resolving scope.  Every
    object created while a type is resolved through a scope, or while a
    binding is resolved on a scope, the dependencies at any depth included,
    is created with the outer of that scope, also when the binding is an
    ancestor's; whatever the outcome. *)
Theorem X15_objects_created_with_outer_of_resolving_scope host fuel this w Storage :
  Scopes w !! this = Some Storage →
  (∀ Type_, ∃ new,
     Trace (Resolve host fuel this Type_ w).2 = Trace w ++ new ∧
     Forall (created_with (OuterForNewObject Storage)) new) ∧
  (∀ Resolver, ∃ new,
     Trace (ResolveImpl host fuel this Resolver w).2 = Trace w ++ new ∧
     Forall (created_with (OuterForNewObject Storage)) new).
Proof.
  intros Hs. split.
  - intros T.
    destruct (creates_in_Resolve host this (OuterForNewObject Storage) fuel T w)
      as [_ H]. apply H. by exists Storage.
  - intros r.
    destruct (creates_in_ResolveImpl host this (OuterForNewObject Storage) fuel r w)
      as [_ H]. apply H. by exists Storage.
Qed.

(** ** Injection *)

Section Marshalling.

Context (host : HostModel).

Lemma PrepareArguments_shape resolve this It w Arguments w' :
  PrepareArguments resolve this It w = (Ok Arguments, w') →
  Forall2 marshals (List.filter IsMarshalled It) Arguments.
Proof.
  revert w Arguments. induction It as [|p It IH]; intros w args H; simpl in H.
  - unfold ret in H. inversion H. constructor.
  - cbn [List.filter]. unfold IsMarshalled at 1.
    destruct (HasParmFlag p); simpl; [|by eapply IH].
    destruct (PropertyKind p) as [C|C|] eqn:Hkind; simpl; [| |by eapply IH].
    + inv_bind H. inv_bind H. unfold ret in H. inversion H; subst.
      constructor; [by unfold marshals; rewrite Hkind|by eapply IH].
    + inv_bind H. inv_bind H. unfold ret in H. inversion H; subst.
      constructor; [by unfold marshals; rewrite Hkind|by eapply IH].
Qed.

Lemma marshals_size It Arguments :
  Forall2 marshals (List.filter IsMarshalled It) Arguments →
  sizeof_Arguments Arguments = MarshalledSize It.
Proof.
  unfold MarshalledSize. generalize (List.filter IsMarshalled It). intros ps H.
  induction H as [|p a ps args Hpa _ IH]; simpl; [done|].
  rewrite <- IH. unfold sizeof_Arguments. simpl.
  unfold marshals in Hpa. by destruct (PropertyKind p), a.
Qed.

Lemma ResolveDependencies_length resolve this Types w Deps w' :
  ResolveDependencies resolve this Types w = (Ok Deps, w') →
  length Deps = length Types.
Proof.
  revert w Deps. induction Types as [|T Ts IH]; intros w deps H; simpl in H.
  - unfold ret in H. by inversion H.
  - inv_bind H. inv_bind H. unfold ret in H. inversion H; subst. simpl.
    f_equal. by eapply IH.
Qed.

(** X17: what [Inject] hands to the initializers.  When [Inject] returns on
    an instance whose class has a blueprint initializer, [ProcessEvent] was
    the last thing it did, with one argument for each parameter of the
    function that is an object or an interface property, in their order and
    of their kind (other properties are skipped), and the size that the
    function declares for its parameters is exactly the size of these
    arguments; a native initializer, if the class has one too, was called
    before, with as many dependencies as it asks for. *)
Theorem X17_Inject_marshals_object_and_interface_parameters
    fuel this Object w Injected w' Function :
  Inject host fuel this Object w = (Ok Injected, w') →
  (FindInitFunctions host (GetClass Object)).2 = Some Function →
  ∃ Arguments Before,
    Forall2 marshals (List.filter IsMarshalled (Properties Function)) Arguments ∧
    ParmsSize Function = MarshalledSize (Properties Function) ∧
    sizeof_Arguments Arguments = ParmsSize Function ∧
    Trace w' = Trace w ++ Before ++ [EvProcessEvent Object Arguments] ∧
    ∀ Types, (FindInitFunctions host (GetClass Object)).1 = Some Types →
      ∃ Earlier Deps Later,
        Before = Earlier ++ [EvNativeInit Object this Deps] ++ Later ∧
        length Deps = length Types.
Proof.
  intros H HF. unfold Inject, Inject_ in H. rewrite HF in H.
  inv_bind H. destruct a. rename w0 into w1.
  inv_bind H. destruct a. unfold ret in H. inversion H; subst Injected w0. clear H.
  inv_bind Hstep0. rename a into args. rename w0 into wb.
  case_decide as Hsize; [|done].
  unfold emit in Hstep0. inversion Hstep0; subst w'. clear Hstep0. simpl.
  pose proof (PrepareArguments_shape _ _ _ _ _ _ Hstep1) as Hshape.
  pose proof (marshals_size _ _ Hshape) as Hm.
  pose proof (PrepareArguments_preserves extends this (Resolve host fuel)
                (λ T, extends_Resolve host fuel this T) (Properties Function) w1)
    as Hext2.
  rewrite Hstep1 in Hext2. destruct (ext_trace _ _ Hext2) as [Later HLater].
  simpl in HLater.
  destruct (FindInitFunctions host (GetClass Object)).1 as [Types|] eqn:HN.
  - inv_bind Hstep. rename a into deps. rename w0 into wa.
    unfold emit in Hstep. inversion Hstep; subst w1. clear Hstep. simpl in *.
    pose proof (ResolveDependencies_preserves extends this (Resolve host fuel)
                  (λ T, extends_Resolve host fuel this T) Types w) as Hext1.
    rewrite Hstep0 in Hext1. destruct (ext_trace _ _ Hext1) as [Earlier HEarlier].
    simpl in HEarlier.
    exists args, (Earlier ++ [EvNativeInit Object this deps] ++ Later).
    split_and!; [done|congruence|done| |].
    + rewrite HLater, HEarlier. by rewrite <- !app_assoc.
    + intros Types' [= <-]. exists Earlier, deps, Later. split; [done|].
      by eapply ResolveDependencies_length.
  - unfold ret in Hstep. inversion Hstep; subst w1. clear Hstep.
    exists args, Later. split_and!; [done|congruence|done| |done].
    rewrite HLater. by rewrite <- !app_assoc.
Qed.

End Marshalling.

(** ** How resolution can fail *)

Lemma fails_only_ret P {A} (a : A) : fails_only P (ret a).
Proof. by intros w e. Qed.

Lemma fails_only_out_of_fuel P {A} : fails_only P (@out_of_fuel A).
Proof. by intros w e. Qed.

Lemma fails_only_fail (P : Failure → Prop) {A} e : P e → fails_only P (@fail A e).
Proof. intros He w e' [= <-]. done. Qed.

Lemma fails_only_bind P {A B} (m : M A) (f : A → M B) :
  fails_only P m → (∀ a, fails_only P (f a)) → fails_only P (bind m f).
Proof.
  intros Hm Hf w e. unfold bind. specialize (Hm w).
  destruct (m w) as [[a|e'|] w1]; simpl in *.
  - apply Hf.
  - intros [= <-]. by apply Hm.
  - done.
Qed.

Lemma fails_only_get_storage host this : fails_only (ResolveFailure host) (get_storage this).
Proof.
  intros w e. unfold get_storage. destruct (Scopes w !! this); [done|].
  by intros [= <-].
Qed.

Lemma fails_only_get_handler host h : fails_only (ResolveFailure host) (get_handler h).
Proof.
  intros w e. unfold get_handler. destruct (Handlers w !! h); [done|].
  by intros [= <-].
Qed.

Section Failures.

Context (host : HostModel).

Lemma fails_only_GetResolver this Type_ :
  fails_only (ResolveFailure host) (GetResolver host this Type_).
Proof.
  induction this as [|p IH]; rewrite GetResolver_eq;
    (apply fails_only_bind; [apply fails_only_get_storage|]); intros s;
    (destruct (Registrations s !! Type_);
      [destruct (last _); [apply fails_only_ret|by apply fails_only_fail]|]);
    [|done].
  destruct (IsChildOf_UInterface host Type_) eqn:Hi; [by apply fails_only_fail|].
  apply fails_only_bind; [done|]. intros h. apply fails_only_bind; [done|].
  intros _. apply fails_only_ret.
Qed.

Lemma fails_only_FindInstanceFactory this Type_ :
  fails_only (ResolveFailure host) (FindInstanceFactory host this Type_).
Proof.
  induction this as [|p IH]; rewrite FindInstanceFactory_eq;
    (apply fails_only_bind; [apply fails_only_get_storage|]); intros s;
    (destruct (List.find _ _); [apply fails_only_ret|]); [|done].
  by apply fails_only_fail.
Qed.

Section Open.

Context (resolve : nat → UClass → M UObject) (this : nat).
Hypothesis F_resolve : ∀ Type_, fails_only (ResolveFailure host) (resolve this Type_).

Lemma fails_only_ResolveDependencies Types :
  fails_only (ResolveFailure host) (ResolveDependencies resolve this Types).
Proof using F_resolve.
  induction Types as [|T Ts IH]; simpl; [apply fails_only_ret|].
  apply fails_only_bind; [done|]. intros o.
  apply fails_only_bind; [done|]. intros os. apply fails_only_ret.
Qed.

Lemma fails_only_PrepareArguments It :
  fails_only (ResolveFailure host) (PrepareArguments resolve this It).
Proof using F_resolve.
  induction It as [|p It IH]; simpl; [apply fails_only_ret|].
  destruct (HasParmFlag p); [|done].
  destruct (PropertyKind p); [| |done];
    (apply fails_only_bind; [done|]; intros o;
     apply fails_only_bind; [done|]; intros os; apply fails_only_ret).
Qed.

Lemma fails_only_Inject_ Object :
  fails_only (ResolveFailure host) (Inject_ host resolve this Object).
Proof using F_resolve.
  unfold Inject_. apply fails_only_bind.
  { destruct (FindInitFunctions host (GetClass Object)).1; [|apply fails_only_ret].
    apply fails_only_bind; [apply fails_only_ResolveDependencies|]. by intros deps. }
  intros _. apply fails_only_bind.
  { destruct (FindInitFunctions host (GetClass Object)).2; [|apply fails_only_ret].
    apply fails_only_bind; [apply fails_only_PrepareArguments|].
    intros args. case_decide; [done|by apply fails_only_fail]. }
  intros _. apply fails_only_ret.
Qed.

Lemma fails_only_ResolveImpl_ Resolver :
  fails_only (ResolveFailure host) (ResolveImpl_ host resolve this Resolver).
Proof using F_resolve.
  unfold ResolveImpl_. apply fails_only_bind; [apply fails_only_get_handler|].
  intros h. destruct (LifetimeHandler_Get h); [apply fails_only_ret|].
  destruct (LoadSynchronous _); [|by apply fails_only_fail].
  apply fails_only_bind; [apply fails_only_FindInstanceFactory|]. intros f.
  apply fails_only_bind; [apply fails_only_get_storage|]. intros s.
  destruct (FactoryCreate _ _ _ _); [|by apply fails_only_fail].
  apply fails_only_bind; [done|]. intros o.
  apply fails_only_bind; [done|]. intros _.
  apply fails_only_bind; [apply fails_only_Inject_|]. intros _.
  apply fails_only_bind; [done|]. intros _.
  apply fails_only_bind; [done|]. intros _. apply fails_only_ret.
Qed.

End Open.

Lemma fails_only_Resolve fuel this Type_ :
  fails_only (ResolveFailure host) (Resolve host fuel this Type_).
Proof.
  revert Type_. induction fuel as [|fuel IH]; intros T; simpl.
  - apply fails_only_out_of_fuel.
  - apply fails_only_bind; [apply fails_only_GetResolver|]. intros r.
    apply fails_only_bind; [done|]. intros _.
    by apply fails_only_ResolveImpl_.
Qed.

Lemma fails_only_ResolveImpl fuel this Resolver :
  fails_only (ResolveFailure host) (ResolveImpl host fuel this Resolver).
Proof. apply fails_only_ResolveImpl_. intros T. apply fails_only_Resolve. Qed.

End Failures.

(** ** Collect-all and its buffer *)

Section BufferSafety.

Context (host : HostModel).

Lemma fails_only_AppendResolvers fuel scope Resolvers Written Free :
  length Resolvers ≤ Free →
  fails_only (ResolveFailure host)
    (AppendResolvers host (Resolve host fuel) scope Resolvers (buffer_of Written Free)).
Proof.
  revert Written Free. induction Resolvers as [|r rs IH]; intros ws n Hn; simpl.
  - apply fails_only_ret.
  - apply fails_only_bind; [apply fails_only_ResolveImpl|]. intros o.
    destruct n as [|n]; [simpl in Hn; lia|].
    intros w e. rewrite (bind_Ok _ _ _ _ _ (write_buffer_of _ _ _ _)).
    apply IH. simpl in Hn. lia.
Qed.

Lemma fails_only_AppendObjectsCollection fuel this Type_ Written Free w e :
  length (ChainBindings this Type_ w) ≤ Free →
  (AppendObjectsCollection host fuel this Type_ (buffer_of Written Free) w).1
    = Failed e →
  ResolveFailure host e.
Proof.
  revert Written Free w e.
  induction this as [|p IH]; intros ws n w e Hn;
    unfold AppendObjectsCollection; simpl in *.
  - rewrite (bind_Ok _ _ _ _ _ (eq_refl : ret _ w = (Ok _, w))).
    destruct (Scopes w !! 0) as [s|] eqn:Hs.
    + rewrite (bind_Ok _ _ _ _ _ (get_storage_Some _ _ _ Hs)).
      destruct (Registrations s !! Type_) as [rs|]; simpl in Hn; [|done].
      apply fails_only_AppendResolvers. by rewrite length_fmap in Hn.
    + rewrite (bind_Failed _ _ _ _ _ (get_storage_None _ _ Hs)). by intros [= <-].
  - fold (AppendObjectsCollection host fuel p). rewrite length_app in Hn.
    unfold bind at 1.
    destruct (AppendObjectsCollection host fuel p Type_ (buffer_of ws n) w)
      as [[b1|e1|] w1] eqn:Hp; simpl; [|intros [= <-]|done].
    2:{ apply (IH ws n w); [lia|]. by rewrite Hp. }
    apply AppendObjectsCollection_spec in Hp as (os & Hres & _ & ->).
    pose proof (ResolvedInOrder_extends _ _ _ _ _ _ Hres) as Hext.
    pose proof (ResolvedInOrder_length _ _ _ _ _ _ Hres) as Hl.
    destruct (Scopes w !! S p) as [s|] eqn:Hs.
    + rewrite <- (ext_scopes _ _ Hext (S p)) in Hs by done.
      rewrite (bind_Ok _ _ _ _ _ (get_storage_Some _ _ _ Hs)).
      destruct (Registrations s !! Type_) as [rs|]; simpl in Hn; [|done].
      apply fails_only_AppendResolvers. rewrite length_fmap in Hn. lia.
    + rewrite <- (ext_scopes _ _ Hext (S p)) in Hs by done.
      rewrite (bind_Failed _ _ _ _ _ (get_storage_None _ _ Hs)). by intros [= <-].
Qed.

Lemma TotalResolvers_cases this Type_ w :
  TotalResolvers this Type_ w = (Ok (length (ChainBindings this Type_ w)), w) ∨
  TotalResolvers this Type_ w = (Failed InvalidStorage, w).
Proof.
  destruct (decide (this < length (Scopes w))) as [Hlt|Hge].
  - left. by apply TotalResolvers_ChainBindings.
  - right. assert (Scopes w !! this = None) as Hs by (apply lookup_ge_None_2; lia).
    destruct this; simpl;
      by rewrite (bind_Failed _ _ _ _ _ (get_storage_None _ _ Hs)).
Qed.

Lemma ResolveAll_failure fuel this Type_ w e :
  (ResolveAll host fuel this Type_ w).1 = Failed e →
  ResolveFailure host e ∨
  (Type_ = None ∧ e = NullType) ∨
  (∃ T, Type_ = Some T ∧ e = TypeNotRegistered T ∧ ChainBindings this T w = []).
Proof.
  unfold ResolveAll, ResolveAll_. destruct Type_ as [T|]; [|intros [= <-]; auto].
  destruct (TotalResolvers_cases this T w) as [H|H].
  2:{ rewrite (bind_Failed _ _ _ _ _ H). intros [= <-]. by left. }
  rewrite (bind_Ok _ _ _ _ _ H). case_decide as Hpos.
  - intros Hf. left.
    fold (AppendObjectsCollection host fuel) in Hf.
    change (mkBuffer (replicate (length (ChainBindings this T w)) None) 0)
      with (buffer_of [] (length (ChainBindings this T w))) in Hf.
    unfold bind in Hf.
    destruct (AppendObjectsCollection host fuel this T _ w) as [[b|e1|] w1] eqn:Ha;
      [done| |done].
    simpl in Hf. injection Hf as <-.
    eapply (fails_only_AppendObjectsCollection fuel this T []); [|by rewrite Ha]. done.
  - intros [= <-]. right. right. exists T. split_and!; [done..|].
    destruct (ChainBindings this T w); [done|simpl in Hpos; lia].
Qed.

Lemma fails_only_set_factories this f :
  fails_only (ResolveFailure host) (set_factories this f).
Proof.
  unfold set_factories. apply fails_only_bind; [apply fails_only_get_storage|].
  intros s w e. unfold put_storage. done.
Qed.

Lemma fails_only_CopyCollection this Objects :
  fails_only (ResolveFailure host) (CopyCollection this (Some <$> Objects)).
Proof.
  induction Objects as [|o os IH]; simpl; [apply fails_only_ret|].
  apply fails_only_bind; [apply fails_only_set_factories|]. by intros _.
Qed.

End BufferSafety.

Section CollectFailures.

Context (host : HostModel).

Lemma ResolveFailure_not_buffer e :
  ResolveFailure host e → e ≠ BufferOverrun ∧ e ≠ UninitializedRead.
Proof. by destruct e. Qed.

Lemma fails_only_weaken (P Q : Failure → Prop) {A} (m : M A) :
  (∀ e, P e → Q e) → fails_only P m → fails_only Q m.
Proof. intros HPQ Hm w e He. eapply HPQ, Hm, He. Qed.

Lemma InitServices_failure fuel this :
  fails_only (λ e, e ≠ BufferOverrun ∧ e ≠ UninitializedRead)
    (InitServices host fuel this).
Proof.
  assert (∀ A (m : M A), fails_only (ResolveFailure host) m →
            fails_only (λ e, e ≠ BufferOverrun ∧ e ≠ UninitializedRead) m) as Hweak.
  { intros A m. apply fails_only_weaken, ResolveFailure_not_buffer. }
  unfold InitServices. apply fails_only_bind.
  { destruct this; [apply Hweak, fails_only_set_factories|apply fails_only_ret]. }
  intros _. apply fails_only_bind; [apply Hweak, fails_only_get_storage|].
  intros s. apply fails_only_bind; [|intros _; apply Hweak, fails_only_set_factories].
  case_bool_decide; [|apply fails_only_ret].
  intros w e. unfold bind.
  destruct (ResolveAll host fuel this (Some (UInstanceFactory_StaticClass host)) w)
    as [[Cells|e1|] w1] eqn:Hall; simpl; [| |done].
  - apply ResolveAll_spec in Hall as (_ & _ & os & -> & _).
    intros He. by eapply ResolveFailure_not_buffer, fails_only_CopyCollection.
  - intros [= <-].
    destruct (ResolveAll_failure host fuel this
                (Some (UInstanceFactory_StaticClass host)) w e1)
      as [He|[[_ ->]|(T & _ & -> & _)]];
      [by rewrite Hall|by apply ResolveFailure_not_buffer|done..].
Qed.

End CollectFailures.

(** X18: collect-all on a scope whose own table has no entry for the type is
    collect-all on its parent: the same outcome and the same world, so that
    the objects are created by the ancestors that hold the bindings. *)
Theorem X18_ResolveAll_without_local_binding_is_the_parents
    host fuel ParentStorage Type_ w Storage :
  Scopes w !! S ParentStorage = Some Storage →
  Registrations Storage !! Type_ = None →
  ResolveAll host fuel (S ParentStorage) (Some Type_) w =
  ResolveAll host fuel ParentStorage (Some Type_) w.
Proof.
  intros Hs Hr. unfold ResolveAll, ResolveAll_.
  assert (TotalResolvers (S ParentStorage) Type_ w =
          TotalResolvers ParentStorage Type_ w) as Heq.
  { cbn [TotalResolvers]. rewrite (bind_Ok _ _ _ _ _ (get_storage_Some _ _ _ Hs)), Hr.
    unfold bind, ret.
    by destruct (TotalResolvers ParentStorage Type_ w) as [[n| |] w1]. }
  destruct (TotalResolvers_cases ParentStorage Type_ w) as [Ht|Ht].
  2:{ rewrite (bind_Failed _ _ _ _ _ Ht). rewrite <- Heq in Ht.
      by rewrite (bind_Failed _ _ _ _ _ Ht). }
  rewrite (bind_Ok _ _ _ _ _ Ht). rewrite <- Heq in Ht.
  rewrite (bind_Ok _ _ _ _ _ Ht).
  set (Total := length (ChainBindings ParentStorage Type_ w)).
  case_decide; [|done].
  fold (AppendObjectsCollection host fuel).
  change (mkBuffer (replicate Total None) 0) with (buffer_of [] Total).
  unfold AppendObjectsCollection at 1. cbn [AppendObjectsCollection_].
  fold (AppendObjectsCollection host fuel ParentStorage).
  unfold bind.
  destruct (AppendObjectsCollection host fuel ParentStorage Type_ (buffer_of [] Total) w)
    as [[b1| |] w1] eqn:Ha; [|done..].
  apply AppendObjectsCollection_spec in Ha as (os & Hres & _ & _).
  pose proof (ResolvedInOrder_extends _ _ _ _ _ _ Hres) as Hext.
  rewrite <- (ext_scopes _ _ Hext (S ParentStorage)) in Hs by done.
  by rewrite (get_storage_Some _ _ _ Hs), Hr.
Qed.

(** X19: collect-all never writes past the buffer it allocated from its
    count of the bindings, and the services never copy a cell that was not
    written: whatever collect-all or the set-up of the services fail with, it
    is neither of the two. *)
Theorem X19_collect_all_stays_within_its_buffer host fuel this Type_ w e :
  (ResolveAll host fuel this Type_ w).1 = Failed e ∨
  (InitServices host fuel this w).1 = Failed e →
  e ≠ BufferOverrun ∧ e ≠ UninitializedRead.
Proof.
  intros [He|He].
  - destruct (ResolveAll_failure host fuel this Type_ w e He)
      as [Hr|[[_ ->]|(T & _ & -> & _)]]; [by apply (ResolveFailure_not_buffer host)|done..].
  - by apply (InitServices_failure host fuel this w).
Qed.

(** X20: a single resolve and an injection do not fail as collect-all does:
    never with a null type or an unregistered type; the only failure of
    registration is the refusal to auto-register, and it names an
    interface. *)
Theorem X20_single_resolve_fails_on_interfaces_only host fuel this Type_ Object w e :
  (Resolve host fuel this Type_ w).1 = Failed e ∨
  (Inject host fuel this Object w).1 = Failed e →
  e ≠ NullType ∧ (∀ T, e ≠ TypeNotRegistered T) ∧
  (∀ T, e = CannotAutoRegister T → IsChildOf_UInterface host T = true).
Proof.
  intros He.
  assert (ResolveFailure host e) as Hr.
  { destruct He as [He|He].
    - by apply (fails_only_Resolve host fuel this Type_ w).
    - apply (fails_only_Inject_ host (Resolve host fuel) this) in He; [done|].
      intros T. apply fails_only_Resolve. }
  split_and!; [by intros ->|by intros T ->|by intros T ->].
Qed.

(** * The further properties on the example *)

Lemma X1_witness :
  ∃ w1,
    AddRegistration 1 IUnbound (Some UGhost) 0 demo_world = (Ok tt, w1) ∧
    GetResolver demo_host 1 IUnbound w1 = (Ok (mkResolver (Some UGhost) 0), w1) ∧
    ∀ k, 1 ≤ k < length (Scopes demo_world) → IsRegistered k IUnbound w1 = true.
Proof.
  apply (X1_AddRegistration_then_lookup demo_host 1 IUnbound (Some UGhost) 0 demo_world).
  vm_compute. lia.
Defined.

Lemma X2_witness :
  length (ChainBindings 1 IWeapon
            (AddRegistration 1 IWeapon (Some USword) 0 demo_world).2)
  = S (length (ChainBindings 1 IWeapon demo_world)) ∧
  ChainBindings 0 IWeapon (AddRegistration 1 IWeapon (Some USword) 0 demo_world).2
  = ChainBindings 0 IWeapon demo_world.
Proof.
  pose proof (X2_AddRegistration_appends 1 IWeapon (Some USword) 0 demo_world
                demo_child_ready) as H.
  destruct H as (_ & _ & _ & _ & _ & _ & Habove & Hbelow); [vm_compute; reflexivity|].
  split; [apply Hbelow; lia|apply Habove; lia].
Defined.

Lemma X3_witness :
  IsRegistered 1 UPlayer demo_world = true ↔
  ∃ k Storage,
    k ≤ 1 ∧ Scopes demo_world !! k = Some Storage ∧
    is_Some (Registrations Storage !! UPlayer).
Proof.
  apply (X3_IsRegistered_iff_entry_in_chain 1 UPlayer demo_world). vm_compute. lia.
Defined.

Lemma X4_witness :
  (GetResolver demo_host 1 UPlayer demo_world).2 = demo_world ∧
  ∀ Resolver,
    (GetResolver demo_host 1 UPlayer demo_world).1 = Ok Resolver →
    ∃ k Storage Resolvers,
      k ≤ 1 ∧ Scopes demo_world !! k = Some Storage ∧
      Registrations Storage !! UPlayer = Some Resolvers ∧
      last Resolvers = Some Resolver ∧
      ∀ j Storage', k < j ≤ 1 → Scopes demo_world !! j = Some Storage' →
        Registrations Storage' !! UPlayer = None.
Proof.
  destruct (X4_lookup_takes_nearest_entry demo_host 1 UPlayer demo_world)
    as (Hsame & _ & _ & Hlast); [vm_compute; reflexivity|].
  split; [exact Hsame|exact Hlast].
Defined.

Lemma X5_witness :
  (∀ k Resolver,
     last (ChainBindings 1 IWeapon demo_world) = Some (k, Resolver) →
     GetResolver demo_host 1 IWeapon demo_world = (Ok Resolver, demo_world) ∧ k ≤ 1) ∧
  (ChainBindings 1 IWeapon demo_world = [] ↔ IsRegistered 1 IWeapon demo_world = false).
Proof.
  apply (X5_single_resolve_selects_last_collected demo_host 1 IWeapon demo_world).
  - vm_compute. lia.
  - apply no_empty_array_sound. vm_compute. reflexivity.
Defined.

Lemma X6_witness :
  NoEmptyArray (Resolve demo_host 3 1 UGhost demo_world).2 ∧
  NoEmptyArray (InitServices demo_host 3 1 demo_world).2.
Proof.
  destruct (X6_tables_never_hold_an_empty_array demo_host 3 demo_world)
    as (_ & Hresolve & _ & Hservices & _).
  - apply no_empty_array_sound. vm_compute. reflexivity.
  - split; [apply Hresolve|apply Hservices].
Defined.

Lemma X7_witness :
  demo_world = demo_world ∧
  IsClassSupported demo_host (mkObject 51 UWeaponFactory) USword = true ∧
  ∃ k Storage,
    k ≤ 1 ∧ Scopes demo_world !! k = Some Storage ∧
    List.find (λ f, IsClassSupported demo_host f USword) (InstanceFactories Storage)
      = Some (mkObject 51 UWeaponFactory) ∧
    ∀ j Storage', k < j ≤ 1 → Scopes demo_world !! j = Some Storage' →
      ∀ f, f ∈ InstanceFactories Storage' → IsClassSupported demo_host f USword = false.
Proof.
  apply (X7_FindInstanceFactory_first_supporting_of_nearest demo_host 1 USword
           demo_world (mkObject 51 UWeaponFactory) demo_world).
  vm_compute. reflexivity.
Defined.

Lemma X8_witness :
  ((∃ Factory, FindInstanceFactory demo_host 1 UBow demo_world = (Ok Factory, demo_world)) ↔
   ∃ k Storage f,
     k ≤ 1 ∧ Scopes demo_world !! k = Some Storage ∧
     f ∈ InstanceFactories Storage ∧ IsClassSupported demo_host f UBow = true) ∧
  (FindInstanceFactory demo_host 1 UBow demo_world = (Failed NullParentStorage, demo_world) ↔
   ∀ k Storage f,
     k ≤ 1 → Scopes demo_world !! k = Some Storage →
     f ∈ InstanceFactories Storage → IsClassSupported demo_host f UBow = false).
Proof.
  apply (X8_FindInstanceFactory_fails_iff_no_factory_supports demo_host 1 UBow demo_world).
  vm_compute. lia.
Defined.

Lemma X9_witness :
  ∃ Factory, FindInstanceFactory demo_host 1 UGhost demo_root_ready
             = (Ok Factory, demo_root_ready) ∧
    IsClassSupported demo_host Factory UGhost = true.
Proof.
  destruct (X9_default_factory_makes_search_succeed demo_host 3 demo_registered
              demo_root_ready UGhost) as [_ Hfind]; [vm_compute; reflexivity|].
  apply Hfind; [vm_compute; reflexivity|vm_compute; lia].
Defined.

Lemma X10_witness :
  InitServices demo_host 0 2 demo_deep
  = (Ok tt, with_factories 2 (mkStorage ∅ [] demo_outer) [] demo_deep) ∧
  (FindInstanceFactory demo_host 2 UAxe
     (with_factories 2 (mkStorage ∅ [] demo_outer) [] demo_deep)).1
  = (FindInstanceFactory demo_host 1 UAxe demo_deep).1.
Proof.
  destruct (X10_InitServices_without_local_factory_binding demo_host 0 2 demo_deep
              (mkStorage ∅ [] demo_outer)) as [Hrun Hsearch];
    [vm_compute; reflexivity..|].
  split; [exact Hrun|by apply Hsearch].
Defined.

Lemma X11_witness :
  (FindInstanceFactory demo_host 0 USword
     (InitServices demo_host 3 1 demo_root_ready).2).1
  = (FindInstanceFactory demo_host 0 USword demo_root_ready).1.
Proof.
  apply (X11_InitServices_changes_own_factory_list_only demo_host 3 1 demo_root_ready).
  lia.
Defined.

Lemma X12_witness :
  extends demo_world (Resolve demo_host 3 1 UGhost demo_world).2 ∧
  (∀ k, k ≠ 0 →
     Scopes (Resolve demo_host 3 1 UGhost demo_world).2 !! k = Scopes demo_world !! k) ∧
  (∀ k Type',
     (FindInstanceFactory demo_host k Type' (Resolve demo_host 3 1 UGhost demo_world).2).1
     = (FindInstanceFactory demo_host k Type' demo_world).1) ∧
  (∀ k Type', IsRegistered k Type' demo_world = true →
     IsRegistered k Type' (Resolve demo_host 3 1 UGhost demo_world).2 = true).
Proof.
  apply (X12_resolution_touches_only_new_root_entries demo_host 3 1 UGhost demo_world).
  left. reflexivity.
Defined.

Lemma X13_witness :
  GetResolver demo_host 1 IWeapon (Resolve demo_host 3 1 UGhost demo_world).2
  = (Ok bow_binding, (Resolve demo_host 3 1 UGhost demo_world).2) ∧
  GetResolver demo_host 1 IWeapon (ResolveAll demo_host 2 1 (Some IWeapon) demo_world).2
  = (Ok bow_binding, (ResolveAll demo_host 2 1 (Some IWeapon) demo_world).2).
Proof.
  destruct (X13_registered_type_keeps_its_binding demo_host 1 IWeapon demo_world
              bow_binding) as (_ & Hresolve & Hall); [vm_compute; reflexivity|].
  split; [apply Hresolve|apply Hall].
Defined.

Lemma X15_witness :
  ∃ new,
    Trace (Resolve demo_host 3 1 UPlayer demo_world).2 = Trace demo_world ++ new ∧
    Forall (created_with demo_outer) new.
Proof.
  destruct (X15_objects_created_with_outer_of_resolving_scope demo_host 3 1 demo_world
              demo_child_ready) as [Hresolve _]; [vm_compute; reflexivity|].
  apply Hresolve.
Defined.

Lemma X17_witness :
  ∃ Arguments Before,
    Forall2 marshals
      (List.filter IsMarshalled
         [mkProperty true (FInterfaceProperty IWeapon); mkProperty false FOtherProperty])
      Arguments ∧
    sizeof_Arguments Arguments = 16 ∧
    Trace (Inject demo_host 2 1 (mkObject 53 UPlayer) demo_world).2
    = Trace demo_world ++ Before ++ [EvProcessEvent (mkObject 53 UPlayer) Arguments].
Proof.
  destruct (X17_Inject_marshals_object_and_interface_parameters demo_host 2 1
              (mkObject 53 UPlayer) demo_world true
              (Inject demo_host 2 1 (mkObject 53 UPlayer) demo_world).2
              (mkFunction 16 [mkProperty true (FInterfaceProperty IWeapon);
                              mkProperty false FOtherProperty]))
    as (Arguments & Before & Hkinds & _ & Hsize & Htrace & _);
    [vm_compute; reflexivity..|].
  exists Arguments, Before. split_and!; [exact Hkinds|exact Hsize|exact Htrace].
Defined.

Lemma X18_witness :
  ResolveAll demo_host 2 2 (Some IWeapon) demo_deep
  = ResolveAll demo_host 2 1 (Some IWeapon) demo_deep.
Proof.
  apply (X18_ResolveAll_without_local_binding_is_the_parents demo_host 2 1 IWeapon
           demo_deep (mkStorage ∅ [] demo_outer));
    vm_compute; reflexivity.
Defined.

Lemma X19_witness :
  ResolveAll demo_host 2 1 (Some IWeapon) demo_broken
    = (Failed EffectiveClassIsNull,
       (ResolveAll demo_host 2 1 (Some IWeapon) demo_broken).2) ∧
  length (ChainBindings 1 IWeapon demo_broken) = 4 ∧
  NextObjectId (ResolveAll demo_host 2 1 (Some IWeapon) demo_broken).2
    = 3 + NextObjectId demo_broken ∧
  EffectiveClassIsNull ≠ BufferOverrun ∧ EffectiveClassIsNull ≠ UninitializedRead.
Proof.
  split_and!; [vm_compute; reflexivity..| |];
    apply (X19_collect_all_stays_within_its_buffer demo_host 2 1 (Some IWeapon)
             demo_broken EffectiveClassIsNull);
    left; vm_compute; reflexivity.
Defined.

Lemma X20_witness :
  Resolve demo_host 3 1 IUnbound demo_world
    = (Failed (CannotAutoRegister IUnbound), demo_world) ∧
  IsChildOf_UInterface demo_host IUnbound = true.
Proof.
  destruct (X20_single_resolve_fails_on_interfaces_only demo_host 3 1 IUnbound
              (mkObject 0 0) demo_world (CannotAutoRegister IUnbound))
    as (_ & _ & Hinterface); [left; vm_compute; reflexivity|].
  split; [vm_compute; reflexivity|by apply Hinterface].
Defined.
